(** * ProgramTimer (src/timer.py)

    A shallow embedding of the execution log of [timer.py]: the [Event]
    container, the [ProgramTimer] registry that infers the nesting of events
    from their creation order and open/closed state, its error table and the
    rendered summary.

    - Python floats are IEEE 754 binary64 values ([spec_float], precision 53,
      [emax] 1024); [time.time()] reads an external clock.
    - The [_events] dict is a finite map from integer keys to events; a
      missing key raises [KeyError].
    - Methods run in a state-and-exception monad over the timer object, the
      number of clock readings made so far and the text printed so far. *)

From Stdlib Require Import ZArith String Ascii List SpecFloat DecimalString.
From stdpp Require Import gmap strings list sorting.

Local Open Scope Z_scope.

(** ** Python floats and ['{0:.1f}'.format] *)

Abbreviation float := spec_float.

(** [x - y] on floats. *)
Definition float_sub (x y : float) : float := SFsub 53 1024 x y.

(** [num / den] rounded to the nearest integer, ties to the even one
    ([den] positive). *)
Definition round_half_even (num den : Z) : Z :=
  let q := num / den in
  let r := num mod den in
  match 2 * r ?= den with
  | Lt => q
  | Gt => q + 1
  | Eq => if Z.even q then q else q + 1
  end.

(** The number of tenths nearest to [m * 2^e] (ties to even): the float
    formatter rounds the exact binary value correctly. *)
Definition tenths (m : positive) (e : Z) : Z :=
  match e with
  | Zneg p => round_half_even (Zpos m * 10) (2 ^ Zpos p)
  | _ => Zpos m * 10 * 2 ^ e
  end.

(** Decimal numeral of a natural number given as a [Z]. *)
Definition decimal (n : Z) : string :=
  NilZero.string_of_uint (N.to_uint (Z.to_N n)).

Definition sign_str (s : bool) : string := if s then "-" else "".

(** ['{0:.1f}'.format(x)] *)
Definition format_1f (x : float) : string :=
  match x with
  | S754_nan => "nan"
  | S754_infinity s => sign_str s +:+ "inf"
  | S754_zero s => sign_str s +:+ "0.0"
  | S754_finite s m e =>
      let t := tenths m e in
      sign_str s +:+ decimal (t / 10) +:+ "." +:+ decimal (t mod 10)
  end.

(** ** Python values, strings and ranges *)

(** The values that cross the timer's interface untyped: the result of a
    method without [return] is [VNone]; [data_id] is annotated [Any]. *)
Inductive value :=
  | VNone
  | VInt (z : Z)
  | VStr (s : string).

(** The newline character. *)
Definition nl : string := String (ascii_of_nat 10) EmptyString.

(** [n * s] for an int [n] and a str [s]: empty when [n <= 0]. *)
Definition str_mul (n : Z) (s : string) : string :=
  String.concat "" (replicate (Z.to_nat n) s).

(** [range(start, stop, step)] for a non-zero [step]. *)
Definition range (start stop step : Z) : list Z :=
  let len :=
    if 0 <? step then (stop - start + step - 1) / step
    else (start - stop - step - 1) / (- step) in
  (λ k, start + Z.of_nat k * step) <$> seq 0 (Z.to_nat len).

(** ** Data model *)

(** class Event *)
Record Event := mkEvent {
  name : string;
  uid : Z;
  hrchy : Z;
  pid : option Z;
  __start : float;
  __end : option float
}.

(** A row of the [errors] DataFrame, whose columns are fixed by
    [ProgramTimer.__init__]. *)
Record ErrRow := mkErrRow {
  Method : string;
  DataID : value;
  ErrDescription : string
}.

(** The [errors] DataFrame: its rows, in index order. *)
Abbreviation DataFrame := (list ErrRow).

(** class ProgramTimer *)
Record ProgramTimer := mkProgramTimer {
  _events : gmap Z Event;
  _ud_start : bool;
  _ud_end : bool;
  _default_header : string;
  _start_ud_post_txt : string;
  _start_ud_pre_txt : string;
  _end_ud_post_txt : string;
  _end_ud_pre_txt : string;
  errors : DataFrame
}.

(** The timer object together with the world around it: how many times the
    clock has been read, and the texts handed to [print], oldest first. *)
Record state := mkState {
  self : ProgramTimer;
  ticks : nat;
  stdout : list string
}.

Definition set_events (ev : gmap Z Event) (t : ProgramTimer) : ProgramTimer :=
  mkProgramTimer ev (_ud_start t) (_ud_end t) (_default_header t)
    (_start_ud_post_txt t) (_start_ud_pre_txt t)
    (_end_ud_post_txt t) (_end_ud_pre_txt t) (errors t).

Definition set_errors (df : DataFrame) (t : ProgramTimer) : ProgramTimer :=
  mkProgramTimer (_events t) (_ud_start t) (_ud_end t) (_default_header t)
    (_start_ud_post_txt t) (_start_ud_pre_txt t)
    (_end_ud_post_txt t) (_end_ud_pre_txt t) df.

(** ** Exceptions and the method monad *)

Inductive exn :=
  | Exception (msg : string)
  | KeyError (key : Z).

Inductive res (A : Type) :=
  | Ok (a : A) (σ : state)
  | Raise (e : exn) (σ : state).
Arguments Ok {A} a σ.
Arguments Raise {A} e σ.

Definition M (A : Type) : Type := state → res A.

#[export] Instance M_ret : MRet M := λ A a σ, Ok a σ.
#[export] Instance M_bind : MBind M := λ A B f m σ,
  match m σ with
  | Ok a σ' => f a σ'
  | Raise e σ' => Raise e σ'
  end.

Definition raise {A} (e : exn) : M A := λ σ, Raise e σ.

(** The state a computation leaves behind, whether it returned or raised. *)
Definition final {A} (r : res A) : state :=
  match r with
  | Ok _ σ => σ
  | Raise _ σ => σ
  end.

Definition get_self : M ProgramTimer := λ σ, Ok (self σ) σ.

Definition put_self (t : ProgramTimer) : M unit :=
  λ σ, Ok tt (mkState t (ticks σ) (stdout σ)).

(** [print(msg)] *)
Definition print (msg : string) : M unit :=
  λ σ, Ok tt (mkState (self σ) (ticks σ) (stdout σ ++ [msg])).

(** [self._events[i]] *)
Definition events_getitem (i : Z) : M Event :=
  t ← get_self;
  match _events t !! i with
  | Some e => mret e
  | None => raise (KeyError i)
  end.

(** [self._events[i] = e] *)
Definition events_setitem (i : Z) (e : Event) : M unit :=
  t ← get_self;
  put_self (set_events (<[i := e]> (_events t)) t).

Section Timer.

(** The successive readings of the system clock, and pandas'
    [DataFrame.to_string(index=False)]. *)
Variable clock : nat → float.
Variable to_string : DataFrame → string.

(** [time.time()] *)
Definition time_time : M float :=
  λ σ, Ok (clock (ticks σ)) (mkState (self σ) (S (ticks σ)) (stdout σ)).

(** ** class Event *)

(** [Event.__init__] *)
Definition Event_init (name : string) (uid hrchy : Z) (pid : option Z) : M Event :=
  now ← time_time;
  mret (mkEvent name uid hrchy pid now None).

(** [Event.end]: the event object after the call. *)
Definition Event_end (e : Event) : M Event :=
  now ← time_time;
  mret (mkEvent (name e) (uid e) (hrchy e) (pid e) (__start e) (Some now)).

(** [Event.is_open] *)
Definition is_open (e : Event) : bool :=
  match __end e with
  | None => true
  | Some _ => false
  end.

(** [Event.seconds] *)
Definition seconds (e : Event) : M float :=
  match __end e with
  | None => now ← time_time; mret (float_sub now (__start e))
  | Some t => mret (float_sub t (__start e))
  end.

(** ** class ProgramTimer *)

(** [ProgramTimer.__init__] *)
Definition ProgramTimer_init (ud_start ud_end : bool) : ProgramTimer :=
  mkProgramTimer ∅ ud_start ud_end "Program Execution Summary"
    "..." "Started: " "." "Finished: " [].

(** The property [__event_count]. *)
Definition __event_count : M Z :=
  t ← get_self;
  mret (Z.of_nat (size (_events t))).

(** The [for] loop of [__prior_open_event_id]. *)
Fixpoint prior_open_scan (ids : list Z) : M (option Z) :=
  match ids with
  | [] => mret None
  | i :: ids' =>
      e ← events_getitem i;
      if is_open e then
        e' ← events_getitem i;
        mret (Some (uid e'))
      else prior_open_scan ids'
  end.

(** [ProgramTimer.__prior_open_event_id] *)
Definition __prior_open_event_id : M (option Z) :=
  n ← __event_count;
  if n =? 0 then mret None
  else
    n' ← __event_count;
    prior_open_scan (range n' 0 (-1)).

(** [ProgramTimer.start] *)
Definition start (name : string) : M value :=
  n ← __event_count;
  let new_id := n + 1 in
  prior_open_id ← __prior_open_event_id;
  hrchy ← match prior_open_id with
          | None => mret 1
          | Some p => e ← events_getitem p; mret (hrchy e + 1)
          end;
  event ← Event_init name new_id hrchy prior_open_id;
  _ ← events_setitem new_id event;
  t ← get_self;
  _ ← (if _ud_start t
       then print (_start_ud_pre_txt t +:+ name +:+ _start_ud_post_txt t)
       else mret tt);
  mret VNone.

(** [ProgramTimer.end] *)
Definition end_ : M value :=
  prior_open_id ← __prior_open_event_id;
  match prior_open_id with
  | None =>
      raise (Exception
        "ProgramTimer.end() method called when there are no prior open events.")
  | Some p =>
      e ← events_getitem p;
      e' ← Event_end e;
      _ ← events_setitem p e';
      t ← get_self;
      _ ← (if _ud_end t
           then e ← events_getitem p;
                print (_end_ud_pre_txt t +:+ name e +:+ _end_ud_post_txt t)
           else mret tt);
      mret VNone
  end.

(** [ProgramTimer.__create_event_summary] *)
Definition __create_event_summary (event : Event) : M string :=
  let blank_space := str_mul (hrchy event - 1) "   " in
  let summary := blank_space +:+ name event in
  s ← seconds event;
  mret (summary +:+ ": " +:+ format_1f s +:+ "s").

(** The property [errors_were_logged]: [not self.errors.empty]. *)
Definition errors_were_logged (t : ProgramTimer) : bool :=
  negb (bool_decide (errors t = [])).

Definition SECTION_DIVIDE : string := "*************************************".

(** The [for] loop of [print_summary]. *)
Fixpoint summary_loop (ids : list Z) (summary : string) : M string :=
  match ids with
  | [] => mret summary
  | i :: ids' =>
      e ← events_getitem i;
      event_details ← __create_event_summary e;
      summary_loop ids' (summary +:+ event_details +:+ nl)
  end.

(** [ProgramTimer.print_summary] *)
Definition print_summary (header : option string) : M value :=
  let summary := nl +:+ SECTION_DIVIDE +:+ nl in
  t ← get_self;
  let header := match header with
                | None => _default_header t
                | Some h => h
                end in
  let summary := summary +:+ header +:+ nl +:+ nl in
  n ← __event_count;
  summary ← summary_loop (range 1 (n + 1) 1) summary;
  t ← get_self;
  let summary :=
    if errors_were_logged t
    then ((summary +:+ (SECTION_DIVIDE +:+ nl)) +:+ "Exceptions" +:+ nl +:+ nl)
           +:+ to_string (errors t)
    else summary in
  let summary := summary +:+ (nl +:+ SECTION_DIVIDE +:+ nl) in
  _ ← put_self (set_events ∅ t);
  _ ← print summary;
  mret VNone.

(** [ProgramTimer.log_err] *)
Definition log_err (method : string) (data_id : value) (info : string) : M value :=
  t ← get_self;
  let new_err := mkErrRow method data_id info in
  _ ← put_self (set_errors (errors t ++ [new_err]) t);
  mret VNone.

End Timer.

(** ** Call sequences *)

(** One call on the timer's public interface. *)
Inductive op :=
  | Start (name : string)
  | End
  | Report (header : option string)
  | LogErr (method : string) (data_id : value) (info : string).

Section Runs.

Variable clock : nat → float.
Variable to_string : DataFrame → string.

Definition exec (o : op) : M value :=
  match o with
  | Start name => start clock name
  | End => end_ clock
  | Report header => print_summary clock to_string header
  | LogErr method data_id info => log_err method data_id info
  end.

(** The calls in order; the first exception ends the run. *)
Fixpoint run (ops : list op) : M unit :=
  match ops with
  | [] => mret tt
  | o :: ops' => _ ← exec o; run ops'
  end.

(** ** The rendered summary, as a function of the registry *)

(** The events of the registry in ascending key order. *)
Definition spans (ev : gmap Z Event) : list Event :=
  omap (ev !!.) (seqZ 1 (Z.of_nat (size ev))).

(** The elapsed seconds of the events [es] when they are read one after the
    other from clock reading [k] on: a closed event has its own end instant,
    an open one takes the next reading of the clock. *)
Fixpoint elapsed (k : nat) (es : list Event) : list float :=
  match es with
  | [] => []
  | e :: es' =>
      match __end e with
      | None => float_sub (clock k) (__start e) :: elapsed (S k) es'
      | Some t => float_sub t (__start e) :: elapsed k es'
      end
  end.

(** The number of clock readings [elapsed] makes. *)
Definition open_count (es : list Event) : nat :=
  length (filter (λ e, is_open e = true) es).

(** One line of the summary: three spaces per level below the first, the
    name, a colon and the seconds. *)
Definition summary_line (e : Event) (secs : float) : string :=
  str_mul (hrchy e - 1) "   " +:+ name e +:+ ": " +:+ format_1f secs +:+ "s".

(** The lines of the events [es] with the seconds [ss], each ended by a
    newline. *)
Definition summary_lines (es : list Event) (ss : list float) : string :=
  String.concat "" (zip_with (λ e secs, summary_line e secs +:+ nl) es ss).

(** The section on exceptions: absent for an empty error table. *)
Definition exceptions_section (df : DataFrame) : string :=
  match df with
  | [] => ""
  | _ => SECTION_DIVIDE +:+ nl +:+ "Exceptions" +:+ nl +:+ nl +:+ to_string df
  end.

(** The whole text: the divider, the header and a blank line, the lines of
    the events, the section on exceptions and the closing divider. *)
Definition report_text (header lines : string) (df : DataFrame) : string :=
  nl +:+ SECTION_DIVIDE +:+ nl +:+ header +:+ nl +:+ nl +:+
  lines +:+ exceptions_section df +:+ nl +:+ SECTION_DIVIDE +:+ nl.

(** The header [print_summary] uses. *)
Definition header_of (t : ProgramTimer) (header : option string) : string :=
  match header with
  | None => _default_header t
  | Some h => h
  end.

End Runs.

(** The state right after [ProgramTimer(ud_start, ud_end)], nothing printed
    and the clock not yet read. *)
Definition fresh (ud_start ud_end : bool) : state :=
  mkState (ProgramTimer_init ud_start ud_end) 0 [].

(** ** Properties of the registry *)

(** The keys of the registry are [1..n] for [n] its size, and each key holds
    the event with that uid. *)
Definition registry_ok (ev : gmap Z Event) : Prop :=
  (∀ i, is_Some (ev !! i) ↔ 1 ≤ i ≤ Z.of_nat (size ev)) ∧
  (∀ i e, ev !! i = Some e → uid e = i).

(** [r] is what the descending scan for an open event must find: the largest
    key holding an open event, or nothing when every event is closed. *)
Definition nearest_open (ev : gmap Z Event) (r : option Z) : Prop :=
  match r with
  | None => ∀ i e, ev !! i = Some e → is_open e = false
  | Some p =>
      (∃ e, ev !! p = Some e ∧ is_open e = true) ∧
      (∀ j e, ev !! j = Some e → is_open e = true → j ≤ p)
  end.

(** What the scan over [k, k-1, ..., 1] finds. *)
Definition scan_result (ev : gmap Z Event) (k : nat) (r : option Z) : Prop :=
  match r with
  | None => ∀ i e, 1 ≤ i ≤ Z.of_nat k → ev !! i = Some e → is_open e = false
  | Some p =>
      1 ≤ p ≤ Z.of_nat k ∧
      (∃ e, ev !! p = Some e ∧ is_open e = true) ∧
      (∀ j e, 1 ≤ j ≤ Z.of_nat k → ev !! j = Some e → is_open e = true → j ≤ p)
  end.

(** The hierarchy level [start] gives to a new event whose nearest open
    predecessor is [r]. *)
Definition child_hrchy (ev : gmap Z Event) (r : option Z) : Z :=
  match r ≫= (ev !!.) with
  | None => 1
  | Some e => hrchy e + 1
  end.

(** What a notification adds to the printed texts. *)
Definition notice (enabled : bool) (msg : string) : list string :=
  if enabled then [msg] else [].

(** The event [e] once closed at instant [t]. *)
Definition closed_at (t : float) (e : Event) : Event :=
  mkEvent (name e) (uid e) (hrchy e) (pid e) (__start e) (Some t).

(** The failure [end] raises when no event is open. *)
Definition no_prior_open_events : exn :=
  Exception
    "ProgramTimer.end() method called when there are no prior open events.".

(** ** Call sequences: nesting, created events and logged errors *)

(** A sequence of [start] and [end] calls (error records may come in
    between) is well nested from depth [d] when no [end] comes with nothing
    open. *)
Fixpoint well_nested (d : nat) (ops : list op) : bool :=
  match ops with
  | [] => true
  | Start _ :: ops' => well_nested (S d) ops'
  | End :: ops' =>
      match d with
      | O => false
      | S d' => well_nested d' ops'
      end
  | LogErr _ _ _ :: ops' => well_nested d ops'
  | Report _ :: _ => false
  end.

(** The true nesting depth of each [start] of the sequence, in call order:
    one more than the number of events started and not yet ended. *)
Fixpoint depths (d : nat) (ops : list op) : list Z :=
  match ops with
  | [] => []
  | Start _ :: ops' => (1 + Z.of_nat d) :: depths (S d) ops'
  | End :: ops' => depths (Nat.pred d) ops'
  | _ :: ops' => depths d ops'
  end.

(** The number of events created since the last report, [n] of them being
    there before the sequence. *)
Fixpoint created (n : nat) (ops : list op) : nat :=
  match ops with
  | [] => n
  | Start _ :: ops' => created (S n) ops'
  | Report _ :: ops' => created 0 ops'
  | _ :: ops' => created n ops'
  end.

(** The error rows a sequence records, in call order. *)
Definition logged (ops : list op) : DataFrame :=
  omap (λ o, match o with
             | LogErr method data_id info => Some (mkErrRow method data_id info)
             | _ => None
             end) ops.

(** Whether a sequence asks for a report. *)
Definition has_report (ops : list op) : Prop :=
  ∃ header, Report header ∈ ops.

(** The open events as an explicit stack of keys, innermost first: each
    holds an open event whose level is its height in the stack, above keys
    that are all smaller. *)
Fixpoint stack_ok (ev : gmap Z Event) (stk : list Z) : Prop :=
  match stk with
  | [] => True
  | p :: rest =>
      (∃ e, ev !! p = Some e ∧ is_open e = true ∧
            hrchy e = Z.of_nat (length stk)) ∧
      Forall (λ q, q < p) rest ∧
      stack_ok ev rest
  end.

Definition open_stack (ev : gmap Z Event) (stk : list Z) : Prop :=
  stack_ok ev stk ∧ ∀ i e, ev !! i = Some e → is_open e = true → i ∈ stk.

(** ** The shape of a formatted float *)

Definition is_digit (c : ascii) : bool :=
  (48 <=? nat_of_ascii c)%nat && (nat_of_ascii c <=? 57)%nat.

Fixpoint all_digits (s : string) : bool :=
  match s with
  | EmptyString => true
  | String c s' => is_digit c && all_digits s'
  end.

(** An optional minus sign, at least one digit, a point and exactly one
    digit. *)
Definition one_decimal_place (s : string) : Prop :=
  ∃ (sgn : bool) (int_part : string) (d : ascii),
    s = sign_str sgn +:+ int_part +:+ "." +:+ String d "" ∧
    int_part ≠ "" ∧ all_digits int_part = true ∧ is_digit d = true.

(** The floats that stand for a number: zeros and finite values. *)
Definition is_finite (x : float) : bool :=
  match x with
  | S754_zero _ | S754_finite _ _ _ => true
  | _ => false
  end.

(** A float of ordinary size: a zero, or a finite value below [2^1022] in
    magnitude. The readings of a system clock are of that kind. *)
Definition ordinary (x : float) : bool :=
  match x with
  | S754_zero _ => true
  | S754_finite _ m e => Z.pos (digits2_pos m) + e <=? 1022
  | _ => false
  end.

(** The start and end instants of every event are of ordinary size. *)
Definition instants_ok (ev : gmap Z Event) : Prop :=
  ∀ i e, ev !! i = Some e →
    ordinary (__start e) = true ∧ ∀ t, __end e = Some t → ordinary t = true.

(** ** Sample inputs *)

(** A clock that starts at 1000 seconds and advances by three quarters of a
    second per reading, for 64 readings. *)
Definition sample_clock (k : nat) : float :=
  binary_normalize 53 1024 (4000 + 3 * Z.of_nat (Nat.min k 64)) (-2) false.

(** A table printer that puts each row on a line of its own. *)
Definition sample_to_string (df : DataFrame) : string :=
  String.concat nl ((λ r, Method r +:+ " " +:+ ErrDescription r) <$> df).

(** The state a new timer is in after the calls [ops], under the sample
    clock. *)
Definition after (ops : list op) : state :=
  final (run sample_clock sample_to_string ops (fresh true false)).

(** A nested pair of events with the inner one ended. *)
Definition inner_ended : list op := [Start "outer"; Start "inner"; End].

(** One event, started and ended. *)
Definition all_ended : list op := [Start "A"; End].

(** ** The tree of events *)

(** The event [e] under key [i] and its parent: an event without parent is
    at level 1; a parent has a smaller key, is one level up, and is open as
    long as [e] is. *)
Definition parent_ok (ev : gmap Z Event) (i : Z) (e : Event) : Prop :=
  match pid e with
  | None => hrchy e = 1
  | Some p =>
      p < i ∧
      ∃ pe, ev !! p = Some pe ∧ hrchy e = hrchy pe + 1 ∧
            (is_open e = true → is_open pe = true)
  end.

Definition tree_ok (ev : gmap Z Event) : Prop :=
  ∀ i e, ev !! i = Some e → 1 ≤ hrchy e ∧ parent_ok ev i e.

(** ** Blocks of calls *)

(** The nesting depth after the calls [ops], from depth [d]. *)
Fixpoint depth_after (d : nat) (ops : list op) : nat :=
  match ops with
  | [] => d
  | Start _ :: ops' => depth_after (S d) ops'
  | End :: ops' => depth_after (Nat.pred d) ops'
  | _ :: ops' => depth_after d ops'
  end.

(** A block of calls that ends every event it starts, and only those. *)
Definition balanced (ops : list op) : Prop :=
  well_nested 0 ops = true ∧ depth_after 0 ops = 0%nat.

(** The keys above [n0] that hold an open event, from the largest down. *)
Definition block_stack (n0 : Z) (ev : gmap Z Event) (stk : list Z) : Prop :=
  StronglySorted (λ a b, b < a) stk ∧
  ∀ q, q ∈ stk ↔ n0 < q ∧ ∃ e, ev !! q = Some e ∧ is_open e = true.

(** ** What a run prints *)

(** The number of texts the call [o] prints on a timer with the notification
    switches [ud_start] and [ud_end]. *)
Definition texts_of (ud_start ud_end : bool) (o : op) : nat :=
  match o with
  | Start _ => if ud_start then 1 else 0
  | End => if ud_end then 1 else 0
  | Report _ => 1
  | LogErr _ _ _ => 0
  end.

(** ** The timeline of the events *)

(** [born] and [died] give, for every key, which readings of the clock the
    event's start and end instants are: the start reading comes before the
    end reading, both were made before reading [now], events are born in key
    order, and an event died before its parent did. *)
Definition timeline_ok (clock : nat → float) (ev : gmap Z Event) (now : nat)
    (born died : Z → nat) : Prop :=
  ∀ i e, ev !! i = Some e →
    __start e = clock (born i) ∧ (born i < now)%nat ∧
    (∀ t, __end e = Some t → t = clock (died i) ∧ (born i < died i < now)%nat) ∧
    (∀ j e', ev !! j = Some e' → j < i → (born j < born i)%nat) ∧
    (∀ p pe, pid e = Some p → ev !! p = Some pe → is_open pe = false →
       (died i < died p)%nat).

(** ** [Event.__str__] and ['{0:.2f}'.format] *)

(** The number of hundredths nearest to [m * 2^e] (ties to even). *)
Definition hundredths (m : positive) (e : Z) : Z :=
  match e with
  | Zneg p => round_half_even (Zpos m * 100) (2 ^ Zpos p)
  | _ => Zpos m * 100 * 2 ^ e
  end.

(** A number below 100 on two digits. *)
Definition two_digits (n : Z) : string :=
  if n <? 10 then "0" +:+ decimal n else decimal n.

(** ['{0:.2f}'.format(x)] *)
Definition format_2f (x : float) : string :=
  match x with
  | S754_nan => "nan"
  | S754_infinity s => sign_str s +:+ "inf"
  | S754_zero s => sign_str s +:+ "0.00"
  | S754_finite s m e =>
      let t := hundredths m e in
      sign_str s +:+ decimal (t / 100) +:+ "." +:+ two_digits (t mod 100)
  end.

(** [Event.__str__] *)
Definition Event_str (clock : nat → float) (e : Event) : M string :=
  s ← seconds clock e;
  mret ((name e +:+ ": " +:+ format_2f s) +:+ " seconds").

(** Whether a string is two digits. *)
Definition is_two_digits (s : string) : bool :=
  match s with
  | String d1 (String d2 EmptyString) => is_digit d1 && is_digit d2
  | _ => false
  end.

(** An optional minus sign, at least one digit, a point and exactly two
    digits. *)
Definition two_decimal_places (s : string) : Prop :=
  ∃ (sgn : bool) (int_part frac : string),
    s = sign_str sgn +:+ int_part +:+ "." +:+ frac ∧
    int_part ≠ "" ∧ all_digits int_part = true ∧ is_two_digits frac = true.

(** * Address fields (src/data_prep.py, src/data_integrity.py)

    [clean_street_address] and [create_full_address] of [data_prep.py] are
    repeated, under the names [_clean_street_address] and
    [_create_full_address], in [data_integrity.py]. *)

(** ** Strings: whitespace, [str.split()] and [' '.join] *)

(** [c.isspace()] for a character below U+0100: the ASCII whitespace
    characters, the separators U+001C to U+001F, NEL and the no-break
    space. *)
Definition py_isspace (c : ascii) : bool :=
  let n := nat_of_ascii c in
  ((9 <=? n) && (n <=? 13) || (28 <=? n) && (n <=? 32) ||
   (n =? 133) || (n =? 160))%nat.

(** Whether a string is empty or begins with whitespace. *)
Definition at_word_end (s : string) : bool :=
  match s with
  | EmptyString => true
  | String c _ => py_isspace c
  end.

(** [s.split()]: the maximal runs of characters that are not whitespace. A
    character that is not whitespace opens a word when the rest is at a word
    end, and otherwise goes in front of the first word of the rest. *)
Fixpoint split_ws (s : string) : list string :=
  match s with
  | EmptyString => []
  | String c s' =>
      let rest := split_ws s' in
      if py_isspace c then rest
      else if at_word_end s' then String c "" :: rest
      else
        match rest with
        | w :: ws => String c w :: ws
        | [] => [String c ""]
        end
  end.

(** [' '.join(words)] *)
Definition join_sp (words : list string) : string := String.concat " " words.

(** A string without whitespace. *)
Fixpoint has_no_space (s : string) : bool :=
  match s with
  | EmptyString => true
  | String c s' => negb (py_isspace c) && has_no_space s'
  end.

(** A word: not empty and without whitespace. *)
Definition is_word (w : string) : Prop := w ≠ "" ∧ has_no_space w = true.

(** The string without its whitespace characters. *)
Fixpoint strip_ws (s : string) : string :=
  match s with
  | EmptyString => ""
  | String c s' => if py_isspace c then strip_ws s' else String c (strip_ws s')
  end.

(** ** Cells and rows of a DataFrame *)

(** The objects a cell read from a CSV file holds. *)
Inductive cell :=
  | CNone
  | CBool (b : bool)
  | CInt (z : Z)
  | CFloat (f : float)
  | CStr (s : string).

(** The exceptions of the data preparation; [PTimer] carries a failure of
    the timer. *)
Inductive pyexn :=
  | PKeyError (key : string)
  | PTypeError
  | PAttributeError
  | PValueError
  | POverflowError
  | PTimer (e : exn).

(** A result or an exception. *)
Definition E (A : Type) : Type := pyexn + A.

#[export] Instance E_ret : MRet E := λ A a, inr a.
#[export] Instance E_bind : MBind E := λ A B f m,
  match m with
  | inl x => inl x
  | inr a => f a
  end.

(** [row[key]] on a row whose labels are the column names. *)
Definition row_getitem (row : gmap string cell) (key : string) : E cell :=
  match row !! key with
  | Some c => inr c
  | None => inl (PKeyError key)
  end.

(** [c == s] for a text [s]: only a text equals a text. *)
Definition cell_eq_str (c : cell) (s : string) : bool :=
  match c with
  | CStr s' => bool_decide (s' = s)
  | _ => false
  end.

(** [str(z)] for an int. *)
Definition str_int (z : Z) : string :=
  if z <? 0 then "-" +:+ decimal (- z) else decimal z.

(** [clean_street_address]: any failure of [address.split()] or of the join
    is caught and the argument is handed back; only a text has a [split]
    whose result [' '.join] accepts. *)
Definition clean_street_address (address : cell) : cell :=
  match address with
  | CStr s => CStr (join_sp (split_ws s))
  | _ => address
  end.

Section Addresses.

(** [str(f)] for a float. *)
Variable repr_float : float → string.

(** [str(c)], which is what ['{0}'.format(c)] writes. *)
Definition str_cell (c : cell) : string :=
  match c with
  | CNone => "None"
  | CBool b => if b then "True" else "False"
  | CInt z => str_int z
  | CFloat f => repr_float f
  | CStr s => s
  end.

(** [create_full_address] *)
Definition create_full_address (row : gmap string cell) : E cell :=
  building ← row_getitem row "BUILDING";
  if cell_eq_str building "NKA" then row_getitem row "STREET"
  else
    b ← row_getitem row "BUILDING";
    s ← row_getitem row "STREET";
    mret (CStr (str_cell b +:+ " " +:+ str_cell s)).

(** [create_full_address_old] *)
Definition create_full_address_old (row : gmap string cell) : E cell :=
  building ← row_getitem row "BUILDING";
  if cell_eq_str building "NKA" then
    s ← row_getitem row "STREET";
    z ← row_getitem row "ZIPCODE";
    mret (CStr (str_cell s +:+ ", " +:+ str_cell z))
  else
    b ← row_getitem row "BUILDING";
    s ← row_getitem row "STREET";
    z ← row_getitem row "ZIPCODE";
    mret (CStr (str_cell b +:+ " " +:+ str_cell s +:+ ", " +:+ str_cell z)).

End Addresses.

(** A text is tidy from a position on, [after_space] telling whether the
    character before was whitespace (or there was none): each whitespace
    character is a space that follows a character of a word, and the text
    does not end on one. *)
Fixpoint tidy_from (after_space : bool) (s : string) : bool :=
  match s with
  | EmptyString => negb after_space
  | String c s' =>
      if py_isspace c
      then bool_decide (c = " "%char) && negb after_space && tidy_from true s'
      else tidy_from false s'
  end.

(** A tidy text: empty, or words with exactly one space between them. *)
Definition tidy (s : string) : bool :=
  match s with
  | EmptyString => true
  | _ => tidy_from true s
  end.

(** * Fields of a Yelp business (src/data_prep.py) *)

(** ** JSON values as Python objects *)

(** What [json] decoding yields: [None], a bool, an int, a float, a str, a
    list, or a dict with str keys. *)
#[warnings="-register-all"]
Inductive json :=
  | JNull
  | JBool (b : bool)
  | JInt (z : Z)
  | JFloat (f : float)
  | JStr (s : string)
  | JList (l : list json)
  | JDict (d : gmap string json).

(** [np.NaN] *)
Definition NaN : json := JFloat S754_nan.

(** [o[key]] for a str [key]: a dict raises [KeyError] for a missing key;
    nothing else can be indexed by a str. *)
Definition json_getitem (o : json) (key : string) : E json :=
  match o with
  | JDict d =>
      match d !! key with
      | Some v => inr v
      | None => inl (PKeyError key)
      end
  | _ => inl PTypeError
  end.

(** The characters of a string, each as a string. *)
Fixpoint chars (s : string) : list string :=
  match s with
  | EmptyString => []
  | String c s' => String c "" :: chars s'
  end.

(** The items a [for] loop over [o] visits: the elements of a list, the keys
    of a dict, the characters of a str; nothing else is iterable. The keys
    come in the order of the map: the one loop here fails at the first key,
    whichever it is. *)
Definition json_iter (o : json) : E (list json) :=
  match o with
  | JList l => inr l
  | JDict d => inr (JStr <$> (map_to_list d).*1)
  | JStr s => inr (JStr <$> chars s)
  | _ => inl PTypeError
  end.

(** [bool(o)] *)
Definition truthy (o : json) : bool :=
  match o with
  | JNull => false
  | JBool b => b
  | JInt z => negb (z =? 0)
  | JFloat f => match f with S754_zero _ => false | _ => true end
  | JStr s => negb (bool_decide (s = ""))
  | JList l => negb (bool_decide (l = []))
  | JDict d => negb (bool_decide (d = ∅))
  end.

(** The number of characters of [s] equal to [c]: [s.count(c)]. *)
Fixpoint count_char (c : ascii) (s : string) : Z :=
  match s with
  | EmptyString => 0
  | String c' s' => (if bool_decide (c' = c) then 1 else 0) + count_char c s'
  end.

(** [o == '$'] *)
Definition is_dollar (o : json) : bool :=
  match o with
  | JStr s => bool_decide (s = "$")
  | _ => false
  end.

(** [o.count('$')]: a str counts characters, a list counts equal elements;
    nothing else has a [count]. *)
Definition json_count_dollar (o : json) : E json :=
  match o with
  | JStr s => inr (JInt (count_char "$" s))
  | JList l => inr (JInt (Z.of_nat (length (filter (λ x, is_dollar x = true) l))))
  | _ => inl PAttributeError
  end.

(** [float(z)] for an int: the nearest float, ties to even, or
    [OverflowError]. *)
Definition int_to_float (z : Z) : E float :=
  let f := binary_normalize 53 1024 z 0 false in
  if is_finite f then inr f else inl POverflowError.

(** [int(f)] for a float: truncation towards zero. *)
Definition float_to_int (f : float) : E Z :=
  match f with
  | S754_zero _ => inr 0
  | S754_infinity _ => inl POverflowError
  | S754_nan => inl PValueError
  | S754_finite s m e =>
      let a := Z.shiftl (Z.pos m) e in
      inr (if s then - a else a)
  end.

(** ** Methods with state and exceptions *)

Inductive dres (A : Type) :=
  | DOk (a : A) (σ : state)
  | DRaise (x : pyexn) (σ : state).
Arguments DOk {A} a σ.
Arguments DRaise {A} x σ.

(** A computation on the module's timer [log]. *)
Definition D (A : Type) : Type := state → dres A.

#[export] Instance D_ret : MRet D := λ A a σ, DOk a σ.
#[export] Instance D_bind : MBind D := λ A B f m σ,
  match m σ with
  | DOk a σ' => f a σ'
  | DRaise x σ' => DRaise x σ'
  end.

Definition draise {A} (x : pyexn) : D A := λ σ, DRaise x σ.

(** A computation without effect. *)
Definition pure_E {A} (m : E A) : D A :=
  λ σ, match m with
       | inl x => DRaise x σ
       | inr a => DOk a σ
       end.

(** A method of the timer. *)
Definition timer_M {A} (m : M A) : D A :=
  λ σ, match m σ with
       | Ok a σ' => DOk a σ'
       | Raise e σ' => DRaise (PTimer e) σ'
       end.

(** [try: body] with a bare [except: handler]. *)
Definition try_except {A} (body handler : D A) : D A :=
  λ σ, match body σ with
       | DOk a σ' => DOk a σ'
       | DRaise _ σ' => handler σ'
       end.

(** [try: body] with [except KeyError: handler]. *)
Definition try_except_KeyError {A} (body handler : D A) : D A :=
  λ σ, match body σ with
       | DRaise (PKeyError _) σ' => handler σ'
       | r => r
       end.

(** The state a computation leaves behind. *)
Definition dfinal {A} (r : dres A) : state :=
  match r with
  | DOk _ σ => σ
  | DRaise _ σ => σ
  end.

(** The state [σ] with the records [new] appended to the error log. *)
Definition with_errors (new : list ErrRow) (σ : state) : state :=
  mkState (set_errors (errors (self σ) ++ new) (self σ)) (ticks σ) (stdout σ).

(** Whatever its outcome, [m] leaves the timer as it was but for records
    appended to the error log: at most [n] of them, each with [data_id] in
    the DataID column. *)
Definition appends_at_most {A} (data_id : value) (n : nat) (m : D A) : Prop :=
  ∀ σ, ∃ new,
    dfinal (m σ) = with_errors new σ ∧
    (length new ≤ n)%nat ∧
    Forall (λ r, DataID r = data_id) new.

(** ** The field getters *)

Section Fields.

(** What the DataID column holds for an id that is a bool, a float, a list
    or a dict, and what [float] and [int] make of a str ([None] for
    [ValueError]). *)
Variable other_data_id : json → value.
Variable float_of_str : string → option float.
Variable int_of_str : string → option Z.

(** The DataID cell for an id. *)
Definition data_id_of (id : json) : value :=
  match id with
  | JNull => VNone
  | JInt z => VInt z
  | JStr s => VStr s
  | _ => other_data_id id
  end.

(** [log.log_err(method, data_id, info)] *)
Definition log_log_err (method : string) (data_id : json) (info : string) : D unit :=
  _ ← timer_M (log_err method (data_id_of data_id) info);
  mret tt.

(** [log.log_err(method, data_id)]: the call lacks the argument [info], so
    it raises [TypeError] once its arguments are evaluated and before the
    method runs. *)
Definition log_log_err_without_info (method : string) (data_id : json) : D unit :=
  draise PTypeError.

(** The loop of [_get_categories]. *)
Fixpoint append_aliases (categories : list json) (result : list json) : E (list json) :=
  match categories with
  | [] => inr result
  | category :: categories' =>
      alias ← json_getitem category "alias";
      append_aliases categories' (result ++ [alias])
  end.

(** [_get_categories]: [None] stands for the [return np.NaN] of the
    handler, [Some result] for the list after the loop. *)
Definition _get_categories (row : json) : D json :=
  r ← try_except
         (pure_E (categories ← json_getitem row "categories";
                  items ← json_iter categories;
                  result ← append_aliases items [];
                  mret (Some result)))
         (id ← pure_E (json_getitem row "id");
          _ ← log_log_err_without_info "_get_categories" id;
          mret None);
  match r with
  | None => mret NaN
  | Some result => if bool_decide (result = []) then mret NaN else mret (JList result)
  end.

(** [_get_transactions] *)
Definition _get_transactions (row : json) : D json :=
  transactions ← pure_E (json_getitem row "transactions");
  if negb (truthy transactions) then mret NaN else mret transactions.

(** [_get_item] *)
Definition _get_item (row : json) (fld : string) : D json :=
  try_except_KeyError
    (pure_E (json_getitem row fld))
    (id ← pure_E (json_getitem row "id");
     _ ← log_log_err "_get_item" id fld;
     mret NaN).

(** [_get_price]: after the handler the function ends without [return]. *)
Definition _get_price (row : json) : D json :=
  try_except_KeyError
    (pure_E (price ← json_getitem row "price"; json_count_dollar price))
    (id ← pure_E (json_getitem row "id");
     _ ← log_log_err "_get_price" id "price";
     mret JNull).

(** [float(o)] *)
Definition py_float (o : json) : E float :=
  match o with
  | JFloat f => inr f
  | JInt z => int_to_float z
  | JBool b => int_to_float (if b then 1 else 0)
  | JStr s =>
      match float_of_str s with
      | Some f => inr f
      | None => inl PValueError
      end
  | _ => inl PTypeError
  end.

(** [_get_coord] *)
Definition _get_coord (row : json) (coord : string) : D json :=
  try_except
    (pure_E (coordinates ← json_getitem row "coordinates";
             c ← json_getitem coordinates coord;
             f ← py_float c;
             mret (JFloat f)))
    (id ← pure_E (json_getitem row "id");
     _ ← log_log_err "_get_coord" id coord;
     mret NaN).

(** [int(o)] *)
Definition py_int (o : json) : E Z :=
  match o with
  | JInt z => inr z
  | JBool b => inr (if b then 1 else 0)
  | JFloat f => float_to_int f
  | JStr s =>
      match int_of_str s with
      | Some z => inr z
      | None => inl PValueError
      end
  | _ => inl PTypeError
  end.

(** The names of the columns of an entry. *)
Definition entry_columns : list string :=
  ["id"; "name"; "url"; "phone"; "latitude"; "longitude"; "review_count";
   "price"; "rating"; "transactions"; "categories"; "address"; "city";
   "state"; "zip_code"].

(** [row['location'][key]] *)
Definition location_item (row : json) (key : string) : D json :=
  pure_E (location ← json_getitem row "location"; json_getitem location key).

(** [_create_df_entry_from_json]: the values of the dict display are
    evaluated from first to last. *)
Definition _create_df_entry_from_json (row : json) : D json :=
  id ← pure_E (json_getitem row "id");
  name ← pure_E (json_getitem row "name");
  url ← _get_item row "url";
  phone ← _get_item row "phone";
  latitude ← _get_coord row "latitude";
  longitude ← _get_coord row "longitude";
  review_count ← pure_E (c ← json_getitem row "review_count";
                         z ← py_int c;
                         mret (JInt z));
  price ← _get_price row;
  rating ← pure_E (r ← json_getitem row "rating";
                   f ← py_float r;
                   mret (JFloat f));
  transactions ← _get_transactions row;
  categories ← _get_categories row;
  address ← location_item row "address1";
  city ← location_item row "city";
  state ← location_item row "state";
  zip_code ← location_item row "zip_code";
  mret (JDict (list_to_map
    [("id", id); ("name", name); ("url", url); ("phone", phone);
     ("latitude", latitude); ("longitude", longitude);
     ("review_count", review_count); ("price", price); ("rating", rating);
     ("transactions", transactions); ("categories", categories);
     ("address", address); ("city", city); ("state", state);
     ("zip_code", zip_code)])).

End Fields.

(** ** Sample rows *)

(** A business as the Yelp API gives it, cut down to the fields read here;
    it has no phone, and its longitude is an int. *)
Definition sample_fields : gmap string json :=
  list_to_map
    [("id", JStr "koito-new-york");
     ("name", JStr "Koito");
     ("url", JStr "https://www.yelp.com/biz/koito-new-york");
     ("coordinates",
      JDict (list_to_map
        [("latitude", JFloat (binary_normalize 53 1024 163 (-2) false));
         ("longitude", JInt (-74))]));
     ("review_count", JInt 12);
     ("price", JStr "$$");
     ("rating", JFloat (binary_normalize 53 1024 9 (-1) false));
     ("transactions", JList []);
     ("categories",
      JList [JDict (list_to_map [("alias", JStr "japanese");
                                 ("title", JStr "Japanese")]);
             JDict (list_to_map [("alias", JStr "sushi");
                                 ("title", JStr "Sushi Bars")])]);
     ("location",
      JDict (list_to_map
        [("address1", JStr "310 E 93rd St");
         ("city", JStr "New York");
         ("state", JStr "NY");
         ("zip_code", JStr "10128")]))].

Definition sample_business : json := JDict sample_fields.

(** A business whose categories entry is [null]. *)
Definition sample_fields_null_categories : gmap string json :=
  list_to_map
    [("id", JStr "koito-new-york");
     ("name", JStr "Koito");
     ("categories", JNull)].

Definition sample_business_null_categories : json :=
  JDict sample_fields_null_categories.
(** ** Monad laws used throughout *)

Lemma bind_Ok {A B} (m : M A) (f : A → M B) σ a σ' :
  m σ = Ok a σ' → (m ≫= f) σ = f a σ'.
Proof. intros H. unfold mbind, M_bind. by rewrite H. Qed.

Lemma bind_Raise {A B} (m : M A) (f : A → M B) σ e σ' :
  m σ = Raise e σ' → (m ≫= f) σ = Raise e σ'.
Proof. intros H. unfold mbind, M_bind. by rewrite H. Qed.

Lemma events_getitem_Some i e σ :
  _events (self σ) !! i = Some e → events_getitem i σ = Ok e σ.
Proof. intros H. unfold events_getitem, mbind, M_bind, get_self. by rewrite H. Qed.

Lemma events_getitem_None i σ :
  _events (self σ) !! i = None → events_getitem i σ = Raise (KeyError i) σ.
Proof. intros H. unfold events_getitem, mbind, M_bind, get_self. by rewrite H. Qed.

(** Unfolds the primitive effects, leaving a [match] on results to compute. *)
Ltac munfold :=
  unfold Event_init, Event_end, events_setitem, time_time, print, put_self,
    get_self, __event_count, raise, mbind, mret, M_bind, M_ret.

(** ** Ranges *)

Lemma range_down_S (k : nat) :
  range (Z.of_nat (S k)) 0 (-1) = Z.of_nat (S k) :: range (Z.of_nat k) 0 (-1).
Proof.
  unfold range.
  replace (0 <? -1) with false by reflexivity.
  replace (Z.to_nat ((Z.of_nat (S k) - 0 - -1 - 1) / - -1)) with (S k)
    by (rewrite Z.div_1_r; lia).
  replace (Z.to_nat ((Z.of_nat k - 0 - -1 - 1) / - -1)) with k
    by (rewrite Z.div_1_r; lia).
  cbn [seq fmap list_fmap]. f_equal; try lia.
  rewrite <- fmap_S_seq, <- list_fmap_compose.
  apply list_fmap_ext. intros ? j ?. simpl. lia.
Qed.

Lemma range_up (k : nat) : range 1 (Z.of_nat k + 1) 1 = seqZ 1 (Z.of_nat k).
Proof.
  unfold range, seqZ.
  replace (0 <? 1) with true by reflexivity.
  replace (Z.to_nat ((Z.of_nat k + 1 - 1 + 1 - 1) / 1)) with k
    by (rewrite Z.div_1_r; lia).
  rewrite Nat2Z.id. apply list_fmap_ext. intros ? j ?. lia.
Qed.

(** ** The descending scan *)

Section Methods.

Variable clock : nat → float.
Variable to_string : DataFrame → string.

Lemma prior_open_scan_spec (k : nat) (σ : state) :
  let ev := _events (self σ) in
  (∀ i, 1 ≤ i ≤ Z.of_nat k → ∃ e, ev !! i = Some e ∧ uid e = i) →
  ∃ r, prior_open_scan (range (Z.of_nat k) 0 (-1)) σ = Ok r σ ∧ scan_result ev k r.
Proof.
  intros ev. induction k as [|k IH]; intros Hdom.
  - exists None. split; [reflexivity|]. intros i e Hi. lia.
  - rewrite range_down_S. cbn [prior_open_scan].
    destruct (Hdom (Z.of_nat (S k))) as (e & He & Hu); [lia|].
    rewrite (bind_Ok _ _ _ _ _ (events_getitem_Some _ _ _ He)).
    destruct (is_open e) eqn:Hopen.
    + rewrite (bind_Ok _ _ _ _ _ (events_getitem_Some _ _ _ He)).
      exists (Some (Z.of_nat (S k))). split; [by rewrite Hu|].
      split; [lia|]. split; [by exists e|]. intros j e' Hj _ _. lia.
    + destruct IH as (r & Hr & Hs); [intros i Hi; apply Hdom; lia|].
      exists r. split; [exact Hr|].
      destruct r as [p|]; simpl in *.
      * destruct Hs as (Hp & Hex & Hmax). split; [lia|]. split; [exact Hex|].
        intros j e' Hj Hj' Ho.
        destruct (decide (j = Z.of_nat (S k))) as [->|Hne].
        { rewrite He in Hj'. congruence. }
        apply (Hmax j e'); [lia|done..].
      * intros i e' Hi Hi'.
        destruct (decide (i = Z.of_nat (S k))) as [->|Hne].
        { rewrite He in Hi'. congruence. }
        apply (Hs i e'); [lia|done].
Qed.

Lemma registry_ok_lookup ev i :
  registry_ok ev → 1 ≤ i ≤ Z.of_nat (size ev) → ∃ e, ev !! i = Some e ∧ uid e = i.
Proof.
  intros [Hk Hu] Hi. destruct (proj2 (Hk i) Hi) as [e He]. exists e. eauto.
Qed.

Lemma registry_ok_range ev i e :
  registry_ok ev → ev !! i = Some e → 1 ≤ i ≤ Z.of_nat (size ev).
Proof. intros [Hk _] He. apply Hk. by exists e. Qed.

(** On a well-shaped registry the scan returns, leaves the state alone and
    finds the nearest open event. *)
Lemma prior_open_event_id_spec (σ : state) :
  registry_ok (_events (self σ)) →
  ∃ r, __prior_open_event_id σ = Ok r σ ∧ nearest_open (_events (self σ)) r.
Proof.
  intros Hok. unfold __prior_open_event_id.
  rewrite (bind_Ok _ _ σ (Z.of_nat (size (_events (self σ)))) σ) by reflexivity.
  destruct (Z.of_nat (size (_events (self σ))) =? 0) eqn:Hz.
  - exists None. split; [reflexivity|]. intros i e He.
    apply (registry_ok_range _ _ _ Hok) in He. apply Z.eqb_eq in Hz. lia.
  - rewrite (bind_Ok _ _ σ (Z.of_nat (size (_events (self σ)))) σ) by reflexivity.
    destruct (prior_open_scan_spec (size (_events (self σ))) σ) as (r & Hr & Hs).
    { intros i Hi. by apply registry_ok_lookup. }
    exists r. split; [exact Hr|].
    destruct r as [p|]; simpl in *.
    + destruct Hs as (_ & Hex & Hmax). split; [exact Hex|].
      intros j e He Ho. apply (Hmax j e); [by eapply registry_ok_range|done..].
    + intros i e He. apply (Hs i e); [by eapply registry_ok_range|done].
Qed.

(** The nearest open event is unique. *)
Lemma nearest_open_unique ev r r' :
  nearest_open ev r → nearest_open ev r' → r = r'.
Proof.
  destruct r as [p|], r' as [p'|]; simpl; try done.
  - intros [(e & He & Ho) Hmax] [(e' & He' & Ho') Hmax'].
    f_equal. apply Z.le_antisymm; eauto.
  - intros [(e & He & Ho) _] Hnone. rewrite (Hnone _ _ He) in Ho. done.
  - intros Hnone [(e & He & Ho) _]. rewrite (Hnone _ _ He) in Ho. done.
Qed.


(** ** [start] and [end] on a well-shaped registry *)

Lemma start_spec (name : string) (σ : state) :
  let t := self σ in
  let ev := _events t in
  let new_id := Z.of_nat (size ev) + 1 in
  registry_ok ev →
  ∃ r, nearest_open ev r ∧
    start clock name σ =
      Ok VNone
        (mkState
           (set_events
              (<[new_id := mkEvent name new_id (child_hrchy ev r) r
                             (clock (ticks σ)) None]> ev) t)
           (S (ticks σ))
           (stdout σ ++ notice (_ud_start t)
              (_start_ud_pre_txt t +:+ name +:+ _start_ud_post_txt t))).
Proof.
  intros t ev new_id Hok.
  destruct (prior_open_event_id_spec σ Hok) as (r & Hr & Hn).
  exists r. split; [exact Hn|].
  unfold start.
  rewrite (bind_Ok _ _ σ (Z.of_nat (size ev)) σ) by reflexivity.
  rewrite (bind_Ok _ _ _ _ _ Hr).
  rewrite (bind_Ok _ _ σ (child_hrchy ev r) σ).
  2:{ destruct r as [p|]; [|reflexivity].
      destruct Hn as [(e & He & _) _].
      rewrite (bind_Ok _ _ _ _ _ (events_getitem_Some _ _ _ He)).
      unfold child_hrchy, ev, t. simpl. by rewrite He. }
  munfold. cbn. fold t ev.
  destruct (_ud_start t); unfold notice; rewrite ?app_nil_r; reflexivity.
Qed.

Lemma end_spec_none (σ : state) :
  registry_ok (_events (self σ)) →
  nearest_open (_events (self σ)) None →
  end_ clock σ =
    Raise (Exception
      "ProgramTimer.end() method called when there are no prior open events.") σ.
Proof.
  intros Hok Hn.
  destruct (prior_open_event_id_spec σ Hok) as (r & Hr & Hn').
  rewrite (nearest_open_unique _ _ _ Hn' Hn) in Hr.
  unfold end_. by rewrite (bind_Ok _ _ _ _ _ Hr).
Qed.

Lemma end_spec_some (σ : state) (p : Z) (e : Event) :
  let t := self σ in
  let ev := _events t in
  registry_ok ev →
  nearest_open ev (Some p) →
  ev !! p = Some e →
  end_ clock σ =
    Ok VNone
      (mkState
         (set_events (<[p := closed_at (clock (ticks σ)) e]> ev) t)
         (S (ticks σ))
         (stdout σ ++ notice (_ud_end t)
            (_end_ud_pre_txt t +:+ name e +:+ _end_ud_post_txt t))).
Proof.
  intros t ev Hok Hn He.
  destruct (prior_open_event_id_spec σ Hok) as (r & Hr & Hn').
  rewrite (nearest_open_unique _ _ _ Hn' Hn) in Hr.
  unfold end_. rewrite (bind_Ok _ _ _ _ _ Hr). cbv beta iota.
  rewrite (bind_Ok _ _ _ _ _ (events_getitem_Some _ _ _ He)).
  munfold. cbn. fold t ev.
  destruct (_ud_end t); cbn.
  - erewrite events_getitem_Some by (cbn; apply lookup_insert_eq). reflexivity.
  - by rewrite app_nil_r.
Qed.


(** ** [print_summary] and [log_err] *)

Lemma string_app_assoc (a b c : string) : (a +:+ b) +:+ c = a +:+ b +:+ c.
Proof.
  induction a as [|x a IH]; [done|].
  change (String x ((a +:+ b) +:+ c) = String x (a +:+ b +:+ c)). by f_equal.
Qed.

Lemma string_app_nil_r (a : string) : a +:+ "" = a.
Proof.
  induction a as [|x a IH]; [done|].
  change (String x (a +:+ "") = String x a). by f_equal.
Qed.

Lemma seconds_closed (e : Event) (t : float) (σ : state) :
  __end e = Some t → seconds clock e σ = Ok (float_sub t (__start e)) σ.
Proof. intros H. unfold seconds. by rewrite H. Qed.

Lemma seconds_open (e : Event) (σ : state) :
  __end e = None →
  seconds clock e σ =
    Ok (float_sub (clock (ticks σ)) (__start e))
       (mkState (self σ) (S (ticks σ)) (stdout σ)).
Proof. intros H. unfold seconds. by rewrite H. Qed.

Lemma create_event_summary_closed (e : Event) (t : float) (σ : state) :
  __end e = Some t →
  __create_event_summary clock e σ =
    Ok (summary_line e (float_sub t (__start e))) σ.
Proof.
  intros H. unfold __create_event_summary.
  rewrite (bind_Ok _ _ _ _ _ (seconds_closed e t σ H)).
  unfold summary_line. by rewrite string_app_assoc.
Qed.

Lemma create_event_summary_open (e : Event) (σ : state) :
  __end e = None →
  __create_event_summary clock e σ =
    Ok (summary_line e (float_sub (clock (ticks σ)) (__start e)))
       (mkState (self σ) (S (ticks σ)) (stdout σ)).
Proof.
  intros H. unfold __create_event_summary.
  rewrite (bind_Ok _ _ _ _ _ (seconds_open e σ H)).
  unfold summary_line. by rewrite string_app_assoc.
Qed.

Lemma concat_cons (x : string) (xs : list string) :
  String.concat "" (x :: xs) = x +:+ String.concat "" xs.
Proof.
  destruct xs as [|y ys]; [by rewrite string_app_nil_r|reflexivity].
Qed.

Lemma summary_lines_cons e es secs ss :
  summary_lines (e :: es) (secs :: ss) =
    (summary_line e secs +:+ nl) +:+ summary_lines es ss.
Proof. unfold summary_lines. cbn [zip_with]. apply concat_cons. Qed.

Lemma open_count_closed e es t :
  __end e = Some t → open_count (e :: es) = open_count es.
Proof.
  intros H. unfold open_count. rewrite filter_cons_False; [done|].
  unfold is_open. by rewrite H.
Qed.

Lemma open_count_open e es :
  __end e = None → open_count (e :: es) = S (open_count es).
Proof.
  intros H. unfold open_count. rewrite filter_cons_True; [done|].
  unfold is_open. by rewrite H.
Qed.

Lemma summary_loop_spec (ev : gmap Z Event) (ids : list Z) (es : list Event) :
  Forall2 (λ i e, ev !! i = Some e) ids es →
  ∀ (acc : string) (σ : state),
    _events (self σ) = ev →
    summary_loop clock ids acc σ =
      Ok (acc +:+ summary_lines es (elapsed clock (ticks σ) es))
         (mkState (self σ) (ticks σ + open_count es)%nat (stdout σ)).
Proof.
  induction 1 as [|i e ids es Hi Hrest IH]; intros acc σ Hev.
  - cbn. rewrite string_app_nil_r, Nat.add_0_r. by destruct σ.
  - cbn [summary_loop].
    rewrite (bind_Ok _ _ _ _ _ (events_getitem_Some i e σ ltac:(by rewrite Hev))).
    destruct (__end e) as [t|] eqn:Hend.
    + rewrite (bind_Ok _ _ _ _ _ (create_event_summary_closed e t σ Hend)).
      cbv beta. rewrite (IH _ σ Hev). cbn [elapsed]. rewrite Hend.
      rewrite summary_lines_cons, (open_count_closed _ _ _ Hend).
      by rewrite !string_app_assoc.
    + rewrite (bind_Ok _ _ _ _ _ (create_event_summary_open e σ Hend)).
      cbv beta. rewrite IH by done. cbn [elapsed self ticks stdout]. rewrite Hend.
      rewrite summary_lines_cons, (open_count_open _ _ Hend).
      rewrite !string_app_assoc. do 2 f_equal. lia.
Qed.

(** The events of a well-shaped registry, listed by ascending key. *)
Lemma spans_lookup (ev : gmap Z Event) :
  registry_ok ev →
  Forall2 (λ i e, ev !! i = Some e) (seqZ 1 (Z.of_nat (size ev))) (spans ev).
Proof.
  intros Hok. unfold spans.
  assert (∀ i, i ∈ seqZ 1 (Z.of_nat (size ev)) → is_Some (ev !! i)) as H.
  { intros i Hi. apply elem_of_seqZ in Hi. apply Hok. lia. }
  induction (seqZ 1 (Z.of_nat (size ev))) as [|i ids IH]; [constructor|].
  destruct (H i) as [e He]; [left|]. cbn. rewrite He. cbn.
  constructor; [done|]. apply IH. intros j Hj. apply H. by right.
Qed.

Lemma print_summary_spec (header : option string) (σ : state) :
  let t := self σ in
  let es := spans (_events t) in
  registry_ok (_events t) →
  print_summary clock to_string header σ =
    Ok VNone
      (mkState (set_events ∅ t) (ticks σ + open_count es)%nat
         (stdout σ ++
            [report_text to_string (header_of t header)
               (summary_lines es (elapsed clock (ticks σ) es)) (errors t)])).
Proof.
  intros t es Hok. unfold print_summary.
  rewrite (bind_Ok _ _ σ t σ) by reflexivity.
  rewrite (bind_Ok _ _ σ (Z.of_nat (size (_events t))) σ) by reflexivity.
  rewrite range_up.
  rewrite (bind_Ok _ _ _ _ _
    (summary_loop_spec _ _ _ (spans_lookup _ Hok) _ σ eq_refl)).
  munfold. cbn. fold t es. do 3 f_equal.
  unfold report_text, exceptions_section, errors_were_logged, header_of.
  destruct (errors t) as [|row rows]; cbn.
  - by rewrite !string_app_assoc.
  - by rewrite !string_app_assoc.
Qed.

Lemma log_err_spec (method : string) (data_id : value) (info : string) (σ : state) :
  log_err method data_id info σ =
    Ok VNone
      (mkState (set_errors (errors (self σ) ++ [mkErrRow method data_id info]) (self σ))
         (ticks σ) (stdout σ)).
Proof. reflexivity. Qed.


(** ** Every call keeps the registry well-shaped *)

Lemma registry_ok_empty : registry_ok ∅.
Proof.
  split.
  - intros i. rewrite lookup_empty, map_size_empty. split; [by intros [? ?]|lia].
  - intros i e. by rewrite lookup_empty.
Qed.

Lemma registry_ok_fresh (ev : gmap Z Event) :
  registry_ok ev → ev !! (Z.of_nat (size ev) + 1) = None.
Proof.
  intros [Hk _]. destruct (ev !! _) as [e|] eqn:He; [|done].
  assert (is_Some (ev !! (Z.of_nat (size ev) + 1))) as H by eauto.
  apply Hk in H. lia.
Qed.

Lemma registry_ok_insert_new (ev : gmap Z Event) (e : Event) :
  registry_ok ev → uid e = Z.of_nat (size ev) + 1 →
  registry_ok (<[Z.of_nat (size ev) + 1 := e]> ev).
Proof.
  intros Hok Hu. pose proof (registry_ok_fresh _ Hok) as Hf.
  destruct Hok as [Hk Huid].
  split.
  - intros i. rewrite map_size_insert_None by done. rewrite lookup_insert.
    case_decide as Hi.
    + split; [lia|by eauto].
    + rewrite Hk. lia.
  - intros i e'. rewrite lookup_insert. case_decide as Hi.
    + intros [= <-]. by rewrite Hu.
    + apply Huid.
Qed.

Lemma registry_ok_insert_old (ev : gmap Z Event) (p : Z) (e e' : Event) :
  registry_ok ev → ev !! p = Some e → uid e' = p →
  registry_ok (<[p := e']> ev).
Proof.
  intros [Hk Huid] He Hu. split.
  - intros i. rewrite map_size_insert_Some by eauto. rewrite lookup_insert.
    case_decide as Hi.
    + subst i. split; [|by eauto]. intros _. apply Hk. by eauto.
    + apply Hk.
  - intros i e''. rewrite lookup_insert. case_decide as Hi.
    + intros [= <-]. by rewrite Hu.
    + apply Huid.
Qed.

(** The outcome of [end]: an ordering failure that leaves the state alone
    when nothing is open, and otherwise the nearest open event closed. *)
Lemma end_cases (σ : state) :
  let t := self σ in
  let ev := _events t in
  registry_ok ev →
  (nearest_open ev None ∧
   end_ clock σ =
     Raise (Exception
       "ProgramTimer.end() method called when there are no prior open events.") σ) ∨
  (∃ p e, nearest_open ev (Some p) ∧ ev !! p = Some e ∧ is_open e = true ∧
     end_ clock σ =
       Ok VNone
         (mkState (set_events (<[p := closed_at (clock (ticks σ)) e]> ev) t)
            (S (ticks σ))
            (stdout σ ++ notice (_ud_end t)
               (_end_ud_pre_txt t +:+ name e +:+ _end_ud_post_txt t)))).
Proof.
  intros t ev Hok.
  destruct (prior_open_event_id_spec σ Hok) as ([p|] & _ & Hn).
  - right. pose proof Hn as [(e & He & Ho) _]. exists p, e.
    split; [done|]. split; [done|]. split; [done|]. by apply end_spec_some.
  - left. split; [done|]. by apply end_spec_none.
Qed.

Lemma exec_registry_ok (o : op) (σ : state) :
  registry_ok (_events (self σ)) →
  registry_ok (_events (self (final (exec clock to_string o σ)))).
Proof.
  intros Hok. destruct o as [name| |header|method data_id info]; cbn [exec].
  - destruct (start_spec name σ Hok) as (r & _ & ->).
    cbn [final self _events set_events].
    apply registry_ok_insert_new; [exact Hok|reflexivity].
  - destruct (end_cases σ Hok) as [[_ ->]|(p & e & _ & He & _ & ->)];
      cbn [final self _events set_events].
    + done.
    + eapply registry_ok_insert_old; [exact Hok|exact He|].
      cbn. by apply Hok.
  - rewrite (print_summary_spec header σ Hok).
    cbn [final self _events set_events]. apply registry_ok_empty.
  - rewrite log_err_spec. done.
Qed.

Lemma run_registry_ok (ops : list op) (σ : state) :
  registry_ok (_events (self σ)) →
  registry_ok (_events (self (final (run clock to_string ops σ)))).
Proof.
  revert σ. induction ops as [|o ops IH]; intros σ Hok; [done|].
  cbn [run]. pose proof (exec_registry_ok o σ Hok) as Hok'.
  unfold mbind, M_bind.
  destruct (exec clock to_string o σ) as [v σ'|x σ']; cbn in *; [|done].
  by apply IH.
Qed.


(** ** Results on [start] and [end] *)

(** C2. On a well-shaped registry, [end] fails exactly when no event is
    open; the failure is the ordering exception and leaves the state as it
    was. When some event is open, [end] returns and closes the open event
    with the largest key, at the instant read from the clock. *)
Theorem end_fails_iff_nothing_open (σ : state) :
  let t := self σ in
  let ev := _events t in
  registry_ok ev →
  (∀ x σ', end_ clock σ = Raise x σ' → x = no_prior_open_events ∧ σ' = σ) ∧
  ((∃ x σ', end_ clock σ = Raise x σ') ↔
   (∀ i e, ev !! i = Some e → is_open e = false)) ∧
  (∀ p e,
     ev !! p = Some e → is_open e = true →
     (∀ j e', ev !! j = Some e' → is_open e' = true → j ≤ p) →
     end_ clock σ =
       Ok VNone
         (mkState (set_events (<[p := closed_at (clock (ticks σ)) e]> ev) t)
            (S (ticks σ))
            (stdout σ ++ notice (_ud_end t)
               (_end_ud_pre_txt t +:+ name e +:+ _end_ud_post_txt t)))).
Proof.
  intros t ev Hok.
  destruct (end_cases σ Hok) as [[Hn Hr]|(p & e & Hn & He & Ho & Hr)];
    fold t ev in Hn, Hr.
  - split; [|split].
    + intros x σ'. rewrite Hr. by intros [= <- <-].
    + split; [intros _; exact Hn|]. intros _. eauto.
    + intros p e He Ho _. by rewrite (Hn p e He) in Ho.
  - split; [|split].
    + intros x σ'. by rewrite Hr.
    + split.
      * intros (x & σ' & Hx). by rewrite Hr in Hx.
      * intros Hnone. by rewrite (Hnone p e He) in Ho.
    + intros p' e' He' Ho' Hmax.
      assert (nearest_open ev (Some p')) as Hn' by (split; eauto).
      pose proof (nearest_open_unique _ _ _ Hn Hn') as [= <-].
      fold t ev in He. rewrite He in He'. by injection He' as <-.
Qed.

Lemma start_assigns_size (name : string) (σ : state) :
  registry_ok (_events (self σ)) →
  ∃ σ',
    start clock name σ = Ok VNone σ' ∧
    size (_events (self σ')) = S (size (_events (self σ))).
Proof.
  intros Hok. destruct (start_spec name σ Hok) as (r & _ & Hs).
  eexists. split; [exact Hs|]. cbn [self _events set_events].
  apply map_size_insert_None. by apply registry_ok_fresh.
Qed.

(** C3, amended. On a well-shaped registry [start] returns, with no value
    ([None]); it stores under the key [size + 1] a new open event with that
    uid and the given name, and leaves every other key as it was. *)
Theorem start_assigns_next_id (label : string) (σ : state) :
  let ev := _events (self σ) in
  let new_id := Z.of_nat (size ev) + 1 in
  registry_ok ev →
  ∃ σ' e,
    start clock label σ = Ok VNone σ' ∧
    _events (self σ') = <[new_id := e]> ev ∧
    ev !! new_id = None ∧
    uid e = new_id ∧ name e = label ∧ is_open e = true ∧
    size (_events (self σ')) = S (size ev).
Proof.
  intros ev new_id Hok.
  destruct (start_spec label σ Hok) as (r & _ & Hs).
  eexists _, _. split; [exact Hs|].
  cbn [self _events set_events uid name].
  pose proof (registry_ok_fresh _ Hok) as Hf.
  repeat split; try done.
  by apply map_size_insert_None.
Qed.

(** C5. When the most recently created event is closed and an earlier one
    is open, a further [end] does not fail: it closes the open event with
    the largest key, which is an earlier event, and leaves the most recent
    one as it was. *)
Theorem duplicate_end_closes_earlier_span (σ : state) (last q : Event) (j : Z) :
  let t := self σ in
  let ev := _events t in
  let n := Z.of_nat (size ev) in
  registry_ok ev →
  ev !! n = Some last → is_open last = false →
  ev !! j = Some q → is_open q = true →
  ∃ p e σ',
    end_ clock σ = Ok VNone σ' ∧
    p < n ∧ ev !! p = Some e ∧ is_open e = true ∧
    (∀ i e', ev !! i = Some e' → is_open e' = true → i ≤ p) ∧
    _events (self σ') = <[p := closed_at (clock (ticks σ)) e]> ev ∧
    _events (self σ') !! n = Some last.
Proof.
  intros t ev n Hok Hlast Hclosed Hq Hopen.
  destruct (end_cases σ Hok) as [[Hn _]|(p & e & Hn & He & Ho & Hr)];
    fold t ev in Hn.
  { by rewrite (Hn j q Hq) in Hopen. }
  fold t ev in He, Hr.
  assert (p ≠ n) as Hne by (intros ->; congruence).
  pose proof (registry_ok_range _ _ _ Hok He) as Hp. fold n in Hp.
  exists p, e. eexists. split; [exact Hr|].
  cbn [self _events set_events].
  split; [lia|]. split; [done|]. split; [done|].
  split; [apply Hn|]. split; [done|].
  by rewrite lookup_insert_ne.
Qed.


(** ** The error table is only ever appended to *)

(** On any state, well-shaped or not, the scan leaves the state alone. *)
Lemma prior_open_scan_final (ids : list Z) (σ : state) :
  final (prior_open_scan ids σ) = σ.
Proof.
  induction ids as [|i ids IH]; [done|].
  cbn [prior_open_scan].
  destruct (_events (self σ) !! i) as [e|] eqn:He.
  - rewrite (bind_Ok _ _ _ _ _ (events_getitem_Some _ _ _ He)).
    destruct (is_open e); [|exact IH].
    by rewrite (bind_Ok _ _ _ _ _ (events_getitem_Some _ _ _ He)).
  - by rewrite (bind_Raise _ _ _ _ _ (events_getitem_None _ _ He)).
Qed.

Lemma prior_open_event_id_final (σ : state) :
  final (__prior_open_event_id σ) = σ.
Proof.
  unfold __prior_open_event_id.
  rewrite (bind_Ok _ _ σ (Z.of_nat (size (_events (self σ)))) σ) by reflexivity.
  destruct (_ =? 0); [done|].
  rewrite (bind_Ok _ _ σ (Z.of_nat (size (_events (self σ)))) σ) by reflexivity.
  apply prior_open_scan_final.
Qed.

(** The scan either returns or raises, in the state it started from. *)
Lemma prior_open_event_id_pure (σ : state) :
  (∃ r, __prior_open_event_id σ = Ok r σ) ∨
  (∃ x, __prior_open_event_id σ = Raise x σ).
Proof.
  pose proof (prior_open_event_id_final σ) as H.
  destruct (__prior_open_event_id σ) as [r σ'|x σ']; cbn in H; subst σ'; eauto.
Qed.

Lemma start_errors (name : string) (σ : state) :
  errors (self (final (start clock name σ))) = errors (self σ).
Proof.
  unfold start.
  rewrite (bind_Ok _ _ σ (Z.of_nat (size (_events (self σ)))) σ) by reflexivity.
  destruct (prior_open_event_id_pure σ) as [[r Hr]|[x Hr]].
  2:{ by rewrite (bind_Raise _ _ _ _ _ Hr). }
  rewrite (bind_Ok _ _ _ _ _ Hr).
  assert (∀ h, errors (self (final (
    (Event_init clock name (Z.of_nat (size (_events (self σ))) + 1) h r ≫= λ event,
     events_setitem (Z.of_nat (size (_events (self σ))) + 1) event ≫= λ _,
     get_self ≫= λ t,
     (if _ud_start t
      then print (_start_ud_pre_txt t +:+ name +:+ _start_ud_post_txt t)
      else mret ()) ≫= λ _, mret VNone) σ))) = errors (self σ)) as Hrest.
  { intros h. munfold. cbn. by destruct (_ud_start (self σ)). }
  destruct r as [p|].
  - destruct (_events (self σ) !! p) as [e|] eqn:He.
    + rewrite (bind_Ok _ _ σ (hrchy e + 1) σ); [apply Hrest|].
      by rewrite (bind_Ok _ _ _ _ _ (events_getitem_Some _ _ _ He)).
    + rewrite (bind_Raise _ _ σ (KeyError p) σ); [done|].
      by rewrite (bind_Raise _ _ _ _ _ (events_getitem_None _ _ He)).
  - rewrite (bind_Ok _ _ σ 1 σ) by reflexivity. apply Hrest.
Qed.

Lemma end_errors (σ : state) :
  errors (self (final (end_ clock σ))) = errors (self σ).
Proof.
  unfold end_.
  destruct (prior_open_event_id_pure σ) as [[r Hr]|[x Hr]].
  2:{ by rewrite (bind_Raise _ _ _ _ _ Hr). }
  rewrite (bind_Ok _ _ _ _ _ Hr).
  destruct r as [p|]; [|done].
  destruct (_events (self σ) !! p) as [e|] eqn:He.
  2:{ by rewrite (bind_Raise _ _ _ _ _ (events_getitem_None _ _ He)). }
  rewrite (bind_Ok _ _ _ _ _ (events_getitem_Some _ _ _ He)).
  munfold. cbn. destruct (_ud_end (self σ)); [|done].
  erewrite events_getitem_Some by (cbn; apply lookup_insert_eq). done.
Qed.

(** The loop of [print_summary] only reads the clock. *)
Lemma summary_loop_self (ids : list Z) (acc : string) (σ : state) :
  self (final (summary_loop clock ids acc σ)) = self σ.
Proof.
  revert acc σ. induction ids as [|i ids IH]; intros acc σ; [done|].
  cbn [summary_loop].
  destruct (_events (self σ) !! i) as [e|] eqn:He.
  2:{ by rewrite (bind_Raise _ _ _ _ _ (events_getitem_None _ _ He)). }
  rewrite (bind_Ok _ _ _ _ _ (events_getitem_Some _ _ _ He)).
  destruct (__end e) as [t|] eqn:Hend.
  - rewrite (bind_Ok _ _ _ _ _ (create_event_summary_closed e t σ Hend)).
    apply IH.
  - rewrite (bind_Ok _ _ _ _ _ (create_event_summary_open e σ Hend)).
    cbv beta. by rewrite IH.
Qed.

Lemma print_summary_errors (header : option string) (σ : state) :
  errors (self (final (print_summary clock to_string header σ))) =
    errors (self σ).
Proof.
  unfold print_summary.
  rewrite (bind_Ok _ _ σ (self σ) σ) by reflexivity.
  rewrite (bind_Ok _ _ σ (Z.of_nat (size (_events (self σ)))) σ) by reflexivity.
  match goal with
  | |- context [summary_loop clock ?ids ?acc] =>
      pose proof (summary_loop_self ids acc σ) as Hs;
      destruct (summary_loop clock ids acc σ) as [text σ'|x σ'] eqn:Hl
  end; cbn in Hs.
  - rewrite (bind_Ok _ _ _ _ _ Hl). munfold. cbn. by rewrite Hs.
  - rewrite (bind_Raise _ _ _ _ _ Hl). cbn. by rewrite Hs.
Qed.

Lemma exec_errors (o : op) (σ : state) :
  errors (self (final (exec clock to_string o σ))) =
    errors (self σ) ++ logged [o].
Proof.
  destruct o as [name| |header|method data_id info]; cbn [exec logged omap];
    rewrite ?app_nil_r.
  - apply start_errors.
  - apply end_errors.
  - apply print_summary_errors.
  - reflexivity.
Qed.


Lemma logged_cons (o : op) (ops : list op) :
  logged (o :: ops) = logged [o] ++ logged ops.
Proof. by destruct o. Qed.

Lemma run_errors (ops : list op) (σ : state) :
  ∃ rows,
    errors (self (final (run clock to_string ops σ))) = errors (self σ) ++ rows ∧
    (∀ σ', run clock to_string ops σ = Ok () σ' → rows = logged ops).
Proof.
  revert σ. induction ops as [|o ops IH]; intros σ.
  - exists []. by rewrite app_nil_r.
  - cbn [run]. pose proof (exec_errors o σ) as Ho.
    destruct (exec clock to_string o σ) as [v σ1|x σ1] eqn:Hx; cbn in Ho.
    + rewrite (bind_Ok _ _ _ _ _ Hx). destruct (IH σ1) as (rows & Hr & Hl).
      exists (logged [o] ++ rows). rewrite Hr, Ho, app_assoc. split; [done|].
      intros σ' Hrun. by rewrite (logged_cons o ops), (Hl σ' Hrun).
    + rewrite (bind_Raise _ _ _ _ _ Hx). exists (logged [o]). by split.
Qed.

(** C9. [log_err] returns on every state and for all arguments; it adds
    exactly one row, holding the three arguments, at the end of the error
    table and touches nothing else. After any sequence of calls, the table
    is the table before followed by new rows: no earlier row is changed or
    removed, by a report or by any other call; when the sequence ran to its
    end, the new rows are those it recorded, in call order. *)
Theorem log_err_appends_one_record
    (method : string) (data_id : value) (info : string)
    (ops : list op) (σ : state) :
  (∃ σ',
     log_err method data_id info σ = Ok VNone σ' ∧
     errors (self σ') = errors (self σ) ++ [mkErrRow method data_id info] ∧
     _events (self σ') = _events (self σ) ∧
     ticks σ' = ticks σ ∧ stdout σ' = stdout σ) ∧
  (∃ rows,
     errors (self (final (run clock to_string ops σ))) = errors (self σ) ++ rows ∧
     (∀ σ', run clock to_string ops σ = Ok () σ' → rows = logged ops)).
Proof.
  split.
  - eexists. split; [apply log_err_spec|]. done.
  - apply run_errors.
Qed.

(** ** The shape of the registry along a run *)

Lemma registry_ok_dom (ev : gmap Z Event) :
  registry_ok ev → dom ev = list_to_set (seqZ 1 (Z.of_nat (size ev))).
Proof.
  intros [Hk _]. apply set_eq. intros i.
  rewrite elem_of_dom, elem_of_list_to_set, elem_of_seqZ, Hk. lia.
Qed.

Lemma run_created (ops : list op) (σ σ' : state) :
  registry_ok (_events (self σ)) →
  run clock to_string ops σ = Ok () σ' →
  size (_events (self σ')) = created (size (_events (self σ))) ops.
Proof.
  revert σ. induction ops as [|o ops IH]; intros σ Hok Hrun.
  - by injection Hrun as <-.
  - cbn [run] in Hrun. pose proof (exec_registry_ok o σ Hok) as Hok1.
    destruct (exec clock to_string o σ) as [v σ1|x σ1] eqn:Hx.
    2:{ by rewrite (bind_Raise _ _ _ _ _ Hx) in Hrun. }
    rewrite (bind_Ok _ _ _ _ _ Hx) in Hrun. cbn in Hok1.
    rewrite (IH σ1 Hok1 Hrun). clear IH Hrun.
    destruct o as [name| |header|method data_id info]; cbn [exec created] in *.
    + destruct (start_assigns_size name σ Hok) as (σ2 & H2 & Hsz).
      rewrite Hx in H2. simplify_eq. by rewrite Hsz.
    + destruct (end_cases σ Hok) as [[_ Hr]|(p & e & _ & He & _ & Hr)];
        rewrite Hx in Hr; [done|].
      simplify_eq. cbn [self _events set_events].
      rewrite map_size_insert_Some; eauto.
    + rewrite (print_summary_spec header σ Hok) in Hx. by simplify_eq.
    + rewrite log_err_spec in Hx. by simplify_eq.
Qed.

(** C10. After any sequence of calls on a new timer, the keys of the
    registry are exactly [1..n] for [n] its size, each key holds the event
    with that uid, and the descending scan returns without a missing-key
    failure; when the sequence ran to its end, [n] is the number of events
    created since the last report. *)
Theorem registry_keys_contiguous (ops : list op) (ud_start ud_end : bool) :
  let σ := final (run clock to_string ops (fresh ud_start ud_end)) in
  let ev := _events (self σ) in
  dom ev = list_to_set (seqZ 1 (Z.of_nat (size ev))) ∧
  (∀ i e, ev !! i = Some e → uid e = i) ∧
  (∃ r, __prior_open_event_id σ = Ok r σ) ∧
  (∀ σ', run clock to_string ops (fresh ud_start ud_end) = Ok () σ' →
         size ev = created 0 ops).
Proof.
  intros σ ev.
  assert (registry_ok ev) as Hok.
  { apply run_registry_ok. apply registry_ok_empty. }
  split; [by apply registry_ok_dom|]. split; [apply Hok|]. split.
  - destruct (prior_open_event_id_spec σ Hok) as (r & Hr & _). eauto.
  - intros σ' Hrun. unfold ev, σ. rewrite Hrun. cbn [final].
    by rewrite (run_created ops (fresh ud_start ud_end) σ' registry_ok_empty Hrun).
Qed.


(** ** Results on the report *)

(** C4. On a well-shaped registry [print_summary] returns; afterwards the
    registry holds no event, so that the next [start] stores its event under
    key 1 with uid 1, and the error table is the one from before the call:
    a second report renders that same table. *)
Theorem report_clears_spans_keeps_errors (header : option string) (σ : state) :
  registry_ok (_events (self σ)) →
  ∃ σ1,
    print_summary clock to_string header σ = Ok VNone σ1 ∧
    _events (self σ1) = ∅ ∧
    errors (self σ1) = errors (self σ) ∧
    (∀ name, ∃ σ2 e,
       start clock name σ1 = Ok VNone σ2 ∧
       _events (self σ2) = {[1 := e]} ∧ uid e = 1) ∧
    (∀ header', ∃ σ3,
       print_summary clock to_string header' σ1 = Ok VNone σ3 ∧
       stdout σ3 =
         stdout σ1 ++
         [report_text to_string (header_of (self σ1) header') ""
            (errors (self σ))]).
Proof.
  intros Hok. eexists. split; [by apply print_summary_spec|].
  cbn [self _events set_events errors].
  split; [done|]. split; [done|]. split.
  - intros name.
    match goal with |- context [start clock name ?s] => set (σ1 := s) end.
    assert (registry_ok (_events (self σ1))) as Hok1 by apply registry_ok_empty.
    destruct (start_spec name σ1 Hok1) as (r & _ & Hs).
    eexists _, _. split; [exact Hs|]. by cbn.
  - intros header'.
    match goal with |- context [print_summary _ _ header' ?s] => set (σ1 := s) end.
    assert (registry_ok (_events (self σ1))) as Hok1 by apply registry_ok_empty.
    eexists. split; [by apply print_summary_spec|]. by cbn.
Qed.

Lemma exceptions_section_empty_iff (df : DataFrame) :
  exceptions_section to_string df = "" ↔ df = [].
Proof.
  split; [|by intros ->].
  destruct df as [|row rows]; [done|]. intros H. vm_compute in H. done.
Qed.

(** C7. The text [print_summary] prints on a well-shaped registry is the
    header block, the lines of the events, the section on exceptions and the
    closing divider. That section is absent exactly when the error table is
    empty; otherwise it is a divider, the title and the whole table handed
    to the table printer. On a new timer, recording one error and reporting
    with no event started prints the header, no event line, and the section
    on exceptions for the table holding that one row with the recorded
    values. *)
Theorem exceptions_section_iff_errors (header : option string) (σ : state) :
  let t := self σ in
  let es := spans (_events t) in
  registry_ok (_events t) →
  (∃ σ',
     print_summary clock to_string header σ = Ok VNone σ' ∧
     stdout σ' =
       stdout σ ++
       [nl +:+ SECTION_DIVIDE +:+ nl +:+ header_of t header +:+ nl +:+ nl +:+
        summary_lines es (elapsed clock (ticks σ) es) +:+
        exceptions_section to_string (errors t) +:+
        nl +:+ SECTION_DIVIDE +:+ nl]) ∧
  (exceptions_section to_string (errors t) = "" ↔ errors t = []) ∧
  (errors t ≠ [] →
   exceptions_section to_string (errors t) =
     SECTION_DIVIDE +:+ nl +:+ "Exceptions" +:+ nl +:+ nl +:+
     to_string (errors t)) ∧
  (∀ ud_start ud_end, ∃ σ1 σ2,
     log_err "parse" (VStr "row42") "bad id" (fresh ud_start ud_end) =
       Ok VNone σ1 ∧
     errors (self σ1) = [mkErrRow "parse" (VStr "row42") "bad id"] ∧
     print_summary clock to_string (Some "Run") σ1 = Ok VNone σ2 ∧
     stdout σ2 =
       [nl +:+ SECTION_DIVIDE +:+ nl +:+ "Run" +:+ nl +:+ nl +:+
        SECTION_DIVIDE +:+ nl +:+ "Exceptions" +:+ nl +:+ nl +:+
        to_string [mkErrRow "parse" (VStr "row42") "bad id"] +:+
        nl +:+ SECTION_DIVIDE +:+ nl]).
Proof.
  intros t es Hok. split; [|split; [|split]].
  - eexists. split; [by apply print_summary_spec|]. done.
  - apply exceptions_section_empty_iff.
  - by destruct (errors t).
  - intros ud_start ud_end. eexists _, _.
    split; [apply log_err_spec|]. split; [done|].
    split; [apply print_summary_spec; apply registry_ok_empty|].
    reflexivity.
Qed.


(** *** Subtracting floats of ordinary size does not overflow *)

Lemma digits2_size (p : positive) : digits2_pos p = Pos.size p.
Proof. induction p; simpl; congruence. Qed.

Lemma Zdigits2_nonneg (m : Z) : 0 ≤ Zdigits2 m.
Proof. destruct m; simpl; lia. Qed.

Lemma Zdigits2_gt (m : Z) : 0 ≤ m → m < 2 ^ Zdigits2 m.
Proof.
  destruct m as [|p|p]; simpl; intros H; try lia.
  rewrite digits2_size. pose proof (Pos.size_gt p) as Hp.
  change 2 with (Z.pos 2). rewrite <- Pos2Z.inj_pow. lia.
Qed.

Lemma Zdigits2_le (m k : Z) : 0 ≤ m → 0 ≤ k → m < 2 ^ k → Zdigits2 m ≤ k.
Proof.
  destruct m as [|p|p]; simpl; intros Hm Hk H; try lia.
  rewrite digits2_size. pose proof (Pos.size_le p) as Hp.
  destruct (Z_le_gt_dec (Z.pos (Pos.size p)) k) as [|Hgt]; [done|].
  exfalso.
  assert (2 ^ (k + 1) <= 2 ^ Z.pos (Pos.size p)) as Hpow
    by (apply Z.pow_le_mono_r; lia).
  rewrite Z.pow_add_r in Hpow by lia.
  assert (Z.pos (2 ^ Pos.size p) <= Z.pos p~0) as Hp' by lia.
  rewrite Pos2Z.inj_pow in Hp'. lia.
Qed.

Lemma Zdigits2_succ (m : Z) : 0 ≤ m → Zdigits2 (m + 1) ≤ Zdigits2 m + 1.
Proof.
  intros Hm. pose proof (Zdigits2_nonneg m). pose proof (Zdigits2_gt m Hm).
  apply Zdigits2_le; [lia..|]. rewrite Z.pow_add_r by lia. lia.
Qed.

Lemma Zdigits2_mono (a b : Z) : 0 ≤ a ≤ b → Zdigits2 a ≤ Zdigits2 b.
Proof.
  intros H. pose proof (Zdigits2_nonneg b).
  pose proof (Zdigits2_gt b ltac:(lia)). apply Zdigits2_le; lia.
Qed.

Lemma shr_1_half (mrs : shr_record) :
  0 ≤ shr_m mrs →
  0 ≤ shr_m (shr_1 mrs) ∧ 2 * shr_m (shr_1 mrs) ≤ shr_m mrs.
Proof. destruct mrs as [[|[p|p|]|p] r s]; simpl; lia. Qed.

Lemma iter_shr_1 (p : positive) (mrs : shr_record) :
  0 ≤ shr_m mrs →
  0 ≤ shr_m (SpecFloat.iter_pos shr_1 p mrs) ∧
  2 ^ Z.pos p * shr_m (SpecFloat.iter_pos shr_1 p mrs) ≤ shr_m mrs.
Proof.
  revert mrs. induction p as [p IH|p IH|]; intros mrs Hm; simpl SpecFloat.iter_pos.
  - destruct (shr_1_half mrs Hm) as [H1 H1'].
    destruct (IH _ H1) as [H2 H2']. destruct (IH _ H2) as [H3 H3'].
    split; [done|].
    replace (Z.pos p~1) with (Z.pos p + Z.pos p + 1) by lia.
    rewrite !Z.pow_add_r by lia. change (2 ^ 1) with 2.
    pose proof (Z.pow_pos_nonneg 2 (Z.pos p)). nia.
  - destruct (IH _ Hm) as [H2 H2']. destruct (IH _ H2) as [H3 H3'].
    split; [done|].
    replace (Z.pos p~0) with (Z.pos p + Z.pos p) by lia.
    rewrite !Z.pow_add_r by lia.
    pose proof (Z.pow_pos_nonneg 2 (Z.pos p)). nia.
  - apply shr_1_half in Hm. change (2 ^ 1) with 2. lia.
Qed.

Lemma shr_fexp_bound (m e : Z) (l : location) :
  0 ≤ m →
  let '(mrs, e') := shr_fexp 53 1024 m e l in
  0 ≤ shr_m mrs ∧ shr_m mrs ≤ m ∧
  e' = Z.max e (fexp 53 1024 (Zdigits2 m + e)) ∧
  Zdigits2 (shr_m mrs) + e' ≤ Z.max (Zdigits2 m + e) e'.
Proof.
  intros Hm. unfold shr_fexp, shr.
  assert (shr_m (shr_record_of_loc m l) = m) as Hrec
    by (destruct l as [|[]]; reflexivity).
  destruct (fexp 53 1024 (Zdigits2 m + e) - e) as [|n|n] eqn:Hn; cbv beta iota.
  - rewrite Hrec. lia.
  - destruct (iter_shr_1 n (shr_record_of_loc m l)) as [H1 H2]; [lia|].
    rewrite Hrec in H2. clear Hrec.
    set (m' := shr_m (SpecFloat.iter_pos shr_1 n (shr_record_of_loc m l))) in *.
    pose proof (Z.pow_pos_nonneg 2 (Z.pos n)).
    split; [done|]. split; [nia|]. split; [lia|].
    pose proof (Zdigits2_nonneg m). pose proof (Zdigits2_gt m Hm) as Hgt.
    destruct (Z_le_gt_dec (Z.pos n) (Zdigits2 m)) as [Hle|Hgt'].
    + assert (Zdigits2 m' <= Zdigits2 m - Z.pos n); [|lia].
      apply Zdigits2_le; [lia..|].
      replace (Zdigits2 m) with ((Zdigits2 m - Z.pos n) + Z.pos n) in Hgt by lia.
      rewrite Z.pow_add_r in Hgt by lia. nia.
    + assert (m' = 0) as ->; [|simpl; lia].
      assert (2 ^ Zdigits2 m < 2 ^ Z.pos n) by (apply Z.pow_lt_mono_r; lia).
      nia.
  - rewrite Hrec. lia.
Qed.

Lemma round_nearest_even_bound (m : Z) (l : location) :
  0 ≤ m → m ≤ round_nearest_even m l ≤ m + 1.
Proof.
  intros Hm. unfold round_nearest_even.
  destruct l as [|[]]; try lia. destruct (Z.even m); lia.
Qed.

Lemma fexp_le (d : Z) : d ≤ 1024 → fexp 53 1024 d ≤ 971.
Proof. unfold fexp, emin. lia. Qed.

Lemma binary_round_aux_finite (s : bool) (m e : Z) (l : location) :
  0 ≤ m → Zdigits2 m + e ≤ 1023 → e ≤ 971 →
  is_finite (binary_round_aux 53 1024 s m e l) = true.
Proof.
  intros Hm Hd He. unfold binary_round_aux.
  pose proof (shr_fexp_bound m e l Hm) as H1.
  destruct (shr_fexp 53 1024 m e l) as [mrs1 e1].
  destruct H1 as (Hm1 & _ & He1 & Hd1).
  pose proof (round_nearest_even_bound (shr_m mrs1) (loc_of_shr_record mrs1) Hm1)
    as Hr.
  set (m2 := round_nearest_even _ _) in *.
  pose proof (shr_fexp_bound m2 e1 loc_Exact ltac:(lia)) as H2.
  destruct (shr_fexp 53 1024 m2 e1 loc_Exact) as [mrs2 e2].
  destruct H2 as (Hm2 & _ & He2 & _).
  pose proof (Zdigits2_mono m2 (shr_m mrs1 + 1) ltac:(lia)) as Hmono.
  pose proof (Zdigits2_succ (shr_m mrs1) Hm1) as Hsucc.
  pose proof (fexp_le (Zdigits2 m + e) ltac:(lia)) as Hf1.
  assert (e1 <= 971) as He1' by lia.
  pose proof (fexp_le (Zdigits2 m2 + e1) ltac:(lia)) as Hf2.
  destruct (shr_m mrs2) as [|p|p]; [done| |lia].
  replace (e2 <=? 1024 - 53) with true by (symmetry; apply Z.leb_le; lia).
  done.
Qed.

Lemma digits2_iter_xO (m d : positive) :
  Z.pos (digits2_pos (Pos.iter xO m d)) = Z.pos (digits2_pos m) + Z.pos d.
Proof.
  induction d as [|d IH] using Pos.peano_ind.
  - simpl. lia.
  - rewrite Pos.iter_succ. simpl. lia.
Qed.

Lemma shl_align_spec (m : positive) (e e' : Z) :
  let '(mz, ez) := shl_align m e e' in
  Z.pos (digits2_pos mz) + ez = Z.pos (digits2_pos m) + e ∧ ez = Z.min e e'.
Proof.
  unfold shl_align. destruct (e' - e) as [|d|d] eqn:Hd; try lia.
  rewrite digits2_iter_xO. lia.
Qed.

Lemma binary_round_finite (s : bool) (m : positive) (e : Z) :
  Z.pos (digits2_pos m) + e ≤ 1023 →
  is_finite (binary_round 53 1024 s m e) = true.
Proof.
  intros Hd. unfold binary_round.
  pose proof (shl_align_spec m e (fexp 53 1024 (Z.pos (digits2_pos m) + e))) as H.
  destruct (shl_align _ _ _) as [mz ez]. destruct H as [Hz He].
  pose proof (fexp_le (Z.pos (digits2_pos m) + e) ltac:(lia)).
  apply binary_round_aux_finite; simpl; lia.
Qed.

Lemma binary_normalize_finite (m e : Z) (sz : bool) :
  Zdigits2 m + e ≤ 1023 →
  is_finite (binary_normalize 53 1024 m e sz) = true.
Proof.
  intros Hd. destruct m as [|p|p]; [done|..]; by apply binary_round_finite.
Qed.

Lemma aligned_bound (m : positive) (e ez : Z) :
  ez ≤ e → Z.pos (digits2_pos m) + e ≤ 1022 →
  Z.pos (fst (shl_align m e ez)) < 2 ^ (1022 - ez).
Proof.
  intros Hez Hd. pose proof (shl_align_spec m e ez) as H.
  destruct (shl_align m e ez) as [mz ez']. destruct H as [Hz He]. simpl.
  pose proof (Zdigits2_gt (Z.pos mz) ltac:(lia)) as Hgt. simpl in Hgt.
  eapply Z.lt_le_trans; [exact Hgt|]. apply Z.pow_le_mono_r; lia.
Qed.

Lemma float_sub_finite (x y : float) :
  ordinary x = true → ordinary y = true →
  is_finite (float_sub x y) = true.
Proof.
  destruct x as [sx|sx| |sx mx ex], y as [sy|sy| |sy my ey]; try done.
  - by destruct sx, sy.
  - intros Hx Hy. apply Z.leb_le in Hx, Hy. unfold float_sub, SFsub.
    apply binary_normalize_finite.
    set (ez := Z.min ex ey).
    pose proof (aligned_bound mx ex ez ltac:(lia) Hx) as Hmx.
    pose proof (aligned_bound my ey ez ltac:(lia) Hy) as Hmy.
    set (a := Z.pos (fst (shl_align mx ex ez))) in *.
    set (b := Z.pos (fst (shl_align my ey ez))) in *.
    assert (0 < a ∧ 0 < b) as [Ha Hb] by (unfold a, b; lia).
    assert (ez <= 1021) as Hez by (unfold ez; lia).
    assert (2 ^ (1023 - ez) = 2 * 2 ^ (1022 - ez)) as Hpow.
    { replace (1023 - ez) with (1 + (1022 - ez)) by lia.
      rewrite Z.pow_add_r by lia. done. }
    assert (∀ z, Z.abs z < 2 ^ (1023 - ez) → Zdigits2 z + ez <= 1023) as Hdig.
    { intros z Hz. assert (Zdigits2 z = Zdigits2 (Z.abs z)) as ->
        by (by destruct z).
      pose proof (Zdigits2_le (Z.abs z) (1023 - ez)). lia. }
    apply Hdig. destruct sx, sy; simpl; lia.
Qed.

(** Rounding a value below [2^1021] gives a float of ordinary size. *)
Lemma binary_round_aux_ordinary (s : bool) (m e : Z) (l : location) :
  0 ≤ m → Zdigits2 m + e ≤ 1021 → e ≤ 971 →
  ordinary (binary_round_aux 53 1024 s m e l) = true.
Proof.
  intros Hm Hd He. unfold binary_round_aux.
  pose proof (shr_fexp_bound m e l Hm) as H1.
  destruct (shr_fexp 53 1024 m e l) as [mrs1 e1].
  destruct H1 as (Hm1 & _ & He1 & Hd1).
  pose proof (round_nearest_even_bound (shr_m mrs1) (loc_of_shr_record mrs1) Hm1)
    as Hr.
  set (m2 := round_nearest_even _ _) in *.
  pose proof (shr_fexp_bound m2 e1 loc_Exact ltac:(lia)) as H2.
  destruct (shr_fexp 53 1024 m2 e1 loc_Exact) as [mrs2 e2].
  destruct H2 as (Hm2 & _ & He2 & Hd2).
  pose proof (Zdigits2_mono m2 (shr_m mrs1 + 1) ltac:(lia)) as Hmono.
  pose proof (Zdigits2_succ (shr_m mrs1) Hm1) as Hsucc.
  pose proof (fexp_le (Zdigits2 m + e) ltac:(lia)) as Hf1.
  assert (e1 <= 971) as He1' by lia.
  pose proof (fexp_le (Zdigits2 m2 + e1) ltac:(lia)) as Hf2.
  destruct (shr_m mrs2) as [|p|p] eqn:Hp; [done| |lia].
  replace (e2 <=? 1024 - 53) with true by (symmetry; apply Z.leb_le; lia).
  cbn [ordinary]. apply Z.leb_le. simpl in Hd2. lia.
Qed.

Lemma binary_normalize_ordinary (m e : Z) (sz : bool) :
  Zdigits2 m + e ≤ 1021 →
  ordinary (binary_normalize 53 1024 m e sz) = true.
Proof.
  intros Hd.
  assert (∀ s p, Z.pos (digits2_pos p) + e <= 1021 →
            ordinary (binary_round 53 1024 s p e) = true) as Hround.
  { intros s p Hp. unfold binary_round.
    pose proof (shl_align_spec p e (fexp 53 1024 (Z.pos (digits2_pos p) + e))) as H.
    destruct (shl_align _ _ _) as [mz ez]. destruct H as [Hz He].
    pose proof (fexp_le (Z.pos (digits2_pos p) + e) ltac:(lia)).
    apply binary_round_aux_ordinary; simpl; lia. }
  destruct m as [|p|p]; [done|..]; by apply Hround.
Qed.

Lemma sample_clock_ordinary (k : nat) : ordinary (sample_clock k) = true.
Proof.
  unfold sample_clock. apply binary_normalize_ordinary.
  pose proof (Zdigits2_le (4000 + 3 * Z.of_nat (Nat.min k 64)) 13) as H.
  change (2 ^ 13) with 8192 in H. lia.
Qed.

(** *** Every instant in the registry is a reading of the clock *)

Lemma instants_ok_empty : instants_ok ∅.
Proof. intros i e. by rewrite lookup_empty. Qed.

Lemma instants_ok_insert (ev : gmap Z Event) (i : Z) (e : Event) :
  instants_ok ev →
  ordinary (__start e) = true → (∀ t, __end e = Some t → ordinary t = true) →
  instants_ok (<[i := e]> ev).
Proof.
  intros Hev Hs He j e'. rewrite lookup_insert. case_decide.
  - by intros [= <-].
  - apply Hev.
Qed.

Lemma exec_instants_ok (o : op) (σ : state) :
  (∀ k, ordinary (clock k) = true) →
  registry_ok (_events (self σ)) → instants_ok (_events (self σ)) →
  instants_ok (_events (self (final (exec clock to_string o σ)))).
Proof.
  intros Hclock Hok Hin.
  destruct o as [name| |header|method data_id info]; cbn [exec].
  - destruct (start_spec name σ Hok) as (r & _ & ->).
    cbn [final self _events set_events].
    apply instants_ok_insert; [exact Hin|apply Hclock|]. by intros t.
  - destruct (end_cases σ Hok) as [[_ ->]|(p & e & _ & He & _ & ->)];
      cbn [final self _events set_events]; [done|].
    apply instants_ok_insert; [exact Hin|exact (proj1 (Hin p e He))|].
    cbn. intros t [= <-]. apply Hclock.
  - rewrite (print_summary_spec header σ Hok).
    cbn [final self _events set_events]. apply instants_ok_empty.
  - by rewrite log_err_spec.
Qed.

Lemma run_instants_ok (ops : list op) (σ : state) :
  (∀ k, ordinary (clock k) = true) →
  registry_ok (_events (self σ)) → instants_ok (_events (self σ)) →
  instants_ok (_events (self (final (run clock to_string ops σ)))).
Proof.
  intros Hclock. revert σ.
  induction ops as [|o ops IH]; intros σ Hok Hin; [done|].
  cbn [run]. pose proof (exec_registry_ok o σ Hok) as Hok'.
  pose proof (exec_instants_ok o σ Hclock Hok Hin) as Hin'.
  unfold mbind, M_bind.
  destruct (exec clock to_string o σ) as [v σ'|x σ']; cbn in *; [|done].
  by apply IH.
Qed.

(** *** The shape of ['{0:.1f}'.format] *)

Lemma string_of_uint_digits (d : Decimal.uint) :
  all_digits (NilEmpty.string_of_uint d) = true.
Proof. induction d; cbn; done. Qed.

Lemma decimal_digits (n : Z) : all_digits (decimal n) = true.
Proof.
  unfold decimal, NilZero.string_of_uint.
  destruct (N.to_uint (Z.to_N n)) eqn:Hd; try done;
    rewrite <- Hd; apply string_of_uint_digits.
Qed.

Lemma decimal_nonempty (n : Z) : decimal n ≠ "".
Proof.
  unfold decimal, NilZero.string_of_uint.
  by destruct (N.to_uint (Z.to_N n)).
Qed.

Lemma decimal_one_digit (z : Z) :
  0 ≤ z < 10 → ∃ c, decimal z = String c "" ∧ is_digit c = true.
Proof.
  intros Hz.
  assert (z = 0 ∨ z = 1 ∨ z = 2 ∨ z = 3 ∨ z = 4 ∨
          z = 5 ∨ z = 6 ∨ z = 7 ∨ z = 8 ∨ z = 9) as H by lia.
  repeat (destruct H as [->|H]); try subst z; eexists; split; reflexivity.
Qed.

Lemma format_1f_one_decimal (x : float) :
  is_finite x = true → one_decimal_place (format_1f x).
Proof.
  destruct x as [s|s| |s m e]; try done; intros _.
  - exists s, "0", "0"%char. done.
  - cbn [format_1f].
    destruct (decimal_one_digit (tenths m e mod 10)) as (c & Hc & Hd).
    { by apply Z.mod_pos_bound. }
    exists s, (decimal (tenths m e / 10)), c. rewrite Hc.
    split; [done|]. split; [apply decimal_nonempty|].
    split; [apply decimal_digits|done].
Qed.

(** *** The order of the lines *)

Lemma spans_nth (ev : gmap Z Event) (k : nat) :
  registry_ok ev → spans ev !! k = ev !! (Z.of_nat k + 1).
Proof.
  intros Hok. pose proof (spans_lookup ev Hok) as HF.
  destruct (decide (k < size ev)%nat) as [Hlt|Hge].
  - assert (seqZ 1 (Z.of_nat (size ev)) !! k = Some (1 + Z.of_nat k)) as Hk.
    { apply lookup_seqZ_lt. lia. }
    destruct (Forall2_lookup_l _ _ _ _ _ HF Hk) as (e & He & Hev).
    rewrite He, <- Hev. f_equal. lia.
  - apply Forall2_length in HF. rewrite length_seqZ in HF.
    rewrite lookup_ge_None_2 by lia.
    destruct (ev !! (Z.of_nat k + 1)) as [e|] eqn:He; [|done].
    apply (registry_ok_range _ _ _ Hok) in He. lia.
Qed.

Lemma spans_length (ev : gmap Z Event) :
  registry_ok ev → length (spans ev) = size ev.
Proof.
  intros Hok. pose proof (spans_lookup ev Hok) as HF.
  apply Forall2_length in HF. rewrite length_seqZ in HF. lia.
Qed.

Lemma elapsed_length (k : nat) (es : list Event) :
  length (elapsed clock k es) = length es.
Proof.
  revert k. induction es as [|e es IH]; intros k; [done|].
  cbn [elapsed]. destruct (__end e); cbn; by rewrite IH.
Qed.

(** Each entry of [elapsed] is the event's own duration when it is closed,
    and a reading of the clock, not before reading [k], less its start when
    it is open. *)
Lemma elapsed_nth (k : nat) (es : list Event) (i : nat) (e : Event) (secs : float) :
  es !! i = Some e → elapsed clock k es !! i = Some secs →
  match __end e with
  | Some t => secs = float_sub t (__start e)
  | None => ∃ k', (k ≤ k')%nat ∧ secs = float_sub (clock k') (__start e)
  end.
Proof.
  revert k i. induction es as [|e0 es IH]; intros k i He Hs; [done|].
  cbn [elapsed] in Hs. destruct i as [|i].
  - injection He as ->. destruct (__end e) as [t|]; cbn in Hs.
    + by injection Hs as <-.
    + injection Hs as <-. exists k. split; [lia|done].
  - cbn in He. destruct (__end e0) as [t0|]; cbn in Hs.
    + by apply (IH k i).
    + pose proof (IH (S k) i He Hs) as H.
      destruct (__end e) as [t|]; [done|].
      destruct H as (k' & Hk & ->). exists k'. split; [lia|done].
Qed.

(** C6. On a well-shaped registry the text [print_summary] prints has,
    between the header block and the closing part, one newline-ended line per
    event, in ascending key order. The line of an event is three spaces
    repeated (hrchy - 1) times, its name, a colon and a space, its elapsed
    seconds and an s: an event of level 1 has no indentation. The seconds of
    a closed event are its end less its start, those of an open event a
    reading of the clock less its start; a float that stands for a number is
    written with an optional sign, its integer digits, a point and exactly
    one digit. *)
Theorem summary_lines_in_creation_order (header : option string) (σ : state) :
  let t := self σ in
  let ev := _events t in
  let es := spans ev in
  let secs := elapsed clock (ticks σ) es in
  registry_ok ev →
  (∃ σ',
     print_summary clock to_string header σ = Ok VNone σ' ∧
     stdout σ' =
       stdout σ ++
       [nl +:+ SECTION_DIVIDE +:+ nl +:+ header_of t header +:+ nl +:+ nl +:+
        String.concat "" (zip_with (λ e s, summary_line e s +:+ nl) es secs) +:+
        exceptions_section to_string (errors t) +:+
        nl +:+ SECTION_DIVIDE +:+ nl]) ∧
  length es = size ev ∧ length secs = size ev ∧
  (∀ k : nat, es !! k = ev !! (Z.of_nat k + 1)) ∧
  (∀ (k : nat) e s, es !! k = Some e → secs !! k = Some s →
     summary_line e s =
       str_mul (hrchy e - 1) "   " +:+ name e +:+ ": " +:+ format_1f s +:+ "s" ∧
     (hrchy e = 1 →
      summary_line e s = name e +:+ ": " +:+ format_1f s +:+ "s") ∧
     match __end e with
     | Some t_end => s = float_sub t_end (__start e)
     | None => ∃ k', (ticks σ ≤ k')%nat ∧ s = float_sub (clock k') (__start e)
     end ∧
     (is_finite s = true → one_decimal_place (format_1f s)) ∧
     ((∀ k', ordinary (clock k') = true) → instants_ok ev →
      one_decimal_place (format_1f s))).
Proof.
  intros t ev es secs Hok. split; [|split; [|split; [|split]]].
  - eexists. split; [by apply print_summary_spec|]. done.
  - by apply spans_length.
  - unfold secs. rewrite elapsed_length. by apply spans_length.
  - intros k. by apply spans_nth.
  - intros k e s He Hs.
    pose proof (elapsed_nth (ticks σ) es k e s He Hs) as Hsecs.
    split; [done|]. split; [|split; [done|split]].
    + intros Hh. unfold summary_line. by rewrite Hh.
    + apply format_1f_one_decimal.
    + intros Hclock Hin. apply format_1f_one_decimal.
      unfold es in He. rewrite (spans_nth ev k Hok) in He.
      destruct (Hin _ _ He) as [Hstart Hend].
      destruct (__end e) as [t_end|].
      * subst s. apply float_sub_finite; [by apply Hend|done].
      * destruct Hsecs as (k' & _ & ->). by apply float_sub_finite.
Qed.


(** ** A closed event is never closed again *)

Lemma exec_keeps_closed (o : op) (σ : state) (i : Z) (e : Event) :
  registry_ok (_events (self σ)) →
  _events (self σ) !! i = Some e → is_open e = false →
  (∀ header, o ≠ Report header) →
  _events (self (final (exec clock to_string o σ))) !! i = Some e.
Proof.
  intros Hok He Hc Hnr.
  destruct o as [name| |header|method data_id info]; cbn [exec].
  - destruct (start_spec name σ Hok) as (r & _ & ->).
    cbn [final self _events set_events].
    pose proof (registry_ok_range _ _ _ Hok He).
    rewrite lookup_insert_ne by lia. done.
  - destruct (end_cases σ Hok) as [[_ ->]|(p & e' & _ & He' & Ho' & ->)];
      cbn [final self _events set_events]; [done|].
    rewrite lookup_insert_ne; [done|]. intros ->. congruence.
  - by destruct (Hnr header).
  - by rewrite log_err_spec.
Qed.

(** C8. An event of a well-shaped registry whose end instant is set stays
    as it is, end instant included, under every sequence of calls without a
    report: [start] writes to a new key, [end] only to a key that holds an
    open event, and recording an error writes to no key. A report does not
    reassign the end either: it discards the events. *)
Theorem closed_event_never_reassigned
    (ops : list op) (σ : state) (i : Z) (e : Event) (t_end : float) :
  registry_ok (_events (self σ)) →
  _events (self σ) !! i = Some e → __end e = Some t_end →
  (_events (self (final (run clock to_string ops σ))) !! i = Some e ∨
   has_report ops) ∧
  (∀ header,
     _events (self (final (print_summary clock to_string header σ))) = ∅).
Proof.
  intros Hok He Hend. split.
  2:{ intros header. by rewrite (print_summary_spec header σ Hok). }
  assert (is_open e = false) as Hc by (unfold is_open; by rewrite Hend).
  clear Hend. revert σ Hok He.
  induction ops as [|o ops IH]; intros σ Hok He; [by left|].
  assert ((∃ header, o = Report header) ∨ ∀ header, o ≠ Report header)
    as [[header ->]|Hnr'] by (destruct o; eauto).
  { right. exists header. by left. }
  pose proof (exec_keeps_closed o σ i e Hok He Hc Hnr') as He1.
  pose proof (exec_registry_ok o σ Hok) as Hok1.
  cbn [run].
  destruct (exec clock to_string o σ) as [v σ1|x σ1] eqn:Hx; cbn in He1, Hok1.
  - rewrite (bind_Ok _ _ _ _ _ Hx).
    destruct (IH σ1 Hok1 He1) as [Hl|[header Hr]]; [by left|].
    right. exists header. by right.
  - rewrite (bind_Raise _ _ _ _ _ Hx). by left.
Qed.


(** ** The scan agrees with an explicit stack of open events *)

Lemma stack_ok_elem (ev : gmap Z Event) (stk : list Z) (q : Z) :
  stack_ok ev stk → q ∈ stk → ∃ e, ev !! q = Some e ∧ is_open e = true.
Proof.
  induction stk as [|p rest IH]; intros Hs Hq; [by apply elem_of_nil in Hq|].
  destruct Hs as ((e & He & Ho & _) & _ & Hrest).
  apply elem_of_cons in Hq as [->|Hq]; eauto.
Qed.

Lemma stack_ok_insert (ev : gmap Z Event) (stk : list Z) (k : Z) (x : Event) :
  stack_ok ev stk → k ∉ stk → stack_ok (<[k := x]> ev) stk.
Proof.
  induction stk as [|p rest IH]; intros Hs Hk; [done|].
  destruct Hs as ((e & He & Ho & Hh) & Hlt & Hrest).
  apply not_elem_of_cons in Hk as [Hkp Hk].
  split; [|split; [done|by apply IH]].
  exists e. by rewrite lookup_insert_ne.
Qed.

Lemma open_stack_nearest (ev : gmap Z Event) (stk : list Z) :
  open_stack ev stk → nearest_open ev (head stk).
Proof.
  intros [Hs Hall]. destruct stk as [|p rest]; cbn.
  - intros i e He. destruct (is_open e) eqn:Ho; [|done].
    pose proof (Hall i e He Ho) as Hin. by apply elem_of_nil in Hin.
  - destruct Hs as ((e & He & Ho & _) & Hlt & _). split; [by eauto|].
    intros j e' He' Ho'.
    pose proof (Hall j e' He' Ho') as Hin.
    apply elem_of_cons in Hin as [->|Hj]; [lia|].
    rewrite Forall_forall in Hlt. apply Hlt in Hj. lia.
Qed.

Lemma open_stack_child_hrchy (ev : gmap Z Event) (stk : list Z) :
  open_stack ev stk → child_hrchy ev (head stk) = Z.of_nat (S (length stk)).
Proof.
  intros [Hs _]. unfold child_hrchy. destruct stk as [|p rest]; [done|].
  destruct Hs as ((e & He & _ & Hh) & _). cbn [head mbind option_bind].
  rewrite He, Hh. lia.
Qed.

Lemma open_stack_start (ev : gmap Z Event) (stk : list Z) (e : Event) :
  let new_id := Z.of_nat (size ev) + 1 in
  registry_ok ev → open_stack ev stk →
  is_open e = true → hrchy e = Z.of_nat (S (length stk)) →
  open_stack (<[new_id := e]> ev) (new_id :: stk).
Proof.
  intros new_id Hok [Hs Hall] Ho Hh.
  assert (Forall (λ q, q < new_id) stk) as Hlt.
  { apply Forall_forall. intros q Hq.
    destruct (stack_ok_elem _ _ _ Hs Hq) as (e' & He' & _).
    apply (registry_ok_range _ _ _ Hok) in He'. lia. }
  split.
  - split; [|split; [done|]].
    + exists e. by rewrite lookup_insert_eq.
    + apply stack_ok_insert; [done|]. intros Hin.
      rewrite Forall_forall in Hlt. apply Hlt in Hin. lia.
  - intros i e'. rewrite lookup_insert. case_decide as Hi.
    + intros _ _. subst i. by left.
    + intros He' Ho'. right. by eapply Hall.
Qed.

Lemma open_stack_end (ev : gmap Z Event) (p : Z) (rest : list Z) (e : Event) :
  open_stack ev (p :: rest) → is_open e = false →
  open_stack (<[p := e]> ev) rest.
Proof.
  intros [((e0 & He0 & _) & Hlt & Hs) Hall] Hc. split.
  - apply stack_ok_insert; [done|]. intros Hin.
    rewrite Forall_forall in Hlt. apply Hlt in Hin. lia.
  - intros i e'. rewrite lookup_insert. case_decide as Hi.
    + intros [= <-]. congruence.
    + intros He' Ho'. pose proof (Hall i e' He' Ho') as Hin.
      apply elem_of_cons in Hin as [->|Hin]; done.
Qed.

Lemma depths_run (ops : list op) :
  ∀ (σ : state) (stk : list Z),
    let ev := _events (self σ) in
    registry_ok ev → open_stack ev stk →
    well_nested (length stk) ops = true →
    ∃ σ',
      run clock to_string ops σ = Ok () σ' ∧
      (∀ i e, ev !! i = Some e →
         ∃ e', _events (self σ') !! i = Some e' ∧ hrchy e' = hrchy e) ∧
      (∀ k : nat,
         hrchy <$> (_events (self σ') !! (Z.of_nat (size ev) + 1 + Z.of_nat k)) =
           depths (length stk) ops !! k).
Proof.
  induction ops as [|o ops IH]; intros σ stk ev Hok Hst Hwn.
  - exists σ. split; [done|]. split; [by eauto|].
    intros k. cbn [depths]. rewrite lookup_nil. fold ev.
    destruct (ev !! (Z.of_nat (size ev) + 1 + Z.of_nat k)) as [e|] eqn:He;
      [|done].
    apply (registry_ok_range _ _ _ Hok) in He. lia.
  - destruct o as [name| |header|method data_id info]; cbn [well_nested] in Hwn;
      [| | done |].
    + (* start *)
      destruct (start_spec name σ Hok) as (r & Hr & Hs). fold ev in Hr, Hs.
      rewrite (nearest_open_unique _ _ _ Hr (open_stack_nearest _ _ Hst)) in Hs.
      rewrite (open_stack_child_hrchy _ _ Hst) in Hs.
      set (new_id := Z.of_nat (size ev) + 1) in *.
      set (new := mkEvent name new_id (Z.of_nat (S (length stk))) (head stk)
                    (clock (ticks σ)) None) in *.
      match type of Hs with _ = Ok _ ?s => set (σ1 := s) in * end.
      assert (registry_ok (_events (self σ1))) as Hok1.
      { by apply registry_ok_insert_new. }
      assert (open_stack (_events (self σ1)) (new_id :: stk)) as Hst1.
      { by apply open_stack_start. }
      destruct (IH σ1 (new_id :: stk) Hok1 Hst1 Hwn) as (σ' & Hrun & Hold & Hnew).
      assert (size (_events (self σ1)) = S (size ev)) as Hsz.
      { apply map_size_insert_None. by apply registry_ok_fresh. }
      exists σ'. split; [|split].
      * cbn [run exec]. by rewrite (bind_Ok _ _ _ _ _ Hs).
      * intros i e He. apply Hold. cbn [σ1 self _events set_events].
        rewrite lookup_insert_ne; [done|].
        apply (registry_ok_range _ _ _ Hok) in He. lia.
      * intros [|k]; cbn [depths].
        -- destruct (Hold new_id new) as (e' & He' & Hh').
           { apply lookup_insert_eq. }
           change (Z.of_nat 0) with 0. rewrite Z.add_0_r. fold ev new_id.
           rewrite He'. cbn. rewrite Hh'. cbn. f_equal. lia.
        -- etrans; [|exact (Hnew k)]. rewrite Hsz. do 2 f_equal. lia.
    + (* end *)
      destruct stk as [|p rest]; [done|]. cbn [length] in Hwn.
      pose proof (open_stack_nearest _ _ Hst) as Hn. cbn [head] in Hn.
      pose proof Hn as [(e & He & Ho) _].
      pose proof (end_spec_some σ p e Hok Hn He) as Hs.
      match type of Hs with _ = Ok _ ?s => set (σ1 := s) in * end.
      assert (registry_ok (_events (self σ1))) as Hok1.
      { eapply registry_ok_insert_old; [done..|]. cbn. by apply Hok. }
      assert (open_stack (_events (self σ1)) rest) as Hst1.
      { by eapply open_stack_end. }
      destruct (IH σ1 rest Hok1 Hst1 Hwn) as (σ' & Hrun & Hold & Hnew).
      assert (size (_events (self σ1)) = size ev) as Hsz.
      { apply map_size_insert_Some. by eauto. }
      exists σ'. split; [|split].
      * cbn [run exec]. by rewrite (bind_Ok _ _ _ _ _ Hs).
      * intros i e0 He0. destruct (decide (i = p)) as [->|Hne].
        -- destruct (Hold p (closed_at (clock (ticks σ)) e)) as (e' & He' & Hh').
           { apply lookup_insert_eq. }
           exists e'. split; [done|]. rewrite Hh'. cbn.
           fold ev in He. congruence.
        -- apply Hold. cbn [σ1 self _events set_events].
           by rewrite lookup_insert_ne.
      * intros k. cbn [depths Nat.pred length]. rewrite <- (Hnew k), Hsz. done.
    + (* log_err *)
      pose proof (log_err_spec method data_id info σ) as Hs.
      match type of Hs with _ = Ok _ ?s => set (σ1 := s) in * end.
      destruct (IH σ1 stk Hok Hst Hwn) as (σ' & Hrun & Hold & Hnew).
      exists σ'. split; [|split; [done|]].
      * cbn [run exec]. by rewrite (bind_Ok _ _ _ _ _ Hs).
      * intros k. cbn [depths]. apply Hnew.
Qed.

(** C1. On a new timer, every well-nested sequence of [start] and [end]
    calls runs to its end, and the hrchy of the event with uid [k + 1], the
    one the [k]-th [start] created, is the nesting depth of that call: one
    more than the number of events started before it and not yet ended. *)
Theorem hrchy_is_nesting_depth (ops : list op) (ud_start ud_end : bool) :
  well_nested 0 ops = true →
  ∃ σ',
    run clock to_string ops (fresh ud_start ud_end) = Ok () σ' ∧
    ∀ k : nat,
      hrchy <$> (_events (self σ') !! (Z.of_nat k + 1)) = depths 0 ops !! k.
Proof.
  intros Hwn.
  destruct (depths_run ops (fresh ud_start ud_end) []) as (σ' & Hrun & _ & Hd).
  - apply registry_ok_empty.
  - split; [done|]. intros i e He. cbn in He. by rewrite lookup_empty in He.
  - exact Hwn.
  - exists σ'. split; [exact Hrun|]. intros k.
    etrans; [|exact (Hd k)]. do 2 f_equal. cbn. rewrite map_size_empty. lia.
Qed.

(** ** The events form a tree *)

Lemma tree_ok_empty : tree_ok ∅.
Proof. intros i e. by rewrite lookup_empty. Qed.

Lemma tree_ok_start (ev : gmap Z Event) (r : option Z) (name : string) (t : float) :
  let new_id := Z.of_nat (size ev) + 1 in
  registry_ok ev → tree_ok ev → nearest_open ev r →
  tree_ok (<[new_id := mkEvent name new_id (child_hrchy ev r) r t None]> ev).
Proof.
  intros new_id Hok Htree Hr i e. rewrite lookup_insert. case_decide as Hi.
  - intros [= <-]. unfold parent_ok, child_hrchy. cbn [hrchy pid is_open __end].
    destruct r as [p|]; cbn [mbind option_bind].
    + destruct Hr as [(pe & Hpe & Hpo) _]. rewrite Hpe.
      pose proof (registry_ok_range _ _ _ Hok Hpe) as Hp.
      destruct (Htree p pe Hpe) as [Hh _].
      split; [lia|]. split; [lia|]. exists pe.
      rewrite lookup_insert_ne by lia. done.
    + done.
  - intros He. destruct (Htree i e He) as [Hh Hp]. split; [done|].
    unfold parent_ok in *. destruct (pid e) as [p|]; [|done].
    destruct Hp as (Hlt & pe & Hpe & Hrest).
    pose proof (registry_ok_range _ _ _ Hok Hpe).
    split; [done|]. exists pe. rewrite lookup_insert_ne by lia. done.
Qed.

Lemma tree_ok_end (ev : gmap Z Event) (p : Z) (e : Event) (t : float) :
  tree_ok ev → nearest_open ev (Some p) → ev !! p = Some e →
  tree_ok (<[p := closed_at t e]> ev).
Proof.
  intros Htree [_ Hmax] He i e'. rewrite lookup_insert. case_decide as Hi.
  - intros [= <-]. subst i. destruct (Htree p e He) as [Hh Hp].
    split; [done|]. unfold parent_ok in *. cbn [pid hrchy closed_at is_open __end].
    destruct (pid e) as [q|]; [|done].
    destruct Hp as (Hlt & pe & Hpe & Hlev & _).
    split; [done|]. exists pe. rewrite lookup_insert_ne by lia. done.
  - intros He'. destruct (Htree i e' He') as [Hh Hp]. split; [done|].
    unfold parent_ok in *. destruct (pid e') as [q|]; [|done].
    destruct Hp as (Hlt & pe & Hpe & Hlev & Hopen).
    split; [done|]. rewrite lookup_insert. case_decide as Hq.
    + subst q. rewrite He in Hpe. injection Hpe as <-.
      exists (closed_at t e). split; [done|]. split; [done|].
      intros Ho. pose proof (Hmax i e' He' Ho). lia.
    + exists pe. done.
Qed.

Lemma exec_tree_ok (o : op) (σ : state) :
  registry_ok (_events (self σ)) → tree_ok (_events (self σ)) →
  tree_ok (_events (self (final (exec clock to_string o σ)))).
Proof.
  intros Hok Htree.
  destruct o as [name| |header|method data_id info]; cbn [exec].
  - destruct (start_spec name σ Hok) as (r & Hr & ->).
    cbn [final self _events set_events]. by apply tree_ok_start.
  - destruct (end_cases σ Hok) as [[_ ->]|(p & e & Hn & He & _ & ->)];
      cbn [final self _events set_events]; [done|].
    by apply tree_ok_end.
  - rewrite (print_summary_spec header σ Hok).
    cbn [final self _events set_events]. apply tree_ok_empty.
  - by rewrite log_err_spec.
Qed.

Lemma run_tree_ok (ops : list op) (σ : state) :
  registry_ok (_events (self σ)) → tree_ok (_events (self σ)) →
  tree_ok (_events (self (final (run clock to_string ops σ)))).
Proof.
  revert σ. induction ops as [|o ops IH]; intros σ Hok Htree; [done|].
  cbn [run]. pose proof (exec_registry_ok o σ Hok) as Hok'.
  pose proof (exec_tree_ok o σ Hok Htree) as Htree'.
  unfold mbind, M_bind.
  destruct (exec clock to_string o σ) as [v σ'|x σ']; cbn in *; [|done].
  by apply IH.
Qed.

(** X1. After any sequence of calls on a new timer, every event of the
    registry has a level of at least 1; an event without parent is at level
    1; the parent of any other event is in the registry under a smaller key,
    one level up, and is open whenever the event itself is open. *)
Theorem events_form_a_tree (ops : list op) (ud_start ud_end : bool) :
  let ev := _events (self (final (run clock to_string ops (fresh ud_start ud_end)))) in
  ∀ i e, ev !! i = Some e →
    1 ≤ hrchy e ∧
    (pid e = None ↔ hrchy e = 1) ∧
    (∀ p, pid e = Some p →
       p < i ∧
       ∃ pe, ev !! p = Some pe ∧ hrchy e = hrchy pe + 1 ∧
             (is_open e = true → is_open pe = true)).
Proof.
  intros ev i e He.
  assert (registry_ok ev) as Hok by apply run_registry_ok, registry_ok_empty.
  assert (tree_ok ev) as Htree.
  { apply run_tree_ok; [apply registry_ok_empty|apply tree_ok_empty]. }
  destruct (Htree i e He) as [Hh Hp]. unfold parent_ok in Hp.
  split; [done|]. destruct (pid e) as [p|].
  - destruct Hp as (Hlt & pe & Hpe & Hlev & Hopen).
    destruct (Htree p pe Hpe) as [Hhp _].
    split; [split; [done|lia]|]. intros p' [= <-]. eauto.
  - split; [done|]. done.
Qed.

(** ** The open events are a stack, whatever the calls *)

Lemma exec_open_stack (o : op) (σ : state) (stk : list Z) :
  registry_ok (_events (self σ)) → open_stack (_events (self σ)) stk →
  ∃ stk', open_stack (_events (self (final (exec clock to_string o σ)))) stk'.
Proof.
  intros Hok Hst.
  destruct o as [name| |header|method data_id info]; cbn [exec].
  - destruct (start_spec name σ Hok) as (r & Hr & ->).
    cbn [final self _events set_events].
    rewrite (nearest_open_unique _ _ _ Hr (open_stack_nearest _ _ Hst)).
    eexists. apply open_stack_start; [done..|].
    cbn [hrchy]. by apply open_stack_child_hrchy.
  - destruct (end_cases σ Hok) as [[_ ->]|(p & e & Hn & He & _ & ->)];
      cbn [final self _events set_events]; [by eauto|].
    pose proof (nearest_open_unique _ _ _ Hn (open_stack_nearest _ _ Hst)) as Hhd.
    destruct stk as [|p' rest]; [done|]. injection Hhd as <-.
    exists rest. by eapply open_stack_end.
  - rewrite (print_summary_spec header σ Hok).
    cbn [final self _events set_events]. exists [].
    split; [done|]. intros i e. by rewrite lookup_empty.
  - rewrite log_err_spec. by eauto.
Qed.

Lemma run_open_stack (ops : list op) (σ : state) (stk : list Z) :
  registry_ok (_events (self σ)) → open_stack (_events (self σ)) stk →
  ∃ stk', open_stack (_events (self (final (run clock to_string ops σ)))) stk'.
Proof.
  revert σ stk. induction ops as [|o ops IH]; intros σ stk Hok Hst; [by eauto|].
  cbn [run]. pose proof (exec_registry_ok o σ Hok) as Hok'.
  destruct (exec_open_stack o σ stk Hok Hst) as [stk1 Hst1].
  unfold mbind, M_bind.
  destruct (exec clock to_string o σ) as [v σ'|x σ']; cbn in *; [|by eauto].
  by eapply IH.
Qed.

Lemma stack_ok_sorted (ev : gmap Z Event) (stk : list Z) :
  stack_ok ev stk → StronglySorted (λ a b, b < a) stk ∧ NoDup stk.
Proof.
  induction stk as [|p rest IH]; intros Hs.
  - split; constructor.
  - destruct Hs as (_ & Hlt & Hrest). destruct (IH Hrest) as [Hso Hnd].
    split; [by constructor|]. constructor; [|done].
    intros Hin. rewrite Forall_forall in Hlt. apply Hlt in Hin. lia.
Qed.

Lemma stack_ok_levels (ev : gmap Z Event) (stk : list Z) (k : nat) (i : Z) :
  stack_ok ev stk → stk !! k = Some i →
  hrchy <$> ev !! i = Some (Z.of_nat (length stk - k)).
Proof.
  revert k. induction stk as [|p rest IH]; intros k Hs Hk; [done|].
  destruct Hs as ((e & He & _ & Hh) & _ & Hrest). destruct k as [|k].
  - injection Hk as <-. rewrite He. cbn [fmap option_fmap option_map].
    by rewrite Hh, Nat.sub_0_r.
  - cbn in Hk. rewrite (IH k Hrest Hk). done.
Qed.

Lemma open_stack_size (ev : gmap Z Event) (stk : list Z) :
  open_stack ev stk →
  length stk = size (filter (λ kv, is_open kv.2 = true) ev).
Proof.
  intros [Hs Hall]. destruct (stack_ok_sorted _ _ Hs) as [_ Hnd].
  rewrite <- (size_dom (D := gset Z)).
  replace (dom (filter (λ kv : Z * Event, is_open kv.2 = true) ev))
    with (list_to_set (C := gset Z) stk).
  { by rewrite size_list_to_set. }
  apply set_eq. intros i. rewrite elem_of_list_to_set, elem_of_dom. split.
  - intros Hi. destruct (stack_ok_elem _ _ _ Hs Hi) as (e & He & Ho).
    exists e. by apply map_lookup_filter_Some.
  - intros [e He]. apply map_lookup_filter_Some in He as [He Ho]. by eapply Hall.
Qed.

(** X2. After any sequence of calls on a new timer, well nested or not, the
    keys of the open events, listed from the newest down, hold events at
    levels d, d-1, ..., 1 for d the number of open events. The next [start]
    therefore creates an event at level d + 1 whose parent is the newest open
    event, or that has no parent when nothing is open. *)
Theorem open_events_are_a_stack (ops : list op) (ud_start ud_end : bool) :
  let σ := final (run clock to_string ops (fresh ud_start ud_end)) in
  let ev := _events (self σ) in
  ∃ stk : list Z,
    (∀ i, i ∈ stk ↔ ∃ e, ev !! i = Some e ∧ is_open e = true) ∧
    StronglySorted (λ a b, b < a) stk ∧
    length stk = size (filter (λ kv, is_open kv.2 = true) ev) ∧
    (∀ (k : nat) i, stk !! k = Some i →
       hrchy <$> ev !! i = Some (Z.of_nat (length stk - k))) ∧
    (∀ name, ∃ σ' e,
       start clock name σ = Ok VNone σ' ∧
       _events (self σ') !! (Z.of_nat (size ev) + 1) = Some e ∧
       hrchy e = Z.of_nat (length stk) + 1 ∧ pid e = head stk).
Proof.
  intros σ ev.
  assert (registry_ok ev) as Hok by apply run_registry_ok, registry_ok_empty.
  destruct (run_open_stack ops (fresh ud_start ud_end) []) as [stk Hst].
  { apply registry_ok_empty. }
  { split; [done|]. intros i e He. cbn in He. by rewrite lookup_empty in He. }
  fold σ ev in Hst. exists stk. pose proof Hst as [Hs Hall].
  split; [|split; [|split; [|split]]].
  - intros i. split; [by apply stack_ok_elem|]. intros (e & He & Ho). by eapply Hall.
  - by apply (stack_ok_sorted ev).
  - by apply open_stack_size.
  - intros k i. by apply stack_ok_levels.
  - intros name. destruct (start_spec name σ Hok) as (r & Hr & Hstart).
    fold ev in Hr, Hstart.
    rewrite (nearest_open_unique _ _ _ Hr (open_stack_nearest _ _ Hst)) in Hstart.
    eexists _, _. split; [exact Hstart|].
    cbn [self _events set_events]. rewrite lookup_insert_eq.
    split; [done|]. cbn [hrchy pid].
    split; [|done]. rewrite (open_stack_child_hrchy _ _ Hst). lia.
Qed.

(** ** A balanced block leaves the open events as they were *)

Lemma block_stack_nearest (n0 : Z) (ev : gmap Z Event) (p : Z) (rest : list Z) :
  registry_ok ev → n0 ≤ Z.of_nat (size ev) →
  (∀ i e, ev !! i = Some e → is_open e = true → i ≤ n0 → i < p) →
  block_stack n0 ev (p :: rest) → nearest_open ev (Some p).
Proof.
  intros Hok Hn0 Hold [Hso Hin].
  destruct (proj1 (Hin p) ltac:(by left)) as (_ & e & He & Ho).
  split; [by eauto|]. intros j e' He' Ho'.
  destruct (decide (j ≤ n0)) as [Hle|Hgt].
  - pose proof (Hold j e' He' Ho' Hle). lia.
  - assert (j ∈ p :: rest) as Hj by (apply Hin; split; [lia|by eauto]).
    apply elem_of_cons in Hj as [->|Hj]; [lia|].
    apply StronglySorted_inv in Hso as [_ Hlt].
    rewrite Forall_forall in Hlt. apply Hlt in Hj. lia.
Qed.

Lemma block_run (n0 : Z) (ops : list op) :
  ∀ (σ : state) (stk : list Z),
    let ev := _events (self σ) in
    registry_ok ev → 0 ≤ n0 ≤ Z.of_nat (size ev) →
    block_stack n0 ev stk →
    well_nested (length stk) ops = true →
    ∃ σ' stk',
      run clock to_string ops σ = Ok () σ' ∧
      registry_ok (_events (self σ')) ∧
      n0 ≤ Z.of_nat (size (_events (self σ'))) ∧
      block_stack n0 (_events (self σ')) stk' ∧
      length stk' = depth_after (length stk) ops ∧
      (∀ i e, i ≤ n0 → ev !! i = Some e → _events (self σ') !! i = Some e).
Proof.
  induction ops as [|o ops IH]; intros σ stk ev Hok Hn0 Hst Hwn.
  - exists σ, stk.
    split; [done|]. split; [done|]. split; [exact (proj2 Hn0)|]. by eauto.
  - destruct o as [name| |header|method data_id info]; cbn [well_nested] in Hwn;
      [| | done |].
    + (* start *)
      destruct (start_spec name σ Hok) as (r & _ & Hs). fold ev in Hs.
      set (new_id := Z.of_nat (size ev) + 1) in *.
      match type of Hs with context [<[new_id := ?e]> ev] => set (new := e) in * end.
      match type of Hs with _ = Ok _ ?s => set (σ1 := s) in * end.
      assert (registry_ok (_events (self σ1))) as Hok1.
      { by apply registry_ok_insert_new. }
      assert (size (_events (self σ1)) = S (size ev)) as Hsz.
      { apply map_size_insert_None. by apply registry_ok_fresh. }
      assert (block_stack n0 (_events (self σ1)) (new_id :: stk)) as Hst1.
      { destruct Hst as [Hso Hin]. split.
        - constructor; [done|]. apply Forall_forall. intros q Hq.
          apply Hin in Hq as (_ & e & He & _).
          apply (registry_ok_range _ _ _ Hok) in He. lia.
        - intros q. cbn [σ1 self _events set_events].
          rewrite elem_of_cons, lookup_insert. case_decide as Hq.
          + subst q. split; [|by left]. intros _. split; [lia|]. by exists new.
          + rewrite Hin. split; [intros [?|?]; [congruence|done]|by right]. }
      destruct (IH σ1 (new_id :: stk) Hok1 ltac:(lia) Hst1 Hwn)
        as (σ' & stk' & Hrun & Hok' & Hn' & Hst' & Hlen & Hold).
      exists σ', stk'. split; [|split; [done|split; [done|split; [done|split]]]].
      * cbn [run exec]. by rewrite (bind_Ok _ _ _ _ _ Hs).
      * done.
      * intros i e Hi He. apply Hold; [done|].
        cbn [σ1 self _events set_events]. rewrite lookup_insert_ne by lia. done.
    + (* end *)
      destruct stk as [|p rest]; [done|]. cbn [length] in Hwn.
      assert (nearest_open ev (Some p)) as Hn.
      { apply (block_stack_nearest n0 ev p rest); [done|lia| |done].
        intros i e He Ho Hi. destruct Hst as [_ Hin].
        destruct (proj1 (Hin p) ltac:(by left)) as [Hp _]. lia. }
      pose proof Hn as [(e & He & Ho) _].
      pose proof (end_spec_some σ p e Hok Hn He) as Hs. fold ev in Hs.
      match type of Hs with _ = Ok _ ?s => set (σ1 := s) in * end.
      assert (registry_ok (_events (self σ1))) as Hok1.
      { eapply registry_ok_insert_old; [done..|]. cbn. by apply Hok. }
      assert (size (_events (self σ1)) = size ev) as Hsz.
      { apply map_size_insert_Some. by eauto. }
      destruct Hst as [Hso Hin].
      destruct (proj1 (Hin p) ltac:(by left)) as [Hp _].
      apply StronglySorted_inv in Hso as [Hso Hlt].
      assert (block_stack n0 (_events (self σ1)) rest) as Hst1.
      { split; [done|]. intros q. cbn [σ1 self _events set_events].
        rewrite lookup_insert. case_decide as Hq.
        - subst q. split.
          + intros Hq. rewrite Forall_forall in Hlt. apply Hlt in Hq. lia.
          + intros (_ & e' & [= <-] & Ho'). done.
        - split.
          + intros Hq'. apply Hin. by right.
          + intros Hq'. apply Hin in Hq'.
            apply elem_of_cons in Hq' as [->|Hq']; done. }
      destruct (IH σ1 rest Hok1 ltac:(lia) Hst1 Hwn)
        as (σ' & stk' & Hrun & Hok' & Hn' & Hst' & Hlen & Hold).
      exists σ', stk'. split; [|split; [done|split; [done|split; [done|split]]]].
      * cbn [run exec]. by rewrite (bind_Ok _ _ _ _ _ Hs).
      * done.
      * intros i e0 Hi He0. apply Hold; [done|].
        cbn [σ1 self _events set_events]. rewrite lookup_insert_ne by lia. done.
    + (* log_err *)
      pose proof (log_err_spec method data_id info σ) as Hs.
      match type of Hs with _ = Ok _ ?s => set (σ1 := s) in * end.
      destruct (IH σ1 stk Hok Hn0 Hst Hwn)
        as (σ' & stk' & Hrun & Hok' & Hn' & Hst' & Hlen & Hold).
      exists σ', stk'. split; [|done].
      cbn [run exec]. by rewrite (bind_Ok _ _ _ _ _ Hs).
Qed.

(** X3. On a well-shaped registry, a balanced block of [start], [end] and
    [log_err] calls runs to its end; it leaves every event that was there as
    it was, open or closed, and every event it created is closed. So the
    event a following [end] closes, and the parent a following [start] takes,
    are the ones they would have been without the block. *)
Theorem balanced_block_restores_open_events (ops : list op) (σ : state) :
  let ev := _events (self σ) in
  registry_ok ev → balanced ops →
  ∃ σ',
    run clock to_string ops σ = Ok () σ' ∧
    (∀ i e, ev !! i = Some e → _events (self σ') !! i = Some e) ∧
    (∀ i e, _events (self σ') !! i = Some e → Z.of_nat (size ev) < i →
       is_open e = false) ∧
    (∀ r, nearest_open ev r → nearest_open (_events (self σ')) r).
Proof.
  intros ev Hok [Hwn Hdepth].
  destruct (block_run (Z.of_nat (size ev)) ops σ []) as
    (σ' & stk' & Hrun & Hok' & Hn' & [_ Hin] & Hlen & Hold);
    [done|unfold ev; lia| |done|].
  { split; [constructor|]. intros q. split; [by intros ?%elem_of_nil|].
    intros (Hq & e & He & _). apply (registry_ok_range _ _ _ Hok) in He.
    fold ev in He. lia. }
  cbn [length] in Hlen. rewrite Hdepth in Hlen.
  destruct stk' as [|? ?]; [|done]. fold ev in Hold.
  assert (∀ i e, ev !! i = Some e → _events (self σ') !! i = Some e) as Hkeep.
  { intros i e He. apply Hold; [|done].
    by apply (registry_ok_range _ _ _ Hok) in He as [_ ?]. }
  assert (∀ i e, _events (self σ') !! i = Some e → Z.of_nat (size ev) < i →
            is_open e = false) as Hnew.
  { intros i e He Hi. destruct (is_open e) eqn:Ho; [|done].
    assert (i ∈ @nil Z) as Hi' by (apply Hin; eauto). by apply elem_of_nil in Hi'. }
  assert (∀ i e, _events (self σ') !! i = Some e → is_open e = true →
            ev !! i = Some e) as Hback.
  { intros i e He Ho. destruct (decide (Z.of_nat (size ev) < i)) as [Hgt|Hle].
    { by rewrite (Hnew i e He Hgt) in Ho. }
    destruct (registry_ok_lookup ev i Hok) as (e0 & He0 & _).
    { apply (registry_ok_range _ _ _ Hok') in He. lia. }
    rewrite (Hkeep i e0 He0) in He. by injection He as <-. }
  exists σ'. split; [done|]. split; [done|]. split; [done|].
  intros [p|] Hr; cbn in *.
  - destruct Hr as [(e & He & Ho) Hmax]. split; [by eauto|].
    intros j e' He' Ho'. apply (Hmax j e'); [by apply Hback|done].
  - intros i e He. destruct (is_open e) eqn:Ho; [|done].
    rewrite <- Ho. apply (Hr i e). by apply Hback.
Qed.

(** ** The texts a run prints *)

Lemma exec_stdout (o : op) (σ σ' : state) (v : value) :
  registry_ok (_events (self σ)) →
  exec clock to_string o σ = Ok v σ' →
  _ud_start (self σ') = _ud_start (self σ) ∧
  _ud_end (self σ') = _ud_end (self σ) ∧
  ∃ new,
    stdout σ' = stdout σ ++ new ∧
    length new = texts_of (_ud_start (self σ)) (_ud_end (self σ)) o.
Proof.
  intros Hok Hx. destruct o as [name| |header|method data_id info];
    cbn [exec texts_of] in *.
  - destruct (start_spec name σ Hok) as (r & _ & Hs).
    rewrite Hs in Hx. simplify_eq. cbn [self stdout set_events _ud_start _ud_end].
    split; [done|]. split; [done|]. eexists. split; [done|].
    by destruct (_ud_start (self σ)).
  - destruct (end_cases σ Hok) as [[_ Hr]|(p & e & _ & _ & _ & Hr)];
      rewrite Hx in Hr; [done|].
    simplify_eq. cbn [self stdout set_events _ud_start _ud_end].
    split; [done|]. split; [done|]. eexists. split; [done|].
    by destruct (_ud_end (self σ)).
  - rewrite (print_summary_spec header σ Hok) in Hx. simplify_eq.
    cbn [self stdout set_events _ud_start _ud_end].
    split; [done|]. split; [done|]. by eexists.
  - rewrite log_err_spec in Hx. simplify_eq.
    cbn [self stdout set_errors _ud_start _ud_end].
    split; [done|]. split; [done|]. exists []. by rewrite app_nil_r.
Qed.

(** X4. On a well-shaped registry, a run that reaches its end only adds to
    the printed texts: one text per [start] when the start switch is on, one
    per [end] when the end switch is on, one per report, none for an error
    record. No call changes the two switches. *)
Theorem run_prints_notices_and_reports (ops : list op) (σ σ' : state) :
  let ud_start := _ud_start (self σ) in
  let ud_end := _ud_end (self σ) in
  registry_ok (_events (self σ)) →
  run clock to_string ops σ = Ok () σ' →
  _ud_start (self σ') = ud_start ∧
  _ud_end (self σ') = ud_end ∧
  ∃ new,
    stdout σ' = stdout σ ++ new ∧
    length new = sum_list (texts_of ud_start ud_end <$> ops).
Proof.
  intros ud_start ud_end. unfold ud_start, ud_end. clear ud_start ud_end.
  revert σ. induction ops as [|o ops IH]; intros σ Hok Hrun.
  - injection Hrun as <-. split; [done|]. split; [done|].
    exists []. by rewrite app_nil_r.
  - cbn [run] in Hrun. pose proof (exec_registry_ok o σ Hok) as Hok1.
    destruct (exec clock to_string o σ) as [v σ1|x σ1] eqn:Hx.
    2:{ by rewrite (bind_Raise _ _ _ _ _ Hx) in Hrun. }
    rewrite (bind_Ok _ _ _ _ _ Hx) in Hrun. cbn in Hok1.
    destruct (exec_stdout o σ σ1 v Hok Hx) as (Hs1 & He1 & new1 & Hout1 & Hlen1).
    destruct (IH σ1 Hok1 Hrun) as (Hs & He & new & Hout & Hlen).
    rewrite Hs1, He1 in *. split; [done|]. split; [done|].
    exists (new1 ++ new). rewrite Hout, Hout1, app_assoc. split; [done|].
    rewrite length_app, Hlen, Hlen1. done.
Qed.

(** ** The timeline of the events *)

Lemma timeline_ok_empty now born died : timeline_ok clock ∅ now born died.
Proof. intros i e. by rewrite lookup_empty. Qed.

Lemma timeline_ok_start (ev : gmap Z Event) (r : option Z) (name : string)
    (now : nat) (born died : Z → nat) :
  let new_id := Z.of_nat (size ev) + 1 in
  registry_ok ev → nearest_open ev r → timeline_ok clock ev now born died →
  timeline_ok clock
    (<[new_id := mkEvent name new_id (child_hrchy ev r) r (clock now) None]> ev)
    (S now) (λ j, if decide (j = new_id) then now else born j) died.
Proof.
  intros new_id Hok Hr Htl i e. rewrite lookup_insert. case_decide as Hi.
  - intros [= <-]. subst i. cbn [__start __end pid].
    rewrite decide_True by done.
    split; [done|]. split; [lia|]. split; [done|]. split.
    + intros j e'. rewrite lookup_insert. case_decide as Hj; [lia|].
      intros He' _. rewrite decide_False by done.
      destruct (Htl j e' He') as (_ & Hb & _). lia.
    + intros p pe -> Hpe Hclosed. destruct Hr as [(pe' & Hpe' & Ho) _].
      pose proof (registry_ok_range _ _ _ Hok Hpe').
      rewrite lookup_insert_ne in Hpe by lia. congruence.
  - intros He. destruct (Htl i e He) as (Hs & Hb & Hd & Hord & Hpar).
    rewrite decide_False by done.
    split; [done|]. split; [lia|]. split; [|split].
    + intros t Ht. destruct (Hd t Ht). split; [done|lia].
    + intros j e'. rewrite lookup_insert. case_decide as Hj.
      * intros _ Hlt. pose proof (registry_ok_range _ _ _ Hok He). lia.
      * intros He' Hlt. rewrite decide_False by done. by eapply Hord.
    + intros p pe Hp. rewrite lookup_insert. case_decide as Hq.
      * by intros [= <-].
      * by apply Hpar.
Qed.

Lemma timeline_ok_end (ev : gmap Z Event) (p0 : Z) (e0 : Event)
    (now : nat) (born died : Z → nat) :
  tree_ok ev → nearest_open ev (Some p0) → ev !! p0 = Some e0 →
  timeline_ok clock ev now born died →
  timeline_ok clock (<[p0 := closed_at (clock now) e0]> ev) (S now)
    born (λ j, if decide (j = p0) then now else died j).
Proof.
  intros Htree [(e0' & He0' & Ho0) Hmax] He0 Htl i e.
  rewrite He0 in He0'. injection He0' as <-.
  assert (∀ j e', <[p0 := closed_at (clock now) e0]> ev !! j = Some e' →
            ∃ e'', ev !! j = Some e'') as Hdom.
  { intros j e'. rewrite lookup_insert. case_decide; [subst; eauto|eauto]. }
  rewrite lookup_insert. case_decide as Hi.
  - intros [= <-]. subst i. cbn [__start __end pid closed_at].
    destruct (Htl p0 e0 He0) as (Hs & Hb & _ & Hord & _).
    destruct (Htree p0 e0 He0) as [_ Hpar]. unfold parent_ok in Hpar.
    rewrite decide_True by done.
    split; [done|]. split; [lia|]. split; [|split].
    + intros t [= <-]. split; [done|lia].
    + intros j e' He' Hlt. destruct (Hdom j e' He') as [e'' He''].
      by eapply Hord.
    + intros q pe Hq. rewrite Hq in Hpar.
      destruct Hpar as (Hlt & pe' & Hpe' & _ & Hopen).
      rewrite lookup_insert_ne by lia. intros Hpe Hclosed.
      rewrite Hpe in Hpe'. injection Hpe' as <-.
      rewrite (Hopen Ho0) in Hclosed. done.
  - intros He. destruct (Htl i e He) as (Hs & Hb & Hd & Hord & Hpar).
    rewrite decide_False by done.
    split; [done|]. split; [lia|]. split; [|split].
    + intros t Ht. destruct (Hd t Ht). split; [done|lia].
    + intros j e' He' Hlt. destruct (Hdom j e' He') as [e'' He''].
      by eapply Hord.
    + intros q pe Hq. rewrite lookup_insert. case_decide as Hq0.
      * subst q. intros _ _. rewrite decide_True by done.
        destruct (Htree i e He) as [_ Hpi]. unfold parent_ok in Hpi.
        rewrite Hq in Hpi. destruct Hpi as (Hlt & _).
        destruct (__end e) as [t|] eqn:Hend.
        -- destruct (Hd t eq_refl). lia.
        -- assert (is_open e = true) as Ho by (unfold is_open; by rewrite Hend).
           pose proof (Hmax i e He Ho). lia.
      * rewrite decide_False by done. by apply Hpar.
Qed.

Lemma exec_timeline_ok (o : op) (σ : state) (born died : Z → nat) :
  registry_ok (_events (self σ)) → tree_ok (_events (self σ)) →
  timeline_ok clock (_events (self σ)) (ticks σ) born died →
  ∃ born' died',
    timeline_ok clock (_events (self (final (exec clock to_string o σ))))
      (ticks (final (exec clock to_string o σ))) born' died'.
Proof.
  intros Hok Htree Htl.
  destruct o as [name| |header|method data_id info]; cbn [exec].
  - destruct (start_spec name σ Hok) as (r & Hr & ->).
    cbn [final self _events set_events ticks].
    eexists _, _. by apply timeline_ok_start.
  - destruct (end_cases σ Hok) as [[_ ->]|(p & e & Hn & He & _ & ->)];
      cbn [final self _events set_events ticks]; [by eauto|].
    eexists _, _. by apply timeline_ok_end.
  - rewrite (print_summary_spec header σ Hok).
    cbn [final self _events set_events]. exists born, died.
    apply timeline_ok_empty.
  - rewrite log_err_spec. by eauto.
Qed.

Lemma run_timeline_ok (ops : list op) (σ : state) (born died : Z → nat) :
  registry_ok (_events (self σ)) → tree_ok (_events (self σ)) →
  timeline_ok clock (_events (self σ)) (ticks σ) born died →
  ∃ born' died',
    timeline_ok clock (_events (self (final (run clock to_string ops σ))))
      (ticks (final (run clock to_string ops σ))) born' died'.
Proof.
  revert σ born died.
  induction ops as [|o ops IH]; intros σ born died Hok Htree Htl; [by eauto|].
  cbn [run]. pose proof (exec_registry_ok o σ Hok) as Hok'.
  pose proof (exec_tree_ok o σ Hok Htree) as Htree'.
  destruct (exec_timeline_ok o σ born died Hok Htree Htl) as (b1 & d1 & Htl1).
  unfold mbind, M_bind.
  destruct (exec clock to_string o σ) as [v σ'|x σ']; cbn in *; [|by eauto].
  by eapply IH.
Qed.

(** X5. After any sequence of calls on a new timer, the instants in the
    registry can be traced to readings of the clock already made: the start
    of an event is one reading and its end a later one; events were started
    in key order; a child was started after its parent and, once the parent
    is closed, the child is closed and was ended before the parent. *)
Theorem child_interval_inside_parent (ops : list op) (ud_start ud_end : bool) :
  let σ := final (run clock to_string ops (fresh ud_start ud_end)) in
  let ev := _events (self σ) in
  ∃ born died : Z → nat,
    ∀ i e, ev !! i = Some e →
      __start e = clock (born i) ∧ (born i < ticks σ)%nat ∧
      (∀ t, __end e = Some t →
         t = clock (died i) ∧ (born i < died i < ticks σ)%nat) ∧
      (∀ j e', ev !! j = Some e' → j < i → (born j < born i)%nat) ∧
      (∀ p pe, pid e = Some p → ev !! p = Some pe →
         (born p < born i)%nat ∧
         (is_open pe = false →
          is_open e = false ∧ (died i < died p)%nat)).
Proof.
  intros σ ev.
  assert (tree_ok ev) as Htree.
  { apply run_tree_ok; [apply registry_ok_empty|apply tree_ok_empty]. }
  destruct (run_timeline_ok ops (fresh ud_start ud_end) (λ _, O) (λ _, O))
    as (born & died & Htl);
    [apply registry_ok_empty|apply tree_ok_empty|apply timeline_ok_empty|].
  fold σ ev in Htl. exists born, died. intros i e He.
  destruct (Htl i e He) as (Hs & Hb & Hd & Hord & Hpar).
  split; [done|]. split; [done|]. split; [done|]. split; [done|].
  intros p pe Hp Hpe. destruct (Htree i e He) as [_ Hpi]. unfold parent_ok in Hpi.
  rewrite Hp in Hpi. destruct Hpi as (Hlt & pe' & Hpe' & _ & Hopen).
  rewrite Hpe in Hpe'. injection Hpe' as <-.
  split; [by eapply Hord|]. intros Hclosed. split; [|by eapply Hpar].
  destruct (is_open e); [|done]. by rewrite Hopen in Hclosed.
Qed.

(** ** [Event.__str__] *)

Lemma two_digits_shape (z : Z) : 0 ≤ z < 100 → is_two_digits (two_digits z) = true.
Proof.
  intros Hz.
  assert (Forall (λ z, is_two_digits (two_digits z) = true) (seqZ 0 100)) as H.
  { apply (bool_decide_unpack _). vm_compute. exact I. }
  rewrite Forall_forall in H. apply H. apply elem_of_seqZ. lia.
Qed.

Lemma format_2f_two_decimals (x : float) :
  is_finite x = true → two_decimal_places (format_2f x).
Proof.
  destruct x as [s|s| |s m e]; try done; intros _.
  - exists s, "0", "00". done.
  - cbn [format_2f].
    exists s, (decimal (hundredths m e / 100)),
      (two_digits (hundredths m e mod 100)).
    split; [done|]. split; [apply decimal_nonempty|].
    split; [apply decimal_digits|]. apply two_digits_shape.
    by apply Z.mod_pos_bound.
Qed.

(** X6. The text of an event is its name, a colon and a space, its seconds
    and the word seconds. For a closed event the seconds are its end less its
    start, and the clock is not read; for an open one they are the next
    reading less its start. When the instants involved are of ordinary size
    the seconds are written with exactly two decimals. *)
Theorem event_str_two_decimals (e : Event) (σ : state) :
  ordinary (__start e) = true →
  (∀ t, __end e = Some t → ordinary t = true) →
  ordinary (clock (ticks σ)) = true →
  ∃ secs σ',
    Event_str clock e σ =
      Ok (name e +:+ ": " +:+ format_2f secs +:+ " seconds") σ' ∧
    two_decimal_places (format_2f secs) ∧
    match __end e with
    | Some t => secs = float_sub t (__start e) ∧ σ' = σ
    | None =>
        secs = float_sub (clock (ticks σ)) (__start e) ∧
        σ' = mkState (self σ) (S (ticks σ)) (stdout σ)
    end.
Proof.
  intros Hstart Hend Hnow. unfold Event_str.
  destruct (__end e) as [t|] eqn:He.
  - exists (float_sub t (__start e)), σ.
    rewrite (bind_Ok _ _ _ _ _ (seconds_closed e t σ He)).
    split; [by rewrite !string_app_assoc|]. split; [|done].
    apply format_2f_two_decimals, float_sub_finite; [by apply Hend|done].
  - eexists _, _.
    rewrite (bind_Ok _ _ _ _ _ (seconds_open e σ He)).
    split; [by rewrite !string_app_assoc|]. split; [|done].
    by apply format_2f_two_decimals, float_sub_finite.
Qed.

End Methods.

(** ** The results on sample runs *)

Lemma after_registry_ok (ops : list op) : registry_ok (_events (self (after ops))).
Proof. apply run_registry_ok, registry_ok_empty. Qed.

(** Three levels of nesting, a sibling and a new top-level event. *)
Lemma hrchy_is_nesting_depth_witness :
  ∃ σ',
    run sample_clock sample_to_string
      [Start "a"; Start "b"; Start "c"; End; End; Start "d"; End; End; Start "e"]
      (fresh true false) = Ok () σ' ∧
    ∀ k : nat,
      hrchy <$> (_events (self σ') !! (Z.of_nat k + 1)) = [1; 2; 3; 2; 1] !! k.
Proof.
  exact (hrchy_is_nesting_depth sample_clock sample_to_string
           [Start "a"; Start "b"; Start "c"; End; End; Start "d"; End; End;
            Start "e"] true false eq_refl).
Defined.

(** [start("A")], [end()], [end()]: the second [end] fails. *)
Lemma end_fails_iff_nothing_open_witness :
  end_ sample_clock (after all_ended) =
    Raise no_prior_open_events (after all_ended).
Proof.
  destruct (end_fails_iff_nothing_open sample_clock (after all_ended)
              (after_registry_ok all_ended)) as (Hexn & Hiff & _).
  destruct (proj2 Hiff) as (x & σ' & Hr).
  { change (map_Forall (λ _ e, is_open e = false)
              (_events (self (after all_ended)))).
    apply (bool_decide_unpack _). vm_compute. exact I. }
  destruct (Hexn x σ' Hr) as [-> ->]. exact Hr.
Defined.

(** C3, as stated: the first [start] on a new timer would return the id 1.
    It returns nothing. *)
Lemma start_returns_id_counterexample :
  ¬ ∃ σ', start sample_clock "A" (fresh true true) = Ok (VInt 1) σ'.
Proof. intros [σ' H]. vm_compute in H. discriminate H. Qed.

(** A third event after a nested pair. *)
Lemma start_assigns_next_id_witness :
  ∃ σ' e,
    start sample_clock "next" (after inner_ended) = Ok VNone σ' ∧
    _events (self σ') !! 3 = Some e ∧ uid e = 3 ∧ name e = "next".
Proof.
  destruct (start_assigns_next_id sample_clock "next" (after inner_ended)
              (after_registry_ok inner_ended))
    as (σ' & e & Hs & Hev & _ & Hu & Hn & _).
  exists σ', e. split; [exact Hs|]. rewrite Hev.
  split; [apply lookup_insert_eq|]. split; [exact Hu|exact Hn].
Defined.

(** A report after a nested pair and one error. *)
Lemma report_clears_spans_keeps_errors_witness :
  ∃ σ1,
    print_summary sample_clock sample_to_string (Some "Run")
      (after (inner_ended ++ [LogErr "parse" (VStr "row42") "bad id"])) =
      Ok VNone σ1 ∧
    _events (self σ1) = ∅ ∧
    errors (self σ1) = [mkErrRow "parse" (VStr "row42") "bad id"].
Proof.
  destruct (report_clears_spans_keeps_errors sample_clock sample_to_string
              (Some "Run")
              (after (inner_ended ++ [LogErr "parse" (VStr "row42") "bad id"]))
              (after_registry_ok _))
    as (σ1 & Hp & Hev & Herr & _).
  exists σ1. split; [exact Hp|]. split; [exact Hev|]. rewrite Herr.
  vm_compute. reflexivity.
Defined.

(** After [start("outer")], [start("inner")], [end()], one more [end]
    closes the outer event. *)
Lemma duplicate_end_closes_earlier_span_witness :
  ∃ σ',
    end_ sample_clock (after inner_ended) = Ok VNone σ' ∧
    is_open <$> (_events (self σ') !! 1) = Some false ∧
    name <$> (_events (self σ') !! 1) = Some "outer".
Proof.
  destruct (duplicate_end_closes_earlier_span sample_clock (after inner_ended)
              (mkEvent "inner" 2 2 (Some 1) (sample_clock 1) (Some (sample_clock 2)))
              (mkEvent "outer" 1 1 None (sample_clock 0) None) 1
              (after_registry_ok inner_ended))
    as (p & e & σ' & Hr & Hp & He & Ho & Hmax & Hev & _).
  - vm_compute. reflexivity.
  - reflexivity.
  - vm_compute. reflexivity.
  - reflexivity.
  - exists σ'. split; [exact Hr|]. rewrite Hev.
    assert (p = 1) as ->.
    { apply Z.le_antisymm.
      - replace (Z.of_nat (size (_events (self (after inner_ended))))) with 2 in Hp
          by (vm_compute; reflexivity).
        lia.
      - apply (Hmax 1 (mkEvent "outer" 1 1 None (sample_clock 0) None));
          [vm_compute; reflexivity|reflexivity]. }
    rewrite lookup_insert_eq.
    replace (_events (self (after inner_ended)) !! 1)
      with (Some (mkEvent "outer" 1 1 None (sample_clock 0) None)) in He
      by (vm_compute; reflexivity).
    injection He as <-. split; reflexivity.
Defined.

(** The report of a nested pair: the outer event is still open and takes the
    fourth reading of the clock, 2.25 seconds after its start; the inner one
    lasted 0.75 seconds. Both ties go to the even digit. *)
Lemma summary_lines_in_creation_order_witness :
  (∃ σ',
     print_summary sample_clock sample_to_string (Some "Run")
       (after inner_ended) = Ok VNone σ' ∧
     last (stdout σ') =
       Some (nl +:+ SECTION_DIVIDE +:+ nl +:+ "Run" +:+ nl +:+ nl +:+
             "outer: 2.2s" +:+ nl +:+
             "   inner: 0.8s" +:+ nl +:+
             nl +:+ SECTION_DIVIDE +:+ nl)) ∧
  (∀ (k : nat) e s,
     spans (_events (self (after inner_ended))) !! k = Some e →
     elapsed sample_clock (ticks (after inner_ended))
       (spans (_events (self (after inner_ended)))) !! k = Some s →
     one_decimal_place (format_1f s)).
Proof.
  destruct (summary_lines_in_creation_order sample_clock sample_to_string
              (Some "Run") (after inner_ended) (after_registry_ok inner_ended))
    as ((σ' & Hp & Hout) & _ & _ & _ & Hlines).
  split.
  - exists σ'. split; [exact Hp|]. rewrite Hout. vm_compute. reflexivity.
  - intros k e s He Hs.
    destruct (Hlines k e s He Hs) as (_ & _ & _ & _ & Hdec).
    apply Hdec; [exact sample_clock_ordinary|].
    apply run_instants_ok;
      [exact sample_clock_ordinary|exact registry_ok_empty|exact instants_ok_empty].
Defined.

(** [record("parse", "row42", "bad id")] then [report("Run")] on a new
    timer, with the sample table printer. *)
Lemma exceptions_section_iff_errors_witness :
  ∃ σ1 σ2,
    log_err "parse" (VStr "row42") "bad id" (fresh true false) = Ok VNone σ1 ∧
    print_summary sample_clock sample_to_string (Some "Run") σ1 = Ok VNone σ2 ∧
    stdout σ2 =
      [nl +:+ SECTION_DIVIDE +:+ nl +:+ "Run" +:+ nl +:+ nl +:+
       SECTION_DIVIDE +:+ nl +:+ "Exceptions" +:+ nl +:+ nl +:+
       "parse bad id" +:+
       nl +:+ SECTION_DIVIDE +:+ nl].
Proof.
  destruct (exceptions_section_iff_errors sample_clock sample_to_string None
              (fresh true false) registry_ok_empty)
    as (_ & _ & _ & Hscenario).
  destruct (Hscenario true false) as (σ1 & σ2 & Hl & _ & Hp & Hout).
  exists σ1, σ2. split; [exact Hl|]. split; [exact Hp|exact Hout].
Defined.

(** An event that was ended keeps its end instant through later calls,
    a failing [end] included. *)
Lemma closed_event_never_reassigned_witness :
  _events (self (final (run sample_clock sample_to_string
     [Start "B"; End; LogErr "m" VNone "d"; End; Start "C"]
     (after all_ended)))) !! 1 =
  Some (mkEvent "A" 1 1 None (sample_clock 0) (Some (sample_clock 1))).
Proof.
  destruct (closed_event_never_reassigned sample_clock sample_to_string
              [Start "B"; End; LogErr "m" VNone "d"; End; Start "C"]
              (after all_ended) 1
              (mkEvent "A" 1 1 None (sample_clock 0) (Some (sample_clock 1)))
              (sample_clock 1) (after_registry_ok all_ended))
    as [[H|[header Hin]] _].
  - vm_compute. reflexivity.
  - reflexivity.
  - exact H.
  - exfalso.
    repeat (apply elem_of_cons in Hin as [Hin|Hin]; [discriminate Hin|]).
    by apply elem_of_nil in Hin.
Defined.

(** Recording an error after a nested pair. *)
Lemma log_err_appends_one_record_witness :
  ∃ σ',
    log_err "parse" (VStr "row42") "bad id" (after inner_ended) = Ok VNone σ' ∧
    errors (self σ') = [mkErrRow "parse" (VStr "row42") "bad id"] ∧
    _events (self σ') = _events (self (after inner_ended)).
Proof.
  destruct (log_err_appends_one_record sample_clock sample_to_string
              "parse" (VStr "row42") "bad id" [] (after inner_ended))
    as [(σ' & Hl & Herr & Hev & _) _].
  exists σ'. split; [exact Hl|]. split; [exact Herr|exact Hev].
Defined.

(** After a report, the keys start again from 1. *)
Lemma registry_keys_contiguous_witness :
  dom (_events (self (after (inner_ended ++ [Report None; Start "next"])))) =
    list_to_set (seqZ 1 1) ∧
  size (_events (self (after (inner_ended ++ [Report None; Start "next"])))) = 1%nat.
Proof.
  destruct (registry_keys_contiguous sample_clock sample_to_string
              (inner_ended ++ [Report None; Start "next"]) true false)
    as (Hdom & _ & _ & Hsize).
  pose proof (Hsize (after (inner_ended ++ [Report None; Start "next"]))
                ltac:(vm_compute; reflexivity)) as Hn.
  split; [|exact Hn]. unfold after. rewrite Hdom. by rewrite Hn.
Defined.

(** * Address fields *)

(** ** Splitting and joining *)

Lemma split_ws_words (s : string) : Forall is_word (split_ws s).
Proof.
  induction s as [|c s IH]; [constructor|]. cbn [split_ws].
  destruct (py_isspace c) eqn:Hc; [done|].
  assert (is_word (String c "")) as Hw.
  { split; [done|]. cbn. by rewrite Hc. }
  destruct (at_word_end s); [by constructor|].
  destruct (split_ws s) as [|w ws]; [by constructor|].
  apply Forall_cons in IH as [[Hne Hns] Hws].
  constructor; [|done]. split; [done|]. cbn. by rewrite Hc.
Qed.

Lemma append_cons (c : ascii) (a b : string) :
  String c a +:+ b = String c (a +:+ b).
Proof. reflexivity. Qed.

Lemma append_nil_l (a : string) : "" +:+ a = a.
Proof. reflexivity. Qed.

Lemma join_sp_cons (w w' : string) (ws : list string) :
  join_sp (w :: w' :: ws) = w +:+ " " +:+ join_sp (w' :: ws).
Proof. reflexivity. Qed.

Lemma at_word_end_word (w r : string) :
  is_word w → at_word_end (w +:+ r) = false.
Proof.
  intros [Hne Hns]. destruct w as [|c w]; [done|].
  rewrite append_cons. cbn in *. by destruct (py_isspace c).
Qed.

(** A word is split off whole when what follows is at a word end. *)
Lemma split_ws_word (w r : string) :
  is_word w → at_word_end r = true → split_ws (w +:+ r) = w :: split_ws r.
Proof.
  intros [Hne Hns] Hr. induction w as [|c w IH]; [done|].
  rewrite append_cons. cbn [split_ws]. cbn [has_no_space] in Hns.
  apply andb_true_iff in Hns as [Hc Hns]. apply negb_true_iff in Hc.
  rewrite Hc. destruct w as [|c' w'].
  - rewrite append_nil_l, Hr. done.
  - rewrite (at_word_end_word (String c' w') r) by done.
    rewrite IH by done. done.
Qed.

(** Splitting what was joined gives the words back. *)
Lemma split_ws_join (ws : list string) :
  Forall is_word ws → split_ws (join_sp ws) = ws.
Proof.
  induction 1 as [|w ws Hw Hws IH]; [done|].
  destruct ws as [|w' ws'].
  - change (join_sp [w]) with w. rewrite <- (string_app_nil_r w) at 1.
    by rewrite split_ws_word.
  - rewrite join_sp_cons.
    change (" " +:+ join_sp (w' :: ws')) with (String " " (join_sp (w' :: ws'))).
    rewrite split_ws_word by done. f_equal. exact IH.
Qed.

Lemma strip_ws_word (w : string) : has_no_space w = true → strip_ws w = w.
Proof.
  induction w as [|c w IH]; [done|]. cbn. intros [Hc Hw]%andb_true_iff.
  apply negb_true_iff in Hc. rewrite Hc. by rewrite IH.
Qed.

Lemma strip_ws_app (a b : string) :
  strip_ws (a +:+ b) = strip_ws a +:+ strip_ws b.
Proof.
  induction a as [|c a IH]; [done|]. rewrite append_cons. cbn.
  destruct (py_isspace c); [done|]. by rewrite append_cons, IH.
Qed.

Lemma strip_ws_join (ws : list string) :
  Forall is_word ws → strip_ws (join_sp ws) = String.concat "" ws.
Proof.
  induction 1 as [|w ws [_ Hw] Hws IH]; [done|].
  rewrite concat_cons. destruct ws as [|w' ws'].
  - change (join_sp [w]) with w. rewrite strip_ws_word by done.
    by rewrite string_app_nil_r.
  - rewrite join_sp_cons, !strip_ws_app, IH. rewrite strip_ws_word by done.
    done.
Qed.

Lemma concat_split_ws (s : string) : String.concat "" (split_ws s) = strip_ws s.
Proof.
  induction s as [|c s IH]; [done|]. cbn [split_ws strip_ws].
  destruct (py_isspace c); [done|].
  destruct (at_word_end s).
  - by rewrite concat_cons, IH.
  - destruct (split_ws s) as [|w ws].
    + by rewrite <- IH.
    + rewrite concat_cons, append_cons. f_equal.
      by rewrite <- IH, concat_cons.
Qed.

Lemma length_join_split (s : string) :
  (String.length (join_sp (split_ws s)) ≤ String.length s)%nat ∧
  (s ≠ "" → at_word_end s = true →
   (S (String.length (join_sp (split_ws s))) ≤ String.length s)%nat).
Proof.
  induction s as [|c s [IH1 IH2]]; [done|]. cbn [split_ws at_word_end String.length].
  destruct (py_isspace c).
  - split; [lia|]. intros _ _. lia.
  - split; [|done].
    destruct (at_word_end s) eqn:Hs.
    + destruct (split_ws s) as [|w ws] eqn:Hsp.
      * cbn. lia.
      * rewrite join_sp_cons, append_cons, append_nil_l.
        change (" " +:+ join_sp (w :: ws)) with (String " " (join_sp (w :: ws))).
        destruct s as [|c' s']; [done|]. specialize (IH2 ltac:(done) eq_refl).
        cbn [String.length] in *. lia.
    + destruct (split_ws s) as [|w ws] eqn:Hsp.
      * cbn. lia.
      * assert (join_sp (String c w :: ws) = String c (join_sp (w :: ws))) as ->.
        { destruct ws; reflexivity. }
        cbn [String.length]. lia.
Qed.

Lemma split_ws_nonempty (s : string) : at_word_end s = false → split_ws s ≠ [].
Proof.
  destruct s as [|c s]; [done|]. cbn. intros ->.
  destruct (at_word_end s); [done|]. by destruct (split_ws s).
Qed.

Lemma at_word_end_app (a b : string) :
  at_word_end (a +:+ String " " b) = at_word_end a.
Proof. by destruct a. Qed.

(** Splitting sees a space between two texts as a word end. *)
Lemma split_ws_app (a b : string) :
  split_ws (a +:+ " " +:+ b) = split_ws a ++ split_ws b.
Proof.
  change (" " +:+ b) with (String " " b).
  induction a as [|c a IH]; [done|]. rewrite append_cons. cbn [split_ws].
  rewrite at_word_end_app, IH. destruct (py_isspace c); [done|].
  destruct (at_word_end a) eqn:Ha; [done|].
  pose proof (split_ws_nonempty a Ha). by destruct (split_ws a).
Qed.

Lemma join_sp_app (ws1 ws2 : list string) :
  ws1 ≠ [] → ws2 ≠ [] →
  join_sp (ws1 ++ ws2) = join_sp ws1 +:+ " " +:+ join_sp ws2.
Proof.
  intros H1 H2. induction ws1 as [|w ws1 IH]; [done|].
  destruct ws1 as [|w' ws1'].
  - destruct ws2; [done|]. reflexivity.
  - cbn [app] in *. rewrite !join_sp_cons, IH by done.
    by rewrite !string_app_assoc.
Qed.

(** ** Tidy texts *)

Lemma tidy_from_no_space (w r : string) :
  has_no_space w = true → tidy_from false (w +:+ r) = tidy_from false r.
Proof.
  induction w as [|c w IH]; [done|]. rewrite append_cons. cbn.
  intros [Hc Hw]%andb_true_iff. apply negb_true_iff in Hc. rewrite Hc. auto.
Qed.

Lemma tidy_from_word (b : bool) (w r : string) :
  is_word w → tidy_from b (w +:+ r) = tidy_from false r.
Proof.
  intros [Hne Hw]. destruct w as [|c w]; [done|]. rewrite append_cons.
  cbn in *. apply andb_true_iff in Hw as [Hc Hw]. apply negb_true_iff in Hc.
  rewrite Hc. by apply tidy_from_no_space.
Qed.

Lemma tidy_from_join (ws : list string) :
  Forall is_word ws → ws ≠ [] → tidy_from true (join_sp ws) = true.
Proof.
  induction 1 as [|w ws Hw Hws IH]; [done|]. intros _.
  destruct ws as [|w' ws'].
  - change (join_sp [w]) with w. rewrite <- (string_app_nil_r w).
    by rewrite tidy_from_word.
  - rewrite join_sp_cons, tidy_from_word by done.
    change (" " +:+ join_sp (w' :: ws')) with (String " " (join_sp (w' :: ws'))).
    cbn. by apply IH.
Qed.

Lemma tidy_join (ws : list string) : Forall is_word ws → tidy (join_sp ws) = true.
Proof.
  intros Hws. destruct ws as [|w ws]; [done|].
  pose proof (tidy_from_join _ Hws ltac:(done)) as H.
  unfold tidy. by destruct (join_sp (w :: ws)).
Qed.

(** The first character of a text dropped. *)
Lemma tidy_from_fixed (s : string) :
  ∀ b, tidy_from b s = true →
    join_sp (split_ws s) =
      (if at_word_end s then match s with String _ s' => s' | "" => "" end
       else s) ∧
    (b = true → at_word_end s = false) ∧
    (at_word_end s = true → s ≠ "" → split_ws s ≠ []).
Proof.
  induction s as [|c s IH]; intros b Ht.
  - cbn in *. apply negb_true_iff in Ht. by subst b.
  - cbn [tidy_from] in Ht. cbn [split_ws at_word_end].
    destruct (py_isspace c) eqn:Hc.
    + apply andb_true_iff in Ht as [[Hsp Hb]%andb_true_iff Ht].
      apply negb_true_iff in Hb. subst b.
      destruct (IH true Ht) as (Hj & Hw & _). specialize (Hw eq_refl).
      rewrite Hw in Hj. split; [done|]. split; [done|].
      intros _ _. by apply split_ws_nonempty.
    + split; [|done]. destruct (IH false Ht) as (Hj & _ & Hne).
      destruct (at_word_end s) eqn:Hs.
      * destruct s as [|c' s']; [done|]. specialize (Hne eq_refl ltac:(done)).
        destruct (split_ws (String c' s')) as [|w ws]; [done|].
        rewrite join_sp_cons, Hj, append_cons, append_nil_l.
        cbn [tidy_from] in Ht. cbn in Hs. rewrite Hs in Ht.
        apply andb_true_iff in Ht as [[Hsp _]%andb_true_iff _].
        apply bool_decide_eq_true in Hsp. by subst c'.
      * pose proof (split_ws_nonempty s Hs).
        destruct (split_ws s) as [|w ws]; [done|].
        assert (join_sp (String c w :: ws) = String c (join_sp (w :: ws))) as ->.
        { destruct ws; reflexivity. }
        by rewrite Hj.
Qed.

(** Joining the words of a tidy text gives the text back. *)
Lemma tidy_fixed (s : string) : tidy s = true → join_sp (split_ws s) = s.
Proof.
  destruct s as [|c s]; [done|]. unfold tidy. intros Ht.
  destruct (tidy_from_fixed _ _ Ht) as (Hj & Hw & _).
  by rewrite (Hw eq_refl) in Hj.
Qed.

(** ** [clean_street_address] *)

(** X7. Cleaning a street address twice is cleaning it once, and leaves
    its words, those that [split()] finds, as they are; what is not a text
    (a missing street, read as NaN) is handed back unchanged. *)
Theorem clean_street_address_idempotent (address : cell) :
  clean_street_address (clean_street_address address) =
    clean_street_address address ∧
  (∀ s, address = CStr s →
     ∃ s', clean_street_address address = CStr s' ∧ split_ws s' = split_ws s) ∧
  ((∀ s, address ≠ CStr s) → clean_street_address address = address).
Proof.
  split; [|split].
  - destruct address as [| | | |s]; try done. cbn.
    by rewrite split_ws_join by apply split_ws_words.
  - intros s ->. eexists. split; [done|]. apply split_ws_join, split_ws_words.
  - intros Hns. destruct address as [| | | |s]; try done. by destruct (Hns s).
Qed.

(** X8. A cleaned street address is tidy: it is empty or made of words
    with exactly one space between them, with no other whitespace and none
    at either end. The texts the cleaning leaves as they are are exactly the
    tidy ones. *)
Theorem clean_street_address_tidy (s : string) :
  (∃ s', clean_street_address (CStr s) = CStr s' ∧ tidy s' = true) ∧
  (clean_street_address (CStr s) = CStr s ↔ tidy s = true).
Proof.
  split.
  - eexists. split; [done|]. apply tidy_join, split_ws_words.
  - cbn. split.
    + intros [= Hs]. rewrite <- Hs. apply tidy_join, split_ws_words.
    + intros Ht. by rewrite tidy_fixed.
Qed.

(** X9. Cleaning a street address only removes or replaces whitespace: the
    characters that are not whitespace are the same, in the same order, and
    the text does not get longer. *)
Theorem clean_street_address_keeps_characters (s : string) :
  ∃ s',
    clean_street_address (CStr s) = CStr s' ∧
    strip_ws s' = strip_ws s ∧
    (String.length s' ≤ String.length s)%nat.
Proof.
  eexists. split; [done|]. split.
  - rewrite strip_ws_join by apply split_ws_words. apply concat_split_ws.
  - apply length_join_split.
Qed.

(** ** [create_full_address] and [create_full_address_old] *)

Section AddressResults.

Variable repr_float : float → string.

(** X10. Whenever [create_full_address] gives a text,
    [create_full_address_old] gives that text followed by a comma, a space
    and the zip code; whenever [create_full_address] fails, for a missing
    column, [create_full_address_old] fails in the same way. Without a
    BUILDING column both fail, whatever the other columns. *)
Theorem create_full_address_old_extends (row : gmap string cell) :
  (∀ a z,
     create_full_address repr_float row = inr (CStr a) →
     row !! "ZIPCODE" = Some z →
     create_full_address_old repr_float row =
       inr (CStr (a +:+ ", " +:+ str_cell repr_float z))) ∧
  (∀ x,
     create_full_address repr_float row = inl x →
     create_full_address_old repr_float row = inl x) ∧
  (row !! "BUILDING" = None →
   create_full_address repr_float row = inl (PKeyError "BUILDING") ∧
   create_full_address_old repr_float row = inl (PKeyError "BUILDING")).
Proof.
  unfold create_full_address, create_full_address_old, row_getitem.
  destruct (row !! "BUILDING") as [b|] eqn:Hb; cbn; [|done].
  destruct (cell_eq_str b "NKA") eqn:Hnka.
  - destruct (row !! "STREET") as [st|]; cbn; [|done].
    split; [|done]. intros a z [= ->] ->. done.
  - destruct (row !! "STREET") as [st|]; cbn; [|done].
    split; [|done]. intros a z [= <-] ->. cbn. by rewrite !string_app_assoc.
Qed.

(** X11. [load_inspection_data] cleans the street and then builds the full
    address. For a building and a street that are texts, the building not
    being the marker NKA, the words of the full address are the words of the
    building followed by the words of the street as read; when the building
    is tidy and not empty and the street has a word, the full address is
    tidy. *)
Theorem full_address_of_clean_street (row : gmap string cell) (b s : string) :
  row !! "BUILDING" = Some (CStr b) → b ≠ "NKA" →
  row !! "STREET" = Some (CStr s) →
  ∃ a,
    create_full_address repr_float
      (<["STREET" := clean_street_address (CStr s)]> row) = inr (CStr a) ∧
    split_ws a = split_ws b ++ split_ws s ∧
    (tidy b = true → b ≠ "" → split_ws s ≠ [] → tidy a = true).
Proof.
  intros Hb Hnka Hs. unfold create_full_address, row_getitem.
  assert (∀ v, <["STREET" := v]> row !! "BUILDING" = Some (CStr b)) as Hb'
    by (intros v; by rewrite lookup_insert_ne).
  unfold mbind, mret, E_bind, E_ret. rewrite Hb'. cbv beta iota.
  cbn [cell_eq_str]. rewrite bool_decide_eq_false_2 by done.
  rewrite lookup_insert_eq. cbv beta iota. cbn [str_cell clean_street_address].
  eexists. split; [done|]. split.
  - rewrite split_ws_app. f_equal. apply split_ws_join, split_ws_words.
  - intros Ht Hne Hw. rewrite <- (tidy_fixed b Ht).
    assert (split_ws b ≠ []) as Hbw.
    { intros H0. apply Hne. rewrite <- (tidy_fixed b Ht). by rewrite H0. }
    rewrite <- join_sp_app by done. apply tidy_join.
    apply Forall_app. split; apply split_ws_words.
Qed.

End AddressResults.

(** * Results on the fields of a Yelp business *)

(** ** The monad of the getters *)

Lemma dbind_DOk {A B} (m : D A) (f : A → D B) (σ σ' : state) (b : B) :
  (m ≫= f) σ = DOk b σ' ↔ ∃ a σ1, m σ = DOk a σ1 ∧ f a σ1 = DOk b σ'.
Proof.
  unfold mbind, D_bind. split.
  - destruct (m σ) as [a σ1|x σ1]; [|done]. intros H. by exists a, σ1.
  - intros (a & σ1 & -> & H). exact H.
Qed.

Lemma dbind_raise {A B} (m : D A) (f : A → D B) (σ σ1 : state) (x : pyexn) :
  m σ = DRaise x σ1 → (m ≫= f) σ = DRaise x σ1.
Proof. unfold mbind, D_bind. by intros ->. Qed.

Lemma pure_E_inr {A} (m : E A) (a : A) (σ : state) :
  m = inr a → pure_E m σ = DOk a σ.
Proof. by intros ->. Qed.

Lemma pure_E_inl {A} (m : E A) (x : pyexn) (σ : state) :
  m = inl x → pure_E m σ = DRaise x σ.
Proof. by intros ->. Qed.

Lemma pure_E_DOk {A} (m : E A) (a : A) (σ σ' : state) :
  pure_E m σ = DOk a σ' ↔ m = inr a ∧ σ' = σ.
Proof.
  unfold pure_E. destruct m as [x|a']; split; try done.
  - by intros [[=] _].
  - by intros [= -> ->].
  - by intros [[= ->] ->].
Qed.

Lemma ebind_inr {A B} (m : E A) (f : A → E B) (b : B) :
  m ≫= f = inr b ↔ ∃ a, m = inr a ∧ f a = inr b.
Proof.
  unfold mbind, E_bind. destruct m as [x|a]; split; try done.
  - by intros (a & [=] & _).
  - intros H. by exists a.
  - by intros (a' & [= <-] & H).
Qed.

(** ** The error log *)

Lemma with_errors_nil (σ : state) : with_errors [] σ = σ.
Proof.
  destruct σ as [[] ? ?]. unfold with_errors, set_errors. cbn.
  by rewrite app_nil_r.
Qed.

Lemma with_errors_app (a b : list ErrRow) (σ : state) :
  with_errors b (with_errors a σ) = with_errors (a ++ b) σ.
Proof. unfold with_errors, set_errors. cbn. by rewrite app_assoc. Qed.

Lemma appends_at_most_pure {A} (v : value) (m : E A) :
  appends_at_most v 0 (pure_E m).
Proof.
  intros σ. exists []. rewrite with_errors_nil.
  split; [by destruct m|]. split; [done|constructor].
Qed.

Lemma appends_at_most_ret {A} (v : value) (a : A) :
  appends_at_most v 0 (mret a : D A).
Proof.
  intros σ. exists []. rewrite with_errors_nil. split; [done|].
  split; [done|constructor].
Qed.

Lemma appends_at_most_bind {A B} (v : value) (n k : nat) (m : D A) (f : A → D B) :
  appends_at_most v n m → (∀ a, appends_at_most v k (f a)) →
  appends_at_most v (n + k) (m ≫= f).
Proof.
  intros Hm Hf σ. destruct (Hm σ) as (new & Hfin & Hl & Ha).
  unfold mbind, D_bind. destruct (m σ) as [a σ1|x σ1]; cbn in Hfin; subst σ1.
  - destruct (Hf a (with_errors new σ)) as (new' & Hfin' & Hl' & Ha').
    exists (new ++ new'). rewrite Hfin', with_errors_app.
    split; [done|]. split; [rewrite length_app; lia|by apply Forall_app].
  - exists new. split; [done|]. split; [lia|done].
Qed.

Lemma appends_at_most_try_except {A} (v : value) (n k : nat) (body handler : D A) :
  appends_at_most v n body → appends_at_most v k handler →
  appends_at_most v (n + k) (try_except body handler).
Proof.
  intros Hm Hh σ. destruct (Hm σ) as (new & Hfin & Hl & Ha).
  unfold try_except. destruct (body σ) as [a σ1|x σ1]; cbn in Hfin; subst σ1.
  - exists new. split; [done|]. split; [lia|done].
  - destruct (Hh (with_errors new σ)) as (new' & Hfin' & Hl' & Ha').
    exists (new ++ new'). rewrite Hfin', with_errors_app.
    split; [done|]. split; [rewrite length_app; lia|by apply Forall_app].
Qed.

Lemma appends_at_most_try_except_KeyError {A} (v : value) (n k : nat)
    (body handler : D A) :
  appends_at_most v n body → appends_at_most v k handler →
  appends_at_most v (n + k) (try_except_KeyError body handler).
Proof.
  intros Hm Hh σ. destruct (Hm σ) as (new & Hfin & Hl & Ha).
  unfold try_except_KeyError.
  destruct (body σ) as [a σ1|x σ1]; cbn in Hfin; subst σ1.
  - exists new. split; [done|]. split; [lia|done].
  - destruct (Hh (with_errors new σ)) as (new' & Hfin' & Hl' & Ha').
    destruct x; try (exists new; split; [done|]; split; [lia|done]).
    exists (new ++ new'). rewrite Hfin', with_errors_app.
    split; [done|]. split; [rewrite length_app; lia|by apply Forall_app].
Qed.

Section FieldResults.

Variable other_data_id : json → value.
Variable float_of_str : string → option float.
Variable int_of_str : string → option Z.

Lemma log_log_err_spec (method : string) (data_id : json) (info : string) (σ : state) :
  log_log_err other_data_id method data_id info σ =
    DOk tt (with_errors [mkErrRow method (data_id_of other_data_id data_id) info] σ).
Proof. reflexivity. Qed.

Lemma appends_at_most_log (method : string) (data_id : json) (info : string) :
  appends_at_most (data_id_of other_data_id data_id) 1
    (log_log_err other_data_id method data_id info).
Proof.
  intros σ. rewrite log_log_err_spec. eexists. split; [done|].
  split; [done|]. by repeat constructor.
Qed.

(** ** [_get_categories] *)

Lemma append_aliases_spec (items result r : list json) :
  append_aliases items result = inr r ↔
  ∃ aliases,
    Forall2 (λ c a, json_getitem c "alias" = inr a) items aliases ∧
    r = result ++ aliases.
Proof.
  revert result. induction items as [|c items IH]; intros result.
  - cbn. split.
    + intros [= <-]. exists []. split; [constructor|by rewrite app_nil_r].
    + intros (al & H & ->). inversion H. by rewrite app_nil_r.
  - cbn [append_aliases]. rewrite ebind_inr. split.
    + intros (a & Ha & Hr). apply IH in Hr as (al & Hal & ->).
      exists (a :: al). split; [by constructor|]. by rewrite <- app_assoc.
    + intros (al & H & ->). inversion H as [|? a ? al' Ha Hal]; subst.
      exists a. split; [done|]. apply IH. exists al'.
      split; [done|]. by rewrite <- app_assoc.
Qed.

(** The loop of [_get_categories] runs to its end exactly when the entry is
    there, can be iterated and every item has an alias. *)
Lemma categories_loop_inr (row : json) (r : option (list json)) :
  (categories ← json_getitem row "categories";
   items ← json_iter categories;
   result ← append_aliases items [];
   mret (Some result)) = inr r ↔
  ∃ categories items aliases,
    json_getitem row "categories" = inr categories ∧
    json_iter categories = inr items ∧
    Forall2 (λ c a, json_getitem c "alias" = inr a) items aliases ∧
    r = Some aliases.
Proof.
  rewrite ebind_inr. split.
  - intros (categories & Hc & H). apply ebind_inr in H as (items & Hi & H).
    apply ebind_inr in H as (result & Hr & [= <-]).
    apply append_aliases_spec in Hr as (aliases & Ha & ->).
    by exists categories, items, aliases.
  - intros (categories & items & aliases & Hc & Hi & Ha & ->).
    exists categories. split; [done|]. apply ebind_inr. exists items.
    split; [done|]. apply ebind_inr. exists aliases. split; [|done].
    apply append_aliases_spec. by exists aliases.
Qed.

Lemma get_categories_cases (row : json) (σ : state) :
  match (categories ← json_getitem row "categories";
         items ← json_iter categories;
         result ← append_aliases items [];
         mret (Some result)) with
  | inr (Some result) =>
      _get_categories row σ =
        DOk (if bool_decide (result = []) then NaN else JList result) σ
  | inr None => False
  | inl _ =>
      _get_categories row σ =
        DRaise match json_getitem row "id" with
               | inr _ => PTypeError
               | inl y => y
               end σ
  end.
Proof.
  unfold _get_categories.
  destruct (categories ← json_getitem row "categories";
            items ← json_iter categories;
            result ← append_aliases items [];
            mret (Some result)) as [x|[result|]] eqn:Hloop.
  - unfold mbind at 1, D_bind, try_except. cbn [pure_E].
    unfold mbind at 1, D_bind, pure_E.
    by destruct (json_getitem row "id").
  - unfold mbind at 1, D_bind, try_except. cbn [pure_E].
    by destruct (bool_decide (result = [])).
  - apply categories_loop_inr in Hloop as (? & ? & ? & _ & _ & _ & [=]).
Qed.

(** X12. [_get_categories] returns exactly when the categories entry is
    there, can be iterated and every item of it has an alias; what it
    returns is then the list of the aliases, one for each category and in
    their order, or NaN when there is no category. The timer is left as it
    was. *)
Theorem get_categories_returns (row v : json) (σ σ' : state) :
  _get_categories row σ = DOk v σ' ↔
  σ' = σ ∧
  ∃ categories items aliases,
    json_getitem row "categories" = inr categories ∧
    json_iter categories = inr items ∧
    Forall2 (λ c a, json_getitem c "alias" = inr a) items aliases ∧
    v = if bool_decide (aliases = []) then NaN else JList aliases.
Proof.
  pose proof (get_categories_cases row σ) as Hc.
  destruct (categories ← json_getitem row "categories";
            items ← json_iter categories;
            result ← append_aliases items [];
            mret (Some result)) as [x|[result|]] eqn:Hloop; [| |done].
  - rewrite Hc. split; [done|].
    intros (_ & categories & items & aliases & H1 & H2 & H3 & _).
    assert (inl x = inr (Some aliases) :> E (option (list json))) as [=].
    rewrite <- Hloop. apply categories_loop_inr.
    by exists categories, items, aliases.
  - rewrite Hc.
    apply categories_loop_inr in Hloop
      as (categories & items & aliases & H1 & H2 & H3 & [= ->]).
    split.
    + intros [= <- <-]. split; [done|]. by exists categories, items, aliases.
    + intros (-> & categories' & items' & aliases' & H1' & H2' & H3' & ->).
      rewrite H1 in H1'. injection H1' as <-.
      rewrite H2 in H2'. injection H2' as <-.
      assert (append_aliases items [] = inr aliases) as Ha
        by (apply append_aliases_spec; by exists aliases).
      assert (append_aliases items [] = inr aliases') as Ha'
        by (apply append_aliases_spec; by exists aliases').
      rewrite Ha in Ha'. by injection Ha' as <-.
Qed.

(** X13. When the categories entry is missing, cannot be iterated, or has
    an item without alias, [_get_categories] does not return NaN: its
    handler raises, [TypeError] when the row has an id and the error of
    [row['id']] otherwise, and no record reaches the error log. *)
Theorem get_categories_failure_raises (row : json) (σ : state) :
  (¬ ∃ categories items aliases,
       json_getitem row "categories" = inr categories ∧
       json_iter categories = inr items ∧
       Forall2 (λ c a, json_getitem c "alias" = inr a) items aliases) →
  ∃ y,
    _get_categories row σ = DRaise y σ ∧
    match json_getitem row "id" with
    | inr _ => y = PTypeError
    | inl z => y = z
    end.
Proof.
  intros Hno. pose proof (get_categories_cases row σ) as Hc.
  destruct (categories ← json_getitem row "categories";
            items ← json_iter categories;
            result ← append_aliases items [];
            mret (Some result)) as [x|[result|]] eqn:Hloop; [| |done].
  - eexists. split; [exact Hc|]. by destruct (json_getitem row "id").
  - apply categories_loop_inr in Hloop
      as (categories & items & aliases & H1 & H2 & H3 & _).
    destruct Hno. by exists categories, items, aliases.
Qed.

(** ** [_get_transactions] *)


(** ** [_get_item] *)

(** X15. [_get_item] hands back the field when the row has it. When the
    field is missing and the row has an id it returns NaN and appends one
    record, with the id and the name of the field, to the error log. When
    both are missing the handler raises [KeyError] for the id and nothing is
    logged; a row that is not a dict raises [TypeError], which the handler
    does not catch. *)
Theorem get_item_missing_field (row : json) (fld : string) (σ : state) :
  (∀ v, json_getitem row fld = inr v →
     _get_item other_data_id row fld σ = DOk v σ) ∧
  (∀ d id, row = JDict d → d !! fld = None → d !! "id" = Some id →
     _get_item other_data_id row fld σ =
       DOk NaN (with_errors
                  [mkErrRow "_get_item" (data_id_of other_data_id id) fld] σ)) ∧
  (∀ d, row = JDict d → d !! fld = None → d !! "id" = None →
     _get_item other_data_id row fld σ = DRaise (PKeyError "id") σ) ∧
  ((∀ d, row ≠ JDict d) →
     _get_item other_data_id row fld σ = DRaise PTypeError σ).
Proof.
  unfold _get_item, try_except_KeyError. split; [|split; [|split]].
  - intros v Hv. by rewrite (pure_E_inr _ v).
  - intros d id -> Hf Hid. cbn. rewrite Hf. cbn.
    unfold mbind at 1, D_bind, pure_E. by rewrite Hid.
  - intros d -> Hf Hid. cbn. rewrite Hf. cbn.
    unfold mbind at 1, D_bind, pure_E. by rewrite Hid.
  - intros Hnd. destruct row; try done. by destruct (Hnd d).
Qed.

(** ** [_get_price] *)

Lemma count_char_bounds (c : ascii) (s : string) :
  0 ≤ count_char c s ≤ Z.of_nat (String.length s).
Proof.
  induction s as [|c' s IH]; cbn [count_char String.length]; [lia|].
  destruct (bool_decide (c' = c)); lia.
Qed.



(** ** [_get_coord] *)

Lemma get_coord_cases (row : json) (coord : string) (σ : state) :
  match (coordinates ← json_getitem row "coordinates";
         c ← json_getitem coordinates coord;
         f ← py_float float_of_str c;
         mret (JFloat f)) with
  | inr v => _get_coord other_data_id float_of_str row coord σ = DOk v σ
  | inl _ =>
      _get_coord other_data_id float_of_str row coord σ =
        match json_getitem row "id" with
        | inr id =>
            DOk NaN (with_errors
                       [mkErrRow "_get_coord" (data_id_of other_data_id id) coord] σ)
        | inl y => DRaise y σ
        end
  end.
Proof.
  unfold _get_coord, try_except.
  destruct (coordinates ← json_getitem row "coordinates";
            c ← json_getitem coordinates coord;
            f ← py_float float_of_str c;
            mret (JFloat f)) as [x|v]; cbn [pure_E]; [|done].
  unfold mbind at 1, D_bind, pure_E. by destruct (json_getitem row "id").
Qed.

(** X17. On a row that has an id [_get_coord] never raises, whatever the
    coordinates entry holds, and always returns a float. When the entry and
    the coordinate are there and [float] accepts the value, it returns that
    float and leaves the timer as it was; in every other case it returns NaN
    and appends one record, with the id and the name of the coordinate, to
    the error log. *)
Theorem get_coord_total (row id : json) (coord : string) (σ : state) :
  json_getitem row "id" = inr id →
  let logged :=
    with_errors [mkErrRow "_get_coord" (data_id_of other_data_id id) coord] σ in
  (∃ f σ',
     _get_coord other_data_id float_of_str row coord σ = DOk (JFloat f) σ' ∧
     (σ' = σ ∨ f = S754_nan ∧ σ' = logged)) ∧
  (∀ cs c f,
     json_getitem row "coordinates" = inr cs →
     json_getitem cs coord = inr c →
     py_float float_of_str c = inr f →
     _get_coord other_data_id float_of_str row coord σ = DOk (JFloat f) σ) ∧
  ((¬ ∃ cs c f,
       json_getitem row "coordinates" = inr cs ∧
       json_getitem cs coord = inr c ∧
       py_float float_of_str c = inr f) →
   _get_coord other_data_id float_of_str row coord σ = DOk NaN logged).
Proof.
  intros Hid logged. pose proof (get_coord_cases row coord σ) as Hc.
  rewrite Hid in Hc.
  destruct (coordinates ← json_getitem row "coordinates";
            c ← json_getitem coordinates coord;
            f ← py_float float_of_str c;
            mret (JFloat f)) as [x|v] eqn:Hbody.
  - split; [|split].
    + exists S754_nan, logged. split; [exact Hc|]. by right.
    + intros cs c f H1 H2 H3.
      assert (inl x = inr (JFloat f) :> E json) as [=].
      rewrite <- Hbody. apply ebind_inr. exists cs. split; [done|].
      apply ebind_inr. exists c. split; [done|].
      apply ebind_inr. by exists f.
    + intros _. exact Hc.
  - apply ebind_inr in Hbody as (cs & H1 & Hbody).
    apply ebind_inr in Hbody as (c & H2 & Hbody).
    apply ebind_inr in Hbody as (f & H3 & [= <-]).
    split; [|split].
    + exists f, σ. split; [exact Hc|]. by left.
    + intros cs' c' f' H1' H2' H3'.
      rewrite H1 in H1'. injection H1' as <-.
      rewrite H2 in H2'. injection H2' as <-.
      rewrite H3 in H3'. injection H3' as <-. exact Hc.
    + intros Hno. destruct Hno. by exists cs, c, f.
Qed.

(** ** [_create_df_entry_from_json] *)

Lemma get_transactions_DOk (row v : json) (σ σ' : state) :
  _get_transactions row σ = DOk v σ' → σ' = σ ∧ truthy v = true.
Proof.
  unfold _get_transactions. intros H.
  apply dbind_DOk in H as (t & σ1 & Ht & H).
  apply pure_E_DOk in Ht as [Ht ->].
  destruct (truthy t) eqn:Htt; cbn in H; by injection H as <- <-.
Qed.

Lemma get_categories_DOk (row v : json) (σ σ' : state) :
  _get_categories row σ = DOk v σ' →
  (v = NaN ∨ ∃ l, l ≠ [] ∧ v = JList l) ∧
  ∃ categories items aliases,
    json_getitem row "categories" = inr categories ∧
    json_iter categories = inr items ∧
    Forall2 (λ c a, json_getitem c "alias" = inr a) items aliases.
Proof.
  intros H. pose proof (get_categories_cases row σ) as Hc.
  destruct (categories ← json_getitem row "categories";
            items ← json_iter categories;
            result ← append_aliases items [];
            mret (Some result)) as [x|[result|]] eqn:Hloop; [| |done].
  - by rewrite Hc in H.
  - rewrite Hc in H. injection H as <- <-.
    apply categories_loop_inr in Hloop
      as (categories & items & aliases & H1 & H2 & H3 & [= ->]).
    split; [|by exists categories, items, aliases].
    destruct (bool_decide_reflect (aliases = [])); [by left|right; eauto].
Qed.

Lemma get_coord_DOk (row v : json) (coord : string) (σ σ' : state) :
  _get_coord other_data_id float_of_str row coord σ = DOk v σ' →
  ∃ f, v = JFloat f.
Proof.
  intros H. pose proof (get_coord_cases row coord σ) as Hc.
  destruct (coordinates ← json_getitem row "coordinates";
            c ← json_getitem coordinates coord;
            f ← py_float float_of_str c;
            mret (JFloat f)) as [x|v'] eqn:Hbody.
  - rewrite Hc in H. destruct (json_getitem row "id"); [done|].
    injection H as <- _. by eexists.
  - rewrite Hc in H. injection H as <- _.
    apply ebind_inr in Hbody as (cs & _ & Hbody).
    apply ebind_inr in Hbody as (c & _ & Hbody).
    apply ebind_inr in Hbody as (f & _ & [= <-]). by eexists.
Qed.

Lemma json_count_dollar_inr (p v : json) :
  json_count_dollar p = inr v → ∃ n, 0 ≤ n ∧ v = JInt n.
Proof.
  destruct p; try done; intros [= <-]; eexists; (split; [|done]).
  - apply count_char_bounds.
  - lia.
Qed.

Lemma get_price_DOk (row v : json) (σ σ' : state) :
  _get_price other_data_id row σ = DOk v σ' →
  v = JNull ∨ ∃ n, 0 ≤ n ∧ v = JInt n.
Proof.
  unfold _get_price, try_except_KeyError. intros H.
  destruct (price ← json_getitem row "price"; json_count_dollar price)
    as [x|v'] eqn:Hbody; cbn [pure_E] in H.
  - destruct x; try done.
    apply dbind_DOk in H as (id & σ1 & _ & H).
    apply dbind_DOk in H as (u & σ2 & _ & H). injection H as <- _. by left.
  - injection H as <- _. right.
    apply ebind_inr in Hbody as (p & _ & Hp). by apply json_count_dollar_inr in Hp.
Qed.

(** X18. An entry that [_create_df_entry_from_json] returns is a dict with
    exactly the fifteen columns. Its id is the id of the row; latitude,
    longitude and rating are floats and review_count is an int; price is a
    count of at least 0 or [None]; transactions is never a false value;
    categories is NaN or a list that is not empty. The row then has a
    categories entry that can be iterated and whose items all have an
    alias. *)
Theorem create_df_entry_columns (row v : json) (σ σ' : state) :
  _create_df_entry_from_json other_data_id float_of_str int_of_str row σ =
    DOk v σ' →
  ∃ m id,
    v = JDict m ∧
    (∀ k, is_Some (m !! k) ↔ k ∈ entry_columns) ∧
    json_getitem row "id" = inr id ∧ m !! "id" = Some id ∧
    (∃ f, m !! "latitude" = Some (JFloat f)) ∧
    (∃ f, m !! "longitude" = Some (JFloat f)) ∧
    (∃ z, m !! "review_count" = Some (JInt z)) ∧
    (∃ f, m !! "rating" = Some (JFloat f)) ∧
    (m !! "price" = Some JNull ∨ ∃ n, 0 ≤ n ∧ m !! "price" = Some (JInt n)) ∧
    (∃ t, m !! "transactions" = Some t ∧ truthy t = true) ∧
    (m !! "categories" = Some NaN ∨
     ∃ l, l ≠ [] ∧ m !! "categories" = Some (JList l)) ∧
    ∃ categories items aliases,
      json_getitem row "categories" = inr categories ∧
      json_iter categories = inr items ∧
      Forall2 (λ c a, json_getitem c "alias" = inr a) items aliases.
Proof.
  unfold _create_df_entry_from_json. intros H.
  apply dbind_DOk in H as (id & σ1 & Hid & H).
  apply pure_E_DOk in Hid as [Hid _].
  apply dbind_DOk in H as (name_ & σ2 & _ & H).
  apply dbind_DOk in H as (url & σ3 & _ & H).
  apply dbind_DOk in H as (phone & σ4 & _ & H).
  apply dbind_DOk in H as (latitude & σ5 & Hlat & H).
  apply get_coord_DOk in Hlat as [flat ->].
  apply dbind_DOk in H as (longitude & σ6 & Hlon & H).
  apply get_coord_DOk in Hlon as [flon ->].
  apply dbind_DOk in H as (review_count & σ7 & Hrc & H).
  apply pure_E_DOk in Hrc as [Hrc _].
  apply ebind_inr in Hrc as (c & _ & Hrc).
  apply ebind_inr in Hrc as (z & _ & [= <-]).
  apply dbind_DOk in H as (price & σ8 & Hprice & H).
  apply get_price_DOk in Hprice.
  apply dbind_DOk in H as (rating & σ9 & Hrt & H).
  apply pure_E_DOk in Hrt as [Hrt _].
  apply ebind_inr in Hrt as (r & _ & Hrt).
  apply ebind_inr in Hrt as (frt & _ & [= <-]).
  apply dbind_DOk in H as (transactions & σ10 & Htr & H).
  apply get_transactions_DOk in Htr as [_ Htr].
  apply dbind_DOk in H as (categories & σ11 & Hcat & H).
  apply get_categories_DOk in Hcat as [Hcat Hrow].
  apply dbind_DOk in H as (address & σ12 & _ & H).
  apply dbind_DOk in H as (city & σ13 & _ & H).
  apply dbind_DOk in H as (state_ & σ14 & _ & H).
  apply dbind_DOk in H as (zip_code & σ15 & _ & H).
  injection H as <- _.
  eexists _, id. split; [reflexivity|]. split.
  { clear Hid Hprice Htr Hcat Hrow. intros k. unfold entry_columns.
    rewrite !lookup_insert_is_Some', !elem_of_cons, elem_of_nil.
    pose proof (lookup_empty_is_Some (M := gmap string) (A := json) k) as He.
    split; intros H'.
    - repeat (destruct H' as [<-|H']; [repeat first [by left|right]|]).
      by destruct He.
    - repeat (destruct H' as [->|H']; [repeat first [by left|right]|]).
      done. }
  split; [exact Hid|]. split; [reflexivity|].
  split; [by exists flat|]. split; [by exists flon|].
  split; [by exists z|]. split; [by exists frt|].
  split.
  { destruct Hprice as [->|(n & Hn & ->)]; [by left|right; by exists n]. }
  split; [by exists transactions|]. split; [|exact Hrow].
  destruct Hcat as [->|(l & Hl & ->)]; [by left|right; by exists l].
Qed.

(** X19. A row whose categories entry is missing, cannot be iterated, or
    has an item without alias never gives an entry:
    [_create_df_entry_from_json] raises, whatever the rest of the row. *)
Theorem create_df_entry_bad_categories_raises (row : json) (σ : state) :
  (¬ ∃ categories items aliases,
       json_getitem row "categories" = inr categories ∧
       json_iter categories = inr items ∧
       Forall2 (λ c a, json_getitem c "alias" = inr a) items aliases) →
  ∃ y σ',
    _create_df_entry_from_json other_data_id float_of_str int_of_str row σ =
      DRaise y σ'.
Proof.
  intros Hno.
  destruct (_create_df_entry_from_json other_data_id float_of_str int_of_str
              row σ) as [v σ'|y σ'] eqn:H; [|by eexists _, _].
  destruct Hno. unfold _create_df_entry_from_json in H.
  do 10 (apply dbind_DOk in H as (? & ? & _ & H)).
  apply dbind_DOk in H as (categories & σ11 & Hcat & _).
  by apply get_categories_DOk in Hcat as [_ Hrow].
Qed.

Lemma appends_at_most_bind_pure {A B} (v : value) (k : nat) (m : E A) (f : A → D B) :
  (∀ a, m = inr a → appends_at_most v k (f a)) →
  appends_at_most v k (pure_E m ≫= f).
Proof.
  intros Hf. destruct m as [x|a].
  - intros σ. exists []. rewrite with_errors_nil. split; [done|].
    split; [cbn; lia|constructor].
  - intros σ. exact (Hf a eq_refl σ).
Qed.

Lemma appends_at_most_handler (row id : json) (method info : string) (v : json) :
  json_getitem row "id" = inr id →
  appends_at_most (data_id_of other_data_id id) 1
    (id' ← pure_E (json_getitem row "id");
     _ ← log_log_err other_data_id method id' info;
     mret v).
Proof.
  intros Hid. apply appends_at_most_bind_pure. intros id'. rewrite Hid.
  intros [= <-]. apply (appends_at_most_bind _ 1 0).
  - apply appends_at_most_log.
  - intros _. apply appends_at_most_ret.
Qed.

Lemma appends_at_most_get_item (row id : json) (fld : string) :
  json_getitem row "id" = inr id →
  appends_at_most (data_id_of other_data_id id) 1 (_get_item other_data_id row fld).
Proof.
  intros Hid. apply (appends_at_most_try_except_KeyError _ 0 1).
  - apply appends_at_most_pure.
  - by apply appends_at_most_handler.
Qed.

Lemma appends_at_most_get_price (row id : json) :
  json_getitem row "id" = inr id →
  appends_at_most (data_id_of other_data_id id) 1 (_get_price other_data_id row).
Proof.
  intros Hid. apply (appends_at_most_try_except_KeyError _ 0 1).
  - apply appends_at_most_pure.
  - by apply appends_at_most_handler.
Qed.

Lemma appends_at_most_get_coord (row id : json) (coord : string) :
  json_getitem row "id" = inr id →
  appends_at_most (data_id_of other_data_id id) 1
    (_get_coord other_data_id float_of_str row coord).
Proof.
  intros Hid. apply (appends_at_most_try_except _ 0 1).
  - apply appends_at_most_pure.
  - by apply appends_at_most_handler.
Qed.

Lemma appends_at_most_get_transactions (v : value) (row : json) :
  appends_at_most v 0 (_get_transactions row).
Proof.
  apply (appends_at_most_bind _ 0 0); [apply appends_at_most_pure|].
  intros t. destruct (negb (truthy t)); apply appends_at_most_ret.
Qed.

Lemma appends_at_most_get_categories (v : value) (row : json) :
  appends_at_most v 0 (_get_categories row).
Proof.
  intros σ. exists []. rewrite with_errors_nil. split; [|split; [done|constructor]].
  pose proof (get_categories_cases row σ) as Hc.
  destruct (categories ← json_getitem row "categories";
            items ← json_iter categories;
            result ← append_aliases items [];
            mret (Some result)) as [x|[result|]]; [| |done]; by rewrite Hc.
Qed.

(** X20. Whatever the row holds and whether an entry results or an
    exception, [_create_df_entry_from_json] leaves the timer's events, clock
    and printed texts as they were and appends at most five records to the
    error log, each with the id of the row in the DataID column. A row
    without id raises at once and logs nothing. *)
Theorem create_df_entry_logs_at_most_five (row : json) :
  (∀ id, json_getitem row "id" = inr id →
     appends_at_most (data_id_of other_data_id id) 5
       (_create_df_entry_from_json other_data_id float_of_str int_of_str row)) ∧
  (∀ x σ, json_getitem row "id" = inl x →
     _create_df_entry_from_json other_data_id float_of_str int_of_str row σ =
       DRaise x σ).
Proof.
  split.
  - intros id Hid. unfold _create_df_entry_from_json, location_item.
    apply (appends_at_most_bind _ 0 5); [apply appends_at_most_pure|intros ?].
    apply (appends_at_most_bind _ 0 5); [apply appends_at_most_pure|intros ?].
    apply (appends_at_most_bind _ 1 4); [by apply appends_at_most_get_item|intros ?].
    apply (appends_at_most_bind _ 1 3); [by apply appends_at_most_get_item|intros ?].
    apply (appends_at_most_bind _ 1 2); [by apply appends_at_most_get_coord|intros ?].
    apply (appends_at_most_bind _ 1 1); [by apply appends_at_most_get_coord|intros ?].
    apply (appends_at_most_bind _ 0 1); [apply appends_at_most_pure|intros ?].
    apply (appends_at_most_bind _ 1 0); [by apply appends_at_most_get_price|intros ?].
    apply (appends_at_most_bind _ 0 0); [apply appends_at_most_pure|intros ?].
    apply (appends_at_most_bind _ 0 0);
      [apply appends_at_most_get_transactions|intros ?].
    apply (appends_at_most_bind _ 0 0);
      [apply appends_at_most_get_categories|intros ?].
    do 4 (apply (appends_at_most_bind _ 0 0); [apply appends_at_most_pure|intros ?]).
    apply appends_at_most_ret.
  - intros x σ Hx. unfold _create_df_entry_from_json.
    apply dbind_raise. by apply pure_E_inl.
Qed.

End FieldResults.

(** ** The results on sample inputs *)

(** The inner event of a nested pair has the outer one as its parent. *)
Lemma events_form_a_tree_witness :
  1 < 2 ∧
  ∃ pe, _events (self (after inner_ended)) !! 1 = Some pe ∧ 2 = hrchy pe + 1.
Proof.
  destruct (events_form_a_tree sample_clock sample_to_string inner_ended
              true false 2
              (mkEvent "inner" 2 2 (Some 1) (sample_clock 1) (Some (sample_clock 2))))
    as (_ & _ & Hp).
  { vm_compute. reflexivity. }
  destruct (Hp 1 eq_refl) as (Hlt & pe & Hpe & Hh & _).
  split; [exact Hlt|]. exists pe. split; [exact Hpe|exact Hh].
Defined.

(** After a nested pair with the inner event ended, and one [end] too
    many. *)
Lemma open_events_are_a_stack_witness :
  let σ := after (inner_ended ++ [End; End]) in
  let ev := _events (self σ) in
  ∃ stk : list Z,
    (∀ i, i ∈ stk ↔ ∃ e, ev !! i = Some e ∧ is_open e = true) ∧
    StronglySorted (λ a b, b < a) stk ∧
    length stk = size (filter (λ kv, is_open kv.2 = true) ev) ∧
    (∀ (k : nat) i, stk !! k = Some i →
       hrchy <$> ev !! i = Some (Z.of_nat (length stk - k))) ∧
    (∀ name, ∃ σ' e,
       start sample_clock name σ = Ok VNone σ' ∧
       _events (self σ') !! (Z.of_nat (size ev) + 1) = Some e ∧
       hrchy e = Z.of_nat (length stk) + 1 ∧ pid e = head stk).
Proof.
  exact (open_events_are_a_stack sample_clock sample_to_string
           (inner_ended ++ [End; End]) true false).
Defined.

(** A block with one event and one error record, run inside an open
    event. *)
Lemma balanced_block_restores_open_events_witness :
  ∃ σ',
    run sample_clock sample_to_string
      [Start "inner"; LogErr "parse" (VStr "row42") "bad id"; End]
      (after [Start "outer"]) = Ok () σ' ∧
    nearest_open (_events (self σ')) (Some 1).
Proof.
  destruct (balanced_block_restores_open_events sample_clock sample_to_string
              [Start "inner"; LogErr "parse" (VStr "row42") "bad id"; End]
              (after [Start "outer"]) (after_registry_ok _))
    as (σ' & Hr & _ & _ & Hn).
  { split; reflexivity. }
  exists σ'. split; [exact Hr|]. apply Hn. split.
  { exists (mkEvent "outer" 1 1 None (sample_clock 0) None).
    split; [vm_compute; reflexivity|reflexivity]. }
  intros j e Hj Ho.
  assert (is_Some (_events (self (after [Start "outer"])) !! j)) as Hs by eauto.
  apply (proj1 (after_registry_ok [Start "outer"])) in Hs.
  replace (Z.of_nat (size (_events (self (after [Start "outer"]))))) with 1 in Hs
    by (vm_compute; reflexivity).
  lia.
Defined.

(** A nested pair and a report, with notices for [start] only: two notices
    and the report. *)
Lemma run_prints_notices_and_reports_witness :
  ∃ new,
    stdout (after (inner_ended ++ [Report None])) = new ∧ length new = 3%nat.
Proof.
  destruct (run_prints_notices_and_reports sample_clock sample_to_string
              (inner_ended ++ [Report None]) (fresh true false)
              (after (inner_ended ++ [Report None])) registry_ok_empty)
    as (_ & _ & new & Hout & Hlen).
  { vm_compute. reflexivity. }
  exists new. split; [exact Hout|exact Hlen].
Defined.

(** A nested pair with the inner event ended. *)
Lemma child_interval_inside_parent_witness :
  let σ := after inner_ended in
  let ev := _events (self σ) in
  ∃ born died : Z → nat,
    ∀ i e, ev !! i = Some e →
      __start e = sample_clock (born i) ∧ (born i < ticks σ)%nat ∧
      (∀ t, __end e = Some t →
         t = sample_clock (died i) ∧ (born i < died i < ticks σ)%nat) ∧
      (∀ j e', ev !! j = Some e' → j < i → (born j < born i)%nat) ∧
      (∀ p pe, pid e = Some p → ev !! p = Some pe →
         (born p < born i)%nat ∧
         (is_open pe = false →
          is_open e = false ∧ (died i < died p)%nat)).
Proof.
  exact (child_interval_inside_parent sample_clock sample_to_string
           inner_ended true false).
Defined.

(** The text of the outer event of a nested pair, still open when the clock
    is read for the fourth time. *)
Lemma event_str_two_decimals_witness :
  ∃ secs σ',
    Event_str sample_clock
      (mkEvent "outer" 1 1 None (sample_clock 0) None) (after inner_ended) =
      Ok ("outer" +:+ ": " +:+ format_2f secs +:+ " seconds") σ' ∧
    two_decimal_places (format_2f secs).
Proof.
  destruct (event_str_two_decimals sample_clock
              (mkEvent "outer" 1 1 None (sample_clock 0) None)
              (after inner_ended))
    as (secs & σ' & Hs & Ht & _).
  - apply sample_clock_ordinary.
  - intros t Ht. discriminate Ht.
  - apply sample_clock_ordinary.
  - exists secs, σ'. split; [exact Hs|exact Ht].
Defined.

(** A street with spaces at both ends and between its words. *)
Lemma clean_street_address_idempotent_witness :
  clean_street_address (clean_street_address (CStr "  EAST   93  STREET ")) =
    clean_street_address (CStr "  EAST   93  STREET ") ∧
  ∃ s', clean_street_address (CStr "  EAST   93  STREET ") = CStr s' ∧
        split_ws s' = split_ws "  EAST   93  STREET ".
Proof.
  destruct (clean_street_address_idempotent (CStr "  EAST   93  STREET "))
    as (Hi & Hw & _).
  split; [exact Hi|]. exact (Hw _ eq_refl).
Defined.

Lemma clean_street_address_tidy_witness :
  clean_street_address (CStr "EAST 93 STREET") = CStr "EAST 93 STREET".
Proof.
  apply (proj2 (clean_street_address_tidy "EAST 93 STREET")).
  reflexivity.
Defined.

Lemma clean_street_address_keeps_characters_witness :
  ∃ s',
    clean_street_address (CStr "  EAST   93  STREET ") = CStr s' ∧
    strip_ws s' = strip_ws "  EAST   93  STREET " ∧
    (String.length s' ≤ String.length "  EAST   93  STREET ")%nat.
Proof. exact (clean_street_address_keeps_characters "  EAST   93  STREET "). Defined.

(** A row with a building, a street and a zip code. *)
Lemma create_full_address_old_extends_witness :
  create_full_address_old (λ _, "nan")
    (<["BUILDING" := CStr "310"]> (<["STREET" := CStr "EAST 93 STREET"]>
       (<["ZIPCODE" := CInt 10128]> ∅))) =
    inr (CStr ("310 EAST 93 STREET" +:+ ", " +:+ str_cell (λ _, "nan") (CInt 10128))).
Proof.
  apply (proj1 (create_full_address_old_extends (λ _, "nan")
    (<["BUILDING" := CStr "310"]> (<["STREET" := CStr "EAST 93 STREET"]>
       (<["ZIPCODE" := CInt 10128]> ∅))))).
  - vm_compute. reflexivity.
  - vm_compute. reflexivity.
Defined.

(** The same row with an untidy street. *)
Lemma full_address_of_clean_street_witness :
  ∃ a,
    create_full_address (λ _, "nan")
      (<["STREET" := clean_street_address (CStr "EAST   93  STREET ")]>
         (<["BUILDING" := CStr "310"]>
            (<["STREET" := CStr "EAST   93  STREET "]> ∅))) = inr (CStr a) ∧
    tidy a = true.
Proof.
  destruct (full_address_of_clean_street (λ _, "nan")
              (<["BUILDING" := CStr "310"]>
                 (<["STREET" := CStr "EAST   93  STREET "]> ∅))
              "310" "EAST   93  STREET ")
    as (a & Ha & _ & Ht).
  - vm_compute. reflexivity.
  - intros H. discriminate H.
  - vm_compute. reflexivity.
  - exists a. split; [exact Ha|]. apply Ht.
    + reflexivity.
    + intros H. discriminate H.
    + intros H. vm_compute in H. discriminate H.
Defined.

(** ** The results on sample rows *)

(** The two categories of the sample business. *)
Lemma get_categories_returns_witness :
  _get_categories sample_business (fresh true false) =
    DOk (JList [JStr "japanese"; JStr "sushi"]) (fresh true false).
Proof.
  apply (proj2 (get_categories_returns sample_business
                  (JList [JStr "japanese"; JStr "sushi"])
                  (fresh true false) (fresh true false))).
  split; [reflexivity|].
  exists (JList [JDict (list_to_map [("alias", JStr "japanese");
                                     ("title", JStr "Japanese")]);
                 JDict (list_to_map [("alias", JStr "sushi");
                                     ("title", JStr "Sushi Bars")])]).
  eexists. exists [JStr "japanese"; JStr "sushi"].
  split; [vm_compute; reflexivity|]. split; [reflexivity|].
  split; [|reflexivity].
  constructor; [vm_compute; reflexivity|].
  constructor; [vm_compute; reflexivity|]. constructor.
Defined.

(** A categories entry that is [null]: the handler raises. *)
Lemma get_categories_failure_raises_witness :
  _get_categories sample_business_null_categories (fresh true false) =
    DRaise PTypeError (fresh true false).
Proof.
  destruct (get_categories_failure_raises sample_business_null_categories
              (fresh true false)) as (y & Hr & Hy).
  - intros (categories & items & aliases & H1 & H2 & _).
    vm_compute in H1. injection H1 as <-. discriminate H2.
  - vm_compute in Hy. rewrite Hy in Hr. exact Hr.
Defined.


(** The sample business has no phone. *)
Lemma get_item_missing_field_witness :
  _get_item (λ _, VNone) sample_business "phone" (fresh true false) =
    DOk NaN (with_errors [mkErrRow "_get_item" (VStr "koito-new-york") "phone"]
               (fresh true false)).
Proof.
  apply (proj1 (proj2 (get_item_missing_field (λ _, VNone) sample_business
                         "phone" (fresh true false)))
           _ (JStr "koito-new-york") eq_refl).
  - vm_compute. reflexivity.
  - vm_compute. reflexivity.
Defined.


(** The latitude of the sample business, and the latitude of a row without
    coordinates. *)
Lemma get_coord_total_witness :
  _get_coord (λ _, VNone) (λ _, None) sample_business "latitude" (fresh true false) =
    DOk (JFloat (binary_normalize 53 1024 163 (-2) false)) (fresh true false) ∧
  _get_coord (λ _, VNone) (λ _, None) sample_business_null_categories "latitude"
    (fresh true false) =
    DOk NaN (with_errors [mkErrRow "_get_coord" (VStr "koito-new-york") "latitude"]
               (fresh true false)).
Proof.
  split.
  - assert (json_getitem sample_business "id" = inr (JStr "koito-new-york"))
      as Hid by (vm_compute; reflexivity).
    destruct (get_coord_total (λ _, VNone) (λ _, None) sample_business
                (JStr "koito-new-york") "latitude" (fresh true false) Hid)
      as (_ & Hok & _).
    eapply Hok.
    + vm_compute. reflexivity.
    + vm_compute. reflexivity.
    + reflexivity.
  - assert (json_getitem sample_business_null_categories "id" =
              inr (JStr "koito-new-york")) as Hid by (vm_compute; reflexivity).
    destruct (get_coord_total (λ _, VNone) (λ _, None)
                sample_business_null_categories
                (JStr "koito-new-york") "latitude" (fresh true false) Hid)
      as (_ & _ & Hno).
    apply Hno.
    intros (cs & c & f & H1 & _). vm_compute in H1. discriminate H1.
Defined.

(** The entry of the sample business. *)
Lemma create_df_entry_columns_witness :
  ∃ m σ',
    _create_df_entry_from_json (λ _, VNone) (λ _, None) (λ _, None)
      sample_business (fresh true false) = DOk (JDict m) σ' ∧
    (∀ k, is_Some (m !! k) ↔ k ∈ entry_columns) ∧
    m !! "id" = Some (JStr "koito-new-york").
Proof.
  destruct (_create_df_entry_from_json (λ _, VNone) (λ _, None) (λ _, None)
              sample_business (fresh true false)) as [v σ'|y σ'] eqn:H.
  - destruct (create_df_entry_columns (λ _, VNone) (λ _, None) (λ _, None)
                sample_business v (fresh true false) σ' H)
      as (m & id & -> & Hdom & Hid & Hm & _).
    exists m, σ'. split; [reflexivity|]. split; [exact Hdom|].
    vm_compute in Hid. injection Hid as <-. exact Hm.
  - vm_compute in H. discriminate H.
Defined.

(** A row whose categories entry is [null] gives no entry. *)
Lemma create_df_entry_bad_categories_raises_witness :
  ∃ y σ',
    _create_df_entry_from_json (λ _, VNone) (λ _, None) (λ _, None)
      sample_business_null_categories (fresh true false) = DRaise y σ'.
Proof.
  apply (create_df_entry_bad_categories_raises (λ _, VNone) (λ _, None) (λ _, None)
           sample_business_null_categories (fresh true false)).
  intros (categories & items & aliases & H1 & H2 & _).
  vm_compute in H1. injection H1 as <-. discriminate H2.
Defined.

(** The records of the sample business carry its id. *)
Lemma create_df_entry_logs_at_most_five_witness :
  appends_at_most (VStr "koito-new-york") 5
    (_create_df_entry_from_json (λ _, VNone) (λ _, None) (λ _, None)
       sample_business).
Proof.
  apply (proj1 (create_df_entry_logs_at_most_five (λ _, VNone) (λ _, None)
                  (λ _, None) sample_business) (JStr "koito-new-york")).
  vm_compute. reflexivity.
Defined.
